(** * rsync-backup: catalog, retention and checksum logic of [rsyncbackup.py]

    A shallow embedding of the classes [Backup] and [RsyncBackup] of
    [src/rsyncbackup.py].  Byte strings and text are Rocq strings, the
    backup root is an explicit directory value, methods that touch the
    directory or the object's mutable attributes are state transformers
    that may raise, and the external programs ([rsync], [cp -al],
    [rm -rf]) appear through what they leave behind. *)

From Stdlib Require Import String Ascii List ZArith Lia Bool DecimalString DecimalNat Sorted.
From stdpp Require Import base gmap strings list sets.
Import ListNotations.

Local Open Scope Z_scope.
Local Open Scope nat_scope.

(** ** Python exceptions and results *)

Inductive exn : Type :=
| BackupException (msg : string)
| NameError (name : string)
| AttributeError
| ValueError
| IndexError
| KeyError (key : string)
| UnicodeDecodeError
| UnicodeEncodeError
| FileNotFoundError (path : string)
| ShutilError (msg : string)
| CalledProcessError.

Inductive result (A : Type) : Type :=
| Ok (a : A)
| Raise (e : exn).
Arguments Ok {A} a.
Arguments Raise {A} e.

Definition is_ok {A} (r : result A) : bool :=
  match r with Ok _ => true | Raise _ => false end.

(** ** Byte strings ([bytes] and ASCII [str] methods) *)

Module Bytes.

Definition to_list : string -> list ascii := list_ascii_of_string.
Definition of_list : list ascii -> string := string_of_list_ascii.

Definition LF : ascii := ascii_of_nat 10.
Definition nl : string := String LF EmptyString.

(** [bytes.isspace] on one byte: space, TAB, LF, VT, FF, CR. *)
Definition isspace (c : ascii) : bool :=
  let n := nat_of_ascii c in (n =? 32) || ((9 <=? n) && (n <=? 13)).

Definition startswith (s p : string) : bool := String.prefix p s.

(** [s[n:]] *)
Definition from (n : nat) (s : string) : string :=
  String.substring n (String.length s - n) s.

Fixpoint lstrip_list (l : list ascii) : list ascii :=
  match l with
  | c :: l' => if isspace c then lstrip_list l' else l
  | [] => []
  end.

Definition rstrip_list (l : list ascii) : list ascii :=
  rev (lstrip_list (rev l)).

Definition lstrip (s : string) : string := of_list (lstrip_list (to_list s)).
Definition rstrip (s : string) : string := of_list (rstrip_list (to_list s)).
Definition strip (s : string) : string :=
  of_list (rstrip_list (lstrip_list (to_list s))).

(** The longest prefix without white space, and what follows it. *)
Fixpoint span_token (l : list ascii) : list ascii * list ascii :=
  match l with
  | c :: l' =>
      if isspace c then ([], l)
      else let '(t, r) := span_token l' in (c :: t, r)
  | [] => ([], [])
  end.

(** [s.split(None, 1)]: runs of white space separate, at most one split;
    the remainder keeps its trailing white space. *)
Definition split_ws_1 (s : string) : list string :=
  match lstrip_list (to_list s) with
  | [] => []
  | l =>
      let '(t, r) := span_token l in
      match lstrip_list r with
      | [] => [of_list t]
      | r' => [of_list t; of_list r']
      end
  end.

(** [s.split(sep, n)] for a one-byte separator: every occurrence
    separates, empty fields are kept, at most [n] splits. *)
Fixpoint split_on (sep : ascii) (n : nat) (l : list ascii) : list (list ascii) :=
  match n with
  | 0 => [l]
  | S n' =>
      match l with
      | [] => [[]]
      | c :: l' =>
          if Ascii.eqb c sep then [] :: split_on sep n' l'
          else match split_on sep n l' with
               | f :: fs => (c :: f) :: fs
               | [] => [[c]]
               end
      end
  end.

Definition split (sep : ascii) (n : nat) (s : string) : list string :=
  map of_list (split_on sep n (to_list s)).

(** Iterating a file opened in binary mode: each line keeps its LF. *)
Fixpoint lines_of (cur : list ascii) (l : list ascii) : list string :=
  match l with
  | [] => match cur with [] => [] | _ => [of_list (rev cur)] end
  | c :: l' =>
      if Ascii.eqb c LF then of_list (rev (c :: cur)) :: lines_of [] l'
      else lines_of (c :: cur) l'
  end.

Definition readlines (content : string) : list string :=
  lines_of [] (to_list content).

(** [bytes.decode('utf8')] succeeds exactly on well-formed UTF-8. *)
Definition in_range (lo hi : nat) (c : ascii) : bool :=
  let n := nat_of_ascii c in (lo <=? n) && (n <=? hi).

Definition cont (c : ascii) : bool := in_range 128 191 c.

Fixpoint utf8_list (fuel : nat) (l : list ascii) : bool :=
  match fuel with
  | 0 => match l with [] => true | _ => false end
  | S fuel' =>
      match l with
      | [] => true
      | a :: r =>
          if in_range 0 127 a then utf8_list fuel' r
          else if in_range 194 223 a then
            match r with
            | b :: r' => cont b && utf8_list fuel' r'
            | _ => false
            end
          else if in_range 224 239 a then
            match r with
            | b :: c :: r' =>
                (if nat_of_ascii a =? 224 then in_range 160 191 b
                 else if nat_of_ascii a =? 237 then in_range 128 159 b
                 else cont b)
                && cont c && utf8_list fuel' r'
            | _ => false
            end
          else if in_range 240 244 a then
            match r with
            | b :: c :: d :: r' =>
                (if nat_of_ascii a =? 240 then in_range 144 191 b
                 else if nat_of_ascii a =? 244 then in_range 128 143 b
                 else cont b)
                && cont c && cont d && utf8_list fuel' r'
            | _ => false
            end
          else false
      end
  end.

Definition decodable (s : string) : bool :=
  utf8_list (String.length s) (to_list s).

End Bytes.

(** ** [os.path] on POSIX *)

Module os_path.

Definition sep : ascii := "/"%char.

(** [os.path.join(a, b)] *)
Definition join (a b : string) : string :=
  if Bytes.startswith b "/" then b
  else if String.eqb a "" || Bytes.startswith (Bytes.of_list (rev (Bytes.to_list a))) "/"
       then a +:+ b
       else a +:+ "/" +:+ b.

(** The part of a reversed path before its last separator, reversed. *)
Fixpoint rtail (r : list ascii) : list ascii :=
  match r with
  | c :: r' => if Ascii.eqb c sep then [] else c :: rtail r'
  | [] => []
  end.

Fixpoint rhead (r : list ascii) : list ascii :=
  match r with
  | c :: r' => if Ascii.eqb c sep then r else rhead r'
  | [] => []
  end.

(** [os.path.basename(p)] *)
Definition basename (p : string) : string :=
  Bytes.of_list (rev (rtail (rev (Bytes.to_list p)))).

Fixpoint strip_seps (r : list ascii) : list ascii :=
  match r with
  | c :: r' => if Ascii.eqb c sep then strip_seps r' else r
  | [] => []
  end.

(** [os.path.split(p)]: the head loses its trailing separators unless it
    consists of separators only. *)
Definition split (p : string) : string * string :=
  let r := rev (Bytes.to_list p) in
  let h := rhead r in
  let h' := match strip_seps h with [] => h | h'' => h'' end in
  (Bytes.of_list (rev h'), Bytes.of_list (rev (rtail r))).

(** [os.path.normpath(p)] *)
Fixpoint norm_comps (initial_slashes : nat) (comps new_comps : list (list ascii))
  : list (list ascii) :=
  match comps with
  | [] => rev new_comps
  | comp :: comps' =>
      if String.eqb (Bytes.of_list comp) "" || String.eqb (Bytes.of_list comp) "."
      then norm_comps initial_slashes comps' new_comps
      else
        let up := String.eqb (Bytes.of_list comp) ".." in
        let last_up :=
          match new_comps with
          | c :: _ => String.eqb (Bytes.of_list c) ".."
          | [] => false
          end in
        let empty := match new_comps with [] => true | _ => false end in
        if negb up || ((initial_slashes =? 0) && empty) || last_up
        then norm_comps initial_slashes comps' (comp :: new_comps)
        else norm_comps initial_slashes comps' (tl new_comps)
  end.

Fixpoint join_comps (comps : list (list ascii)) : list ascii :=
  match comps with
  | [] => []
  | [c] => c
  | c :: comps' => c ++ sep :: join_comps comps'
  end.

Definition normpath (p : string) : string :=
  if String.eqb p "" then "." else
  let initial_slashes :=
    if Bytes.startswith p "/" then
      if Bytes.startswith p "//" && negb (Bytes.startswith p "///") then 2 else 1
    else 0 in
  let l := Bytes.to_list p in
  let comps := norm_comps initial_slashes (Bytes.split_on sep (length l) l) [] in
  let q := Bytes.of_list (repeat sep initial_slashes ++ join_comps comps) in
  if String.eqb q "" then "." else q.

End os_path.

(** ** The regular expressions of the program *)

Module re.

(** [[0-9-]] *)
Definition ts_char (c : ascii) : bool :=
  Bytes.in_range 48 57 c || Ascii.eqb c "-".

(** [.] matches every byte but LF. *)
Definition dot (c : ascii) : bool := negb (Ascii.eqb c Bytes.LF).

(** A subject read backwards from the position of [$]: seventeen bytes
    of [[0-9-]], an underscore, and a prefix accepted by [prefix_ok].
    The result is (prefix, seventeen bytes), both in reading order. *)
Definition before_end (prefix_ok : list ascii -> bool) (r : list ascii)
  : option (string * string) :=
  let t := firstn 17 r in
  match skipn 17 r with
  | u :: p =>
      if (length t =? 17) && forallb ts_char t && Ascii.eqb u "_" && prefix_ok (rev p)
      then Some (Bytes.of_list (rev p), Bytes.of_list (rev t))
      else None
  | [] => None
  end.

(** [$] matches at the end of the subject and also just before a final
    LF; [^] and [re.match] anchor the start. *)
Definition anchored (prefix_ok : list ascii -> bool) (subject : string)
  : option (string * string) :=
  let r := rev (Bytes.to_list subject) in
  match before_end prefix_ok r with
  | Some g => Some g
  | None =>
      match r with
      | c :: r' => if Ascii.eqb c Bytes.LF then before_end prefix_ok r' else None
      | [] => None
      end
  end.

Definition some_dots (p : list ascii) : bool :=
  match p with [] => false | _ => forallb dot p end.

(** [^(.+)_([0-9-]{17})$]: groups 1 and 2 of the match, if any.  The same
    subjects match [^.+_[0-9-]{17}$]. *)
Definition snapshot_name (subject : string) : option (string * string) :=
  anchored some_dots subject.

Definition is_snapshot_name (subject : string) : bool :=
  match snapshot_name subject with Some _ => true | None => false end.

(** [^incomplete_[0-9-]{17}$] *)
Definition incomplete_name (subject : string) : bool :=
  match anchored (fun p => String.eqb (Bytes.of_list p) "incomplete") subject with
  | Some _ => true
  | None => false
  end.

End re.

(** ** [fnmatch] *)

Module fnmatch.

(** Shell-style matching over the whole name.  The patterns the program
    builds consist of an interval name, [_], [*] and the digits and
    dashes of a date, so only [*], [?] and literal bytes are covered. *)
Fixpoint glob (p : list ascii) (s : list ascii) : bool :=
  match p with
  | [] => match s with [] => true | _ => false end
  | c :: p' =>
      if Ascii.eqb c "*" then
        (fix star (s : list ascii) : bool :=
           glob p' s || match s with [] => false | _ :: s' => star s' end) s
      else
        match s with
        | [] => false
        | d :: s' => (Ascii.eqb c "?" || Ascii.eqb c d) && glob p' s'
        end
  end.

Definition fnmatch (name pat : string) : bool :=
  glob (Bytes.to_list pat) (Bytes.to_list name).

Definition filter (names : list string) (pat : string) : list string :=
  List.filter (fun n => fnmatch n pat) names.

End fnmatch.

(** ** [datetime] values and the [strftime] formats in use *)

Module datetime.

Record t := {
  year : nat; month : nat; day : nat;
  hour : nat; minute : nat; second : nat
}.

Definition decimal (n : nat) : string := NilEmpty.string_of_uint (Nat.to_uint n).

(** [%m], [%d], [%H], [%M], [%S]: two digits. *)
Definition two (n : nat) : string :=
  if n <? 10 then "0" +:+ decimal n else decimal n.

(** ['%Y'] *)
Definition Y (d : t) : string := decimal (year d).
(** ['%Y-%m'] *)
Definition Ym (d : t) : string := Y d +:+ "-" +:+ two (month d).
(** ['%Y-%m-%d'] *)
Definition Ymd (d : t) : string := Ym d +:+ "-" +:+ two (day d).
(** ['%Y-%m-%d-%H%M%S'] *)
Definition stamp (d : t) : string :=
  Ymd d +:+ "-" +:+ two (hour d) +:+ two (minute d) +:+ two (second d).
(** ['%Y-%m-%d %H:%M:%S'] *)
Definition text (d : t) : string :=
  Ymd d +:+ " " +:+ two (hour d) +:+ ":" +:+ two (minute d) +:+ ":" +:+ two (second d).

End datetime.

(** ** The backup root on disk *)

Module Disk.

(** A directory that sits where snapshots are kept.  [tree] is its
    [backup/] subdirectory ([None] when there is none): the regular
    files below it, by relative path, each with the MD5 hex digest of
    its present content, in the order of a traversal.  [checksums_gz]
    holds the uncompressed text of [checksums.gz], [checksums_md5] the
    text of the legacy [checksums.md5].  [inside] are directories that
    were moved into this one. *)
#[warnings="-register-all"]
Inductive entry : Type := Entry {
  name : string;
  tree : option (list (string * string));
  checksums_gz : option string;
  checksums_md5 : option string;
  inside : list entry
}.

(** [path]: where the backup root lies; [top]: snapshot directories
    lying directly in it (the old layout); [backups]: the entries of [<root>/backups] in the order
    [scandir] lists them; [last_verification]: the text of
    [<root>/cache/last_verification]; [rules]: whether the rules file of
    the configuration is a regular file. *)
Record t := {
  path : string;
  top : list entry;
  backups : list entry;
  last_verification : option string;
  rules : bool
}.

Definition with_backups (d : t) (l : list entry) : t :=
  {| path := path d; top := top d; backups := l;
     last_verification := last_verification d; rules := rules d |}.

Definition with_top (d : t) (l : list entry) : t :=
  {| path := path d; top := l; backups := backups d;
     last_verification := last_verification d; rules := rules d |}.

Definition with_last_verification (d : t) (s : option string) : t :=
  {| path := path d; top := top d; backups := backups d;
     last_verification := s; rules := rules d |}.

Definition backups_dir (d : t) : string := os_path.join (path d) "backups".

Definition rename (e : entry) (n : string) : entry :=
  {| name := n; tree := tree e; checksums_gz := checksums_gz e;
     checksums_md5 := checksums_md5 e; inside := inside e |}.

Definition with_tree (e : entry) (f : option (list (string * string))) : entry :=
  {| name := name e; tree := f; checksums_gz := checksums_gz e;
     checksums_md5 := checksums_md5 e; inside := inside e |}.

Definition with_gz (e : entry) (s : option string) : entry :=
  {| name := name e; tree := tree e; checksums_gz := s;
     checksums_md5 := checksums_md5 e; inside := inside e |}.

Definition with_inside (e : entry) (l : list entry) : entry :=
  {| name := name e; tree := tree e; checksums_gz := checksums_gz e;
     checksums_md5 := checksums_md5 e; inside := l |}.

(** The entry of directory [dir] (listed as [l]) that has path [p]. *)
Definition at_path (dir : string) (l : list entry) (p : string) : option entry :=
  List.find (fun e => String.eqb (os_path.join dir (name e)) p) l.

Definition remove_path (dir : string) (l : list entry) (p : string) : list entry :=
  List.filter (fun e => negb (String.eqb (os_path.join dir (name e)) p)) l.

(** Replace, in place, every entry at path [p] by [f] of it. *)
Definition update_path (dir : string) (l : list entry) (p : string)
    (f : entry -> entry) : list entry :=
  map (fun e => if String.eqb (os_path.join dir (name e)) p then f e else e) l.

(** The snapshot below [<root>/backups] with path [p]. *)
Definition snapshot_at (d : t) (p : string) : option entry :=
  at_path (backups_dir d) (backups d) p.

(** Opening a regular file below some [backup/] directory: the path is
    resolved up to [normpath]; the result is the MD5 hex digest of the
    file's content. *)
Definition files_of (d : t) : list (string * string) :=
  flat_map (fun e =>
    match tree e with
    | Some fs =>
        map (fun '(rel, h) =>
               (os_path.join (os_path.join (backups_dir d) (name e)) "backup"
                  +:+ "/" +:+ rel, h)) fs
    | None => []
    end) (backups d).

Definition file_md5 (d : t) (p : string) : option string :=
  match List.find (fun '(q, _) =>
           String.eqb (os_path.normpath q) (os_path.normpath p)) (files_of d) with
  | Some (_, h) => Some h
  | None => None
  end.

End Disk.

(** ** Log records, mutable state and the monad of methods *)

Inductive arg : Type := Str (s : string) | Int (z : Z) | PyNone.

Record LogRecord := {
  levelname : string;
  msg : string;
  args : list arg
}.

(** What a run of the external sync program amounts to: the lines it
    prints (each with its LF), its exit code, and the files, with their
    digests, that lie below the destination when it is done. *)
Record process := {
  stdout : list string;
  returncode : Z;
  received : list (string * string)
}.

(** [disk], [clock] and [transfer] are the world outside the program:
    [clock] is what [datetime.now()] reads, [transfer] what the sync
    program does for a command line on a given disk.  [migrated],
    [status] and [error] are the attributes of the [RsyncBackup] object
    that its methods assign; [log] collects the records handed to the
    logger and [hashed] the paths of the files whose content was read
    to compute a digest, both oldest first. *)
Record state := {
  disk : Disk.t;
  clock : datetime.t;
  transfer : list string -> Disk.t -> process;
  migrated : bool;
  status : string;
  error : bool;
  log : list LogRecord;
  hashed : list string
}.

Definition M (A : Type) : Type := state -> result A * state.

Definition ret {A} (a : A) : M A := fun s => (Ok a, s).
Definition raise {A} (e : exn) : M A := fun s => (Raise e, s).
Definition bind {A B} (m : M A) (k : A -> M B) : M B :=
  fun s => match m s with
           | (Ok a, s') => k a s'
           | (Raise e, s') => (Raise e, s')
           end.
Definition lift {A} (r : result A) : M A := fun s => (r, s).
Definition get_disk : M Disk.t := fun s => (Ok (disk s), s).
Definition get_clock : M datetime.t := fun s => (Ok (clock s), s).
Definition get_migrated : M bool := fun s => (Ok (migrated s), s).
Definition get_transfer : M (list string -> Disk.t -> process) :=
  fun s => (Ok (transfer s), s).
Definition put_disk (d : Disk.t) : M unit :=
  fun s => (Ok tt, {| disk := d; clock := clock s; transfer := transfer s; migrated := migrated s;
                      status := status s; error := error s; log := log s; hashed := hashed s |}).
Definition set_migrated (b : bool) : M unit :=
  fun s => (Ok tt, {| disk := disk s; clock := clock s; transfer := transfer s; migrated := b;
                      status := status s; error := error s; log := log s; hashed := hashed s |}).
Definition set_status (t : string) : M unit :=
  fun s => (Ok tt, {| disk := disk s; clock := clock s; transfer := transfer s; migrated := migrated s;
                      status := t; error := error s; log := log s; hashed := hashed s |}).
Definition set_error (b : bool) : M unit :=
  fun s => (Ok tt, {| disk := disk s; clock := clock s; transfer := transfer s; migrated := migrated s;
                      status := status s; error := b; log := log s; hashed := hashed s |}).
Definition emit (r : LogRecord) : M unit :=
  fun s => (Ok tt, {| disk := disk s; clock := clock s; transfer := transfer s; migrated := migrated s;
                      status := status s; error := error s; log := log s ++ [r];
                      hashed := hashed s |}).
Definition note_hashed (p : string) : M unit :=
  fun s => (Ok tt, {| disk := disk s; clock := clock s; transfer := transfer s;
                      migrated := migrated s; status := status s;
                      error := error s; log := log s;
                      hashed := hashed s ++ [p] |}).

Declare Scope py_scope.
Delimit Scope py_scope with py.
Notation "'let*' x ':=' m 'in' k" := (bind m (fun x => k))
  (at level 10, x name, m at level 100, k at level 200, only parsing) : py_scope.
Notation "'do*' m 'in' k" := (bind m (fun _ => k))
  (at level 10, m at level 100, k at level 200, only parsing) : py_scope.
Local Open Scope py_scope.

Definition logger_info (m : string) (a : list arg) : M unit :=
  emit {| levelname := "INFO"; msg := m; args := a |}.
Definition logger_error (m : string) (a : list arg) : M unit :=
  emit {| levelname := "ERROR"; msg := m; args := a |}.

(** [for x in l: body x], stopping at the first exception. *)
Fixpoint for_each {A} (l : list A) (body : A -> M unit) : M unit :=
  match l with
  | [] => ret tt
  | x :: l' => do* body x in for_each l' body
  end.

(** ** class [Backup] *)

Module Backup.

Record t := {
  path : string;
  name : string;
  timestamp : string;
  interval : string;
  backup_dir : string;
  _checksum_file : string
}.

(** [_parse_name]: [m] is [None] when the name does not match, and
    [m.group] then raises. *)
Definition _parse_name (name : string) : result (string * string) :=
  match re.snapshot_name name with
  | Some (interval, timestamp) => Ok (timestamp, interval)
  | None => Raise AttributeError
  end.

(** [Backup(path)]; [bytes(..., 'utf8')] needs an encodable path. *)
Definition new (p : string) : result t :=
  let n := os_path.basename p in
  match _parse_name n with
  | Ok (ts, i) =>
      let bd := os_path.join p "backup" in
      if Bytes.decodable bd then
        Ok {| path := p; name := n; timestamp := ts; interval := i;
              backup_dir := bd;
              _checksum_file := os_path.join p "checksums.gz" |}
      else Raise UnicodeEncodeError
  | Raise e => Raise e
  end.

Definition checksum_file_legacy (b : t) : string :=
  os_path.join (path b) "checksums.md5".

(** Property [checksum_file]: (filename, version). *)
Definition checksum_file (b : t) (d : Disk.t) : option string * option nat :=
  match Disk.snapshot_at d (path b) with
  | Some e =>
      match Disk.checksums_gz e, Disk.checksums_md5 e with
      | Some _, _ => (Some (_checksum_file b), Some 2)
      | None, Some _ => (Some (checksum_file_legacy b), Some 1)
      | None, None => (None, None)
      end
  | None => (None, None)
  end.

(** One line of a checksum file: [checksum, filename = line.split(None, 1)]
    and [filename.strip()]; the legacy reader also drops one leading
    [./].  The pair is (filename, checksum). *)
Definition read_line (version : nat) (line : string) : result (string * string) :=
  match Bytes.split_ws_1 line with
  | [checksum; filename] =>
      let filename := Bytes.strip filename in
      if (version =? 1) && Bytes.startswith filename "./"
      then Ok (Bytes.from 2 filename, checksum)
      else Ok (filename, checksum)
  | _ => Raise ValueError
  end.

(** Property [checksums], a generator: one item per line of the
    selected file, each either the pair it yields or the exception it
    raises when the consumer reaches it. *)
Definition checksums (b : t) (d : Disk.t) : list (result (string * string)) :=
  match checksum_file b d with
  | (None, _) => []
  | (Some _, version) =>
      match Disk.snapshot_at d (path b) with
      | Some e =>
          match version with
          | Some 2 =>
              match Disk.checksums_gz e with
              | Some text => map (read_line 2) (Bytes.readlines text)
              | None => []
              end
          | Some 1 =>
              match Disk.checksums_md5 e with
              | Some text => map (read_line 1) (Bytes.readlines text)
              | None => []
              end
          | _ => []
          end
      | None => []
      end
  end.

(** Running a generator to its end. *)
Fixpoint collect {A} (g : list (result A)) : result (list A) :=
  match g with
  | [] => Ok []
  | Ok a :: g' =>
      match collect g' with
      | Ok l => Ok (a :: l)
      | Raise e => Raise e
      end
  | Raise e :: _ => Raise e
  end.

Definition write_line (entry : string * string) : string :=
  snd entry +:+ "  " +:+ fst entry +:+ Bytes.nl.

(** Setter of [checksums]: the file [checksums.gz] is written anew. *)
Definition set_checksums (b : t) (cs : list (string * string)) (d : Disk.t)
  : result Disk.t :=
  match Disk.snapshot_at d (path b) with
  | Some _ =>
      Ok (Disk.with_backups d
            (Disk.update_path (Disk.backups_dir d) (Disk.backups d) (path b)
               (fun e => Disk.with_gz e
                           (Some (String.concat "" (map write_line cs))))))
  | None => Raise (FileNotFoundError (_checksum_file b))
  end.

(** [get_files()]: the paths of the regular files below [backup_dir]. *)
Definition get_files (b : t) (d : Disk.t) : result (list string) :=
  match Disk.snapshot_at d (path b) with
  | Some e =>
      match Disk.tree e with
      | Some fs => Ok (map (fun f => backup_dir b +:+ "/" +:+ fst f) fs)
      | None => Raise (FileNotFoundError (backup_dir b))
      end
  | None => Raise (FileNotFoundError (backup_dir b))
  end.

(** [remove()]: [rm -rf path]. *)
Definition remove (b : t) (d : Disk.t) : Disk.t :=
  Disk.with_backups d (Disk.remove_path (Disk.backups_dir d) (Disk.backups d) (path b)).

End Backup.

(** ** class [RsyncBackup] *)

Module RsyncBackup.

(** The attributes fixed by [__init__]: the dry-run flag, the time of
    the run, and the options read from the two configuration files. *)
Record t := {
  test : bool;
  current_datetime : datetime.t;
  label : string;
  rules : string;
  retention_daily : Z;
  retention_monthly : Z;
  retention_yearly : Z;
  rsync_pathname : string;
  rsync_additional_options : list string;
  rsync_mode : string;
  rsync_ssh_user : string;
  rsync_source_host : string;
  rsync_source_dir : string;
  rsync_ssh_key : string
}.

Definition timestamp (self : t) : string := datetime.stamp (current_datetime self).

Record interval_settings := {
  retention : option Z;
  pattern : string
}.

(** [self.intervals], in the order the dictionary is written. *)
Definition intervals (self : t) : list (string * interval_settings) :=
  let now := current_datetime self in
  [ ("custom",  {| retention := None; pattern := datetime.Ymd now +:+ "-*" |});
    ("daily",   {| retention := Some (retention_daily self);
                   pattern := datetime.Ymd now +:+ "-*" |});
    ("monthly", {| retention := Some (retention_monthly self);
                   pattern := datetime.Ym now +:+ "-*" |});
    ("yearly",  {| retention := Some (retention_yearly self);
                   pattern := datetime.Y now +:+ "-*" |}) ].

(** [self.intervals[interval]['pattern']] *)
Definition pattern_of (self : t) (interval : string) : result string :=
  match List.find (fun kv => String.eqb (fst kv) interval) (intervals self) with
  | Some (_, v) => Ok (pattern v)
  | None => Raise (KeyError interval)
  end.

Definition cache_dir (d : Disk.t) : string := os_path.join (Disk.path d) "cache".
Definition last_verification_file (d : Disk.t) : string :=
  os_path.join (cache_dir d) "last_verification".

(** ['%s' % n] for an integer. *)
Definition str_of_int (z : Z) : string := NilEmpty.string_of_int (Z.to_int z).

(** [_get_file_md5(filename)] *)
Definition _get_file_md5 (filename : string) : M string :=
  let* d := get_disk in
  match Disk.file_md5 d filename with
  | Some h => do* note_hashed filename in ret h
  | None => raise (FileNotFoundError filename)
  end.

(** [_create_dir(directory)] for a snapshot's [backup] directory:
    missing parents are made, an existing directory is left as it is. *)
Definition _create_dir (directory : string) : M unit :=
  let* d := get_disk in
  let parent := fst (os_path.split directory) in
  match Disk.snapshot_at d parent with
  | Some e =>
      match Disk.tree e with
      | Some _ => ret tt
      | None =>
          put_disk (Disk.with_backups d
            (Disk.update_path (Disk.backups_dir d) (Disk.backups d) parent
               (fun e => Disk.with_tree e (Some []))))
      end
  | None =>
      put_disk (Disk.with_backups d
        (Disk.backups d ++
           [ {| Disk.name := os_path.basename parent; Disk.tree := Some [];
                Disk.checksums_gz := None; Disk.checksums_md5 := None;
                Disk.inside := [] |} ]))
  end.

(** [_write_timestamp(file_path)]; the one marker file on the modelled
    disk is [last_verification]. *)
Definition _write_timestamp (self : t) (file_path : string) : M unit :=
  if test self then
    logger_info "Updating timestamp in %s (DRY RUN)" [Str file_path]
  else
    do* logger_info "Updating timestamp in %s" [Str file_path] in
    let* now := get_clock in
    let* d := get_disk in
    if String.eqb file_path (last_verification_file d)
    then put_disk (Disk.with_last_verification d (Some (datetime.text now)))
    else ret tt.

(** [shutil.move(src, dst)] between the directories of the model. *)
Definition move (src dst : string) : M unit :=
  let* d := get_disk in
  let here := Disk.snapshot_at d src in
  let above := Disk.at_path (Disk.path d) (Disk.top d) src in
  match (match here with Some e => Some e | None => above end) with
  | None => raise (FileNotFoundError src)
  | Some e =>
      let without :=
        match here with
        | Some _ => Disk.with_backups d
                      (Disk.remove_path (Disk.backups_dir d) (Disk.backups d) src)
        | None => Disk.with_top d (Disk.remove_path (Disk.path d) (Disk.top d) src)
        end in
      match Disk.snapshot_at d dst with
      | Some target =>
          if String.eqb src dst then ret tt
          else if existsb (fun i => String.eqb (Disk.name i) (os_path.basename src))
                          (Disk.inside target)
          then raise (ShutilError "Destination path already exists")
          else
            put_disk (Disk.with_backups without
              (Disk.update_path (Disk.backups_dir d) (Disk.backups without) dst
                 (fun t => Disk.with_inside t (Disk.inside t ++ [e]))))
      | None =>
          match here with
          | Some _ =>
              put_disk (Disk.with_backups d
                (Disk.update_path (Disk.backups_dir d) (Disk.backups d) src
                   (fun e => Disk.rename e (os_path.basename dst))))
          | None =>
              put_disk (Disk.with_backups without
                (Disk.backups without ++ [Disk.rename e (os_path.basename dst)]))
          end
      end
  end.

(** [_migrate_backups()] *)
Definition _migrate_backups : M unit :=
  let* d := get_disk in
  do* for_each (Disk.top d) (fun entry =>
        if re.is_snapshot_name (Disk.name entry) then
          move (os_path.join (Disk.path d) (Disk.name entry))
               (os_path.join (Disk.backups_dir d) (Disk.name entry))
        else ret tt) in
  set_migrated true.

(** The paths [_get_backups()] goes through: after the migration, the
    entries of [backups_dir] whose name matches [^.+_[0-9-]{17}$]. *)
Definition scan : M (list string) :=
  let* done := get_migrated in
  do* (if done then ret tt else _migrate_backups) in
  let* d := get_disk in
  ret (map (fun e => os_path.join (Disk.backups_dir d) (Disk.name e))
           (List.filter (fun e => re.is_snapshot_name (Disk.name e))
                        (Disk.backups d))).

Fixpoint construct (paths : list string) : result (list Backup.t) :=
  match paths with
  | [] => Ok []
  | p :: ps =>
      match Backup.new p with
      | Ok b =>
          match construct ps with
          | Ok bs => Ok (b :: bs)
          | Raise e => Raise e
          end
      | Raise e => Raise e
      end
  end.

(** [_get_backups()], run to its end. *)
Definition _get_backups : M (list Backup.t) :=
  let* paths := scan in
  lift (construct paths).

(** [sorted(backups, key=attrgetter('timestamp'), reverse=True)]: by
    descending timestamp, equal timestamps in the order of the input. *)
Fixpoint insert_desc (b : Backup.t) (l : list Backup.t) : list Backup.t :=
  match l with
  | [] => [b]
  | c :: l' =>
      if String.ltb (Backup.timestamp b) (Backup.timestamp c)
      then c :: insert_desc b l'
      else b :: l
  end.

Definition sorted_desc (l : list Backup.t) : list Backup.t :=
  foldr insert_desc [] l.

(** The loop of [_get_latest_backup()]: [backup] is the loop variable,
    still bound when the loop runs out. *)
Fixpoint latest_loop (backup : option Backup.t) (l : list Backup.t)
  : option Backup.t :=
  match l with
  | [] => backup
  | b :: l' =>
      if negb (String.eqb (Backup.interval b) "incomplete") then Some b
      else latest_loop (Some b) l'
  end.

(** [_get_latest_backup()] *)
Definition _get_latest_backup : M (option Backup.t) :=
  let* backups := _get_backups in
  ret (latest_loop None (sorted_desc backups)).

(** [_get_incomplete_backup()]: the generator is left at the first hit,
    so later entries are never constructed. *)
Fixpoint first_incomplete (paths : list string) : result (option Backup.t) :=
  match paths with
  | [] => Ok None
  | p :: ps =>
      match Backup.new p with
      | Ok b =>
          if re.incomplete_name (Backup.name b) then Ok (Some b)
          else first_incomplete ps
      | Raise e => Raise e
      end
  end.

Definition _get_incomplete_backup : M (option Backup.t) :=
  let* paths := scan in
  lift (first_incomplete paths).

(** [_get_backup_by_name(backup_name)] *)
Definition _get_backup_by_name (backup_name : string) : M (option Backup.t) :=
  if negb (String.eqb (fst (os_path.split backup_name)) "") then
    raise (BackupException
             "You must specify the folder name of the backup, not a path")
  else
    let* d := get_disk in
    let* backup := lift (Backup.new (os_path.join (Disk.backups_dir d) backup_name)) in
    match Disk.snapshot_at d (Backup.path backup) with
    | Some e =>
        match Disk.tree e with
        | Some _ => ret (Some backup)
        | None => ret None
        end
    | None => ret None
    end.

(** [_run_rsync(rsync_command)].  The sync program is started; unless
    its command line carries [-n], the files it leaves replace those
    below the destination, the last word of the command line.  Its
    output is then read line by line and its exit code inspected.
    The output is taken as read to its end, with the program finished
    by then: [stdout] holds all its lines and [returncode] its exit
    code. *)
Definition Popen (rsync_command : list string) : M process :=
  let* run := get_transfer in
  let* d := get_disk in
  let p := run rsync_command d in
  let dest := fst (os_path.split (List.last rsync_command "")) in
  do* (if existsb (String.eqb "-n") rsync_command then ret tt
       else put_disk (Disk.with_backups d
              (Disk.update_path (Disk.backups_dir d) (Disk.backups d) dest
                 (fun e => Disk.with_tree e (Some (received p)))))) in
  ret p.

Fixpoint read_output (lines : list string) (checksums : list (string * string))
  : M (list (string * string)) :=
  match lines with
  | [] => ret checksums
  | line :: lines' =>
      let line := Bytes.strip line in
      if negb (Bytes.decodable line) then raise UnicodeDecodeError
      else
        do* logger_info line [] in
        if Bytes.startswith line ">" then
          match Bytes.split " " 2 line with
          | [_; file_checksum; file_path] =>
              read_output lines' (checksums ++ [(file_path, file_checksum)])
          | _ => raise IndexError
          end
        else read_output lines' checksums
  end.

Definition _run_rsync (rsync_command : list string) : M (list (string * string)) :=
  let* p := Popen rsync_command in
  let* checksums := read_output (stdout p) [] in
  let exit_code := returncode p in
  if negb (Z.eqb exit_code 0) then
    raise (BackupException
             ("Rsync returned non-zero exit code [ " +:+ str_of_int exit_code +:+ " ]"))
  else ret checksums.

(** [str.ljust(width)] *)
Definition ljust (s : string) (width : nat) : string :=
  s +:+ Bytes.of_list (repeat " "%char (width - String.length s)).

(** [_display_verification_stats(stats)] *)
Definition _display_verification_stats (stats : list (string * nat)) : M unit :=
  let label_width := 26 in
  do* logger_info "" [] in
  do* for_each stats (fun line =>
        logger_info (ljust (fst line) label_width +:+ ": "
                       +:+ datetime.decimal (snd line)) []) in
  logger_info "" [].

Record counts := {
  checked_count : nat;
  verified_count : nat;
  failed_count : nat
}.

(** The loop of [verify] over the generator [backup.checksums]. *)
Fixpoint verify_loop (backup : Backup.t) (g : list (result (string * string)))
    (c : counts) : M counts :=
  match g with
  | [] => ret c
  | Raise e :: _ => raise e
  | Ok (filename, stored_checksum) :: g' =>
      let file_path :=
        os_path.normpath (os_path.join (Backup.backup_dir backup) filename) in
      let* current_checksum := _get_file_md5 file_path in
      if String.eqb current_checksum stored_checksum then
        verify_loop backup g'
          {| checked_count := checked_count c + 1;
             verified_count := verified_count c + 1;
             failed_count := failed_count c |}
      else
        if Bytes.decodable file_path && Bytes.decodable current_checksum
           && Bytes.decodable stored_checksum
        then
          do* logger_error "[FAILED] %s [%s => %s]"
                [Str file_path; Str current_checksum; Str stored_checksum] in
          verify_loop backup g'
            {| checked_count := checked_count c + 1;
               verified_count := verified_count c;
               failed_count := failed_count c + 1 |}
        else raise UnicodeDecodeError
  end.

(** [verify(backup_name)] *)
Definition verify (self : t) (backup_name : string) : M unit :=
  do* set_status "Backup verification failed!" in
  do* set_error true in
  let* backup :=
    (if String.eqb backup_name "_current_" then _get_latest_backup
     else _get_backup_by_name backup_name) in
  match backup with
  | None => raise (BackupException "There is no backup to verify")
  | Some backup =>
      do* logger_info "Initializing checksum verification for %s"
            [Str (Backup.path backup)] in
      let* d := get_disk in
      match fst (Backup.checksum_file backup d) with
      | None =>
          raise (BackupException
                   "There is no checksum file to verify for this backup")
      | Some checksum_file =>
          do* logger_info "Selected checksum file: %s" [Str checksum_file] in
          do* logger_info "Starting backup verification..." [] in
          let* c := verify_loop backup (Backup.checksums backup d)
                      {| checked_count := 0; verified_count := 0;
                         failed_count := 0 |} in
          do* _display_verification_stats
                [ ("Files checked", checked_count c);
                  ("Successful verifications", verified_count c);
                  ("Failed verifications", failed_count c) ] in
          do* (if negb (failed_count c =? 0) then
                 logger_error "Backup verification failed!" []
               else
                 do* set_status "Backup verification completed successfully!" in
                 logger_info "Backup verification completed successfully!" []) in
          do* (if String.eqb backup_name "_current_" then
                 _write_timestamp self (last_verification_file d)
               else ret tt) in
          set_error false
      end
  end.

(** [_configure_rsync(backup)] *)
Definition _configure_rsync (self : t) (backup : Backup.t) : M (list string) :=
  let rsync := rsync_pathname self in
  let command := [rsync; "-avihh"; "--stats"; "--out-format=%i %C %n%L"] in
  let command := command ++ rsync_additional_options self in
  let command := if test self then command ++ ["-n"] else command in
  let* sc :=
    (if String.eqb (rsync_mode self) "ssh" then
       ret (rsync_ssh_user self +:+ "@" +:+ rsync_source_host self +:+ ":"
              +:+ rsync_source_dir self,
            command ++ ["-e"; "ssh -i " +:+ rsync_ssh_key self])
     else if String.eqb (rsync_mode self) "local" then
       ret (rsync_source_dir self, command)
     else
       raise (BackupException (rsync_mode self +:+ " is not a valid value for MODE"))) in
  let source := fst sc in
  let command := snd sc in
  let* d := get_disk in
  if negb (Disk.rules d) then
    raise (BackupException (rules self +:+ " does not exist"))
  else
    let command := command ++ ["-f"; "merge " +:+ rules self] in
    let* previous_backup := _get_latest_backup in
    let command :=
      match previous_backup with
      | Some previous_backup =>
          command ++ ["--link-dest=" +:+ Backup.backup_dir previous_backup]
      | None => command
      end in
    let* incomplete_backup := _get_incomplete_backup in
    let* command :=
      match incomplete_backup with
      | Some incomplete_backup =>
          do* logger_info "Incomplete backup found in %s. Resuming..."
                [Str (Backup.path incomplete_backup)] in
          do* move (Backup.path incomplete_backup) (Backup.path backup) in
          ret (command ++ ["--delete-excluded"])
      | None =>
          do* (if negb (test self) then _create_dir (Backup.backup_dir backup)
               else ret tt) in
          ret command
      end in
    ret (command ++ [source; Backup.backup_dir backup]).

(** [_get_final_dest()] *)
Definition _get_final_dest (self : t) : M string :=
  let* backups := _get_backups in
  let* pattern := lift (pattern_of self "daily") in
  let* d := get_disk in
  let current_daily :=
    fnmatch.filter
      (map Backup.path
         (List.filter (fun b => String.eqb (Backup.interval b) "daily") backups))
      ("*_" +:+ pattern) in
  match current_daily with
  | _ :: _ => ret (os_path.join (Disk.backups_dir d) ("custom_" +:+ timestamp self))
  | [] => ret (os_path.join (Disk.backups_dir d) ("daily_" +:+ timestamp self))
  end.

(** [cp -al source destination], run through [subprocess.check_call]. *)
Definition cp_al (source destination : string) : M unit :=
  let* d := get_disk in
  match Disk.snapshot_at d source with
  | None => raise CalledProcessError
  | Some e =>
      match Disk.snapshot_at d destination with
      | Some _ =>
          put_disk (Disk.with_backups d
            (Disk.update_path (Disk.backups_dir d) (Disk.backups d) destination
               (fun t => Disk.with_inside t (Disk.inside t ++ [e]))))
      | None =>
          put_disk (Disk.with_backups d
            (Disk.backups d ++ [Disk.rename e (os_path.basename destination)]))
      end
  end.

(** [self.intervals[interval]['retention']] *)
Definition retention_of (interval : string) (v : interval_settings) : result Z :=
  match retention v with
  | Some n => Ok n
  | None => Raise (KeyError "retention")
  end.

(** [_create_interval_backups(source_backup)] *)
Definition _create_interval_backups (self : t) (source_backup : string) : M unit :=
  for_each (intervals self) (fun kv =>
    let interval := fst kv in
    if String.eqb interval "custom" then ret tt
    else
      let* retention := lift (retention_of interval (snd kv)) in
      if (retention <? 1)%Z then ret tt
      else
        let* backups := _get_backups in
        let already_existing :=
          fnmatch.filter
            (map Backup.path
               (List.filter (fun b => String.eqb (Backup.interval b) interval) backups))
            ("*_" +:+ pattern (snd kv)) in
        match already_existing with
        | _ :: _ => ret tt
        | [] =>
            let* d := get_disk in
            let interval_backup :=
              os_path.join (Disk.backups_dir d)
                (interval +:+ "_" +:+ timestamp self) in
            if test self then
              logger_info "Creating %s (DRY RUN)" [Str interval_backup]
            else
              do* logger_info "Creating %s" [Str interval_backup] in
              cp_al source_backup interval_backup
        end).

(** [l[i:]] *)
Definition slice_from {A} (l : list A) (i : Z) : list A :=
  if (0 <=? i)%Z then skipn (Z.to_nat i) l
  else skipn (length l - Z.to_nat (- i)) l.

(** The loop of [_remove_old_backups] over the custom snapshots: the
    appended name [b] is bound nowhere in the function. *)
Fixpoint custom_loop (pattern : string) (interval_backups to_delete : list Backup.t)
  : result (list Backup.t) :=
  match interval_backups with
  | [] => Ok to_delete
  | backup :: rest =>
      let m := fnmatch.fnmatch (Backup.name backup) ("custom_" +:+ pattern) in
      if negb m then Raise (NameError "b")
      else custom_loop pattern rest to_delete
  end.

(** The loop over [self.intervals] that fills [to_delete]. *)
Fixpoint interval_loop (l : list (string * interval_settings))
    (backups to_delete : list Backup.t) : result (list Backup.t) :=
  match l with
  | [] => Ok to_delete
  | (interval, v) :: l' =>
      let interval_backups :=
        List.filter (fun b => String.eqb (Backup.interval b) interval) backups in
      let pattern := pattern v in
      if String.eqb interval "custom" then
        match custom_loop pattern interval_backups to_delete with
        | Ok to_delete => interval_loop l' backups to_delete
        | Raise e => Raise e
        end
      else
        match retention_of interval v with
        | Ok retention =>
            interval_loop l' backups
              (to_delete ++ slice_from interval_backups retention)
        | Raise e => Raise e
        end
  end.

(** [to_delete] as it stands when the deleting loop starts, for the
    snapshots [_get_backups()] returned. *)
Definition marked (self : t) (listed : list Backup.t) : result (list Backup.t) :=
  let backups := sorted_desc listed in
  let to_delete :=
    List.filter (fun b => String.eqb (Backup.interval b) "current") backups in
  interval_loop (intervals self) backups to_delete.

(** [_remove_old_backups()] *)
Definition _remove_old_backups (self : t) : M unit :=
  do* logger_info "Removing old backups..." [] in
  let* listed := _get_backups in
  let* to_delete := lift (marked self listed) in
  for_each to_delete (fun backup =>
    if test self then
      logger_info "Removing %s (DRY RUN)" [Str (Backup.path backup)]
    else
      do* logger_info "Removing %s" [Str (Backup.path backup)] in
      let* d := get_disk in
      put_disk (Backup.remove backup d)).

(** The loop of [_get_checksums] over the checksums of the latest
    snapshot. *)
Fixpoint reuse_loop (g : list (result (string * string)))
    (need_checksum : gset string) (checksums : list (string * string))
  : result (list (string * string) * gset string) :=
  match g with
  | [] => Ok (checksums, need_checksum)
  | Raise e :: _ => Raise e
  | Ok (filename, checksum) :: g' =>
      if decide (filename ∈ need_checksum) then
        reuse_loop g' (need_checksum ∖ {[filename]})
          (checksums ++ [(filename, checksum)])
      else reuse_loop g' need_checksum checksums
  end.

(** The loop of [_get_checksums] over the files left in [need_checksum]. *)
Fixpoint hash_loop (backup : Backup.t) (files : list string)
    (checksums : list (string * string)) : M (list (string * string)) :=
  match files with
  | [] => ret checksums
  | filename :: files' =>
      let file_path := os_path.join (Backup.backup_dir backup) filename in
      let* checksum := _get_file_md5 file_path in
      hash_loop backup files' (checksums ++ [(filename, checksum)])
  end.

(** [_get_checksums(backup, rsync_checksums)].  [need_checksum] is a set;
    the order in which the last loop visits it is that of [elements]. *)
Definition _get_checksums (backup : Backup.t)
    (rsync_checksums : list (string * string)) : M (list (string * string)) :=
  do* logger_info "Getting checksums for backup files..." [] in
  let path_prefix_len := String.length (Backup.backup_dir backup +:+ "/") in
  let* d := get_disk in
  let* files := lift (Backup.get_files backup d) in
  let need_checksum : gset string :=
    list_to_set (map (Bytes.from path_prefix_len) files) in
  do* logger_info "Using %d checksums from rsync"
        [Int (Z.of_nat (length rsync_checksums))] in
  let checksums := rsync_checksums in
  let need_checksum : gset string :=
    need_checksum ∖ list_to_set (map fst rsync_checksums) in
  let* latest_backup := _get_latest_backup in
  match latest_backup with
  | None => raise AttributeError
  | Some latest_backup =>
      let* d := get_disk in
      let checksum_file := fst (Backup.checksum_file latest_backup d) in
      let* cn :=
        match checksum_file with
        | Some checksum_file =>
            do* logger_info "Reusing unchanged checksums from %s"
                  [Str checksum_file] in
            lift (reuse_loop (Backup.checksums latest_backup d)
                    need_checksum checksums)
        | None => ret (checksums, need_checksum)
        end in
      let checksums := fst cn in
      let need_checksum : gset string := snd cn in
      do* logger_info "Calculating checksum for %d additional files"
            [Int (Z.of_nat (size need_checksum))] in
      let need_checksum : gset string :=
        need_checksum ∖ list_to_set (map fst checksums) in
      hash_loop backup (elements need_checksum) checksums
  end.

Definition quote : string := String (ascii_of_nat 34) EmptyString.

(** [backup()].  The log directory is no part of [Disk.t]; what
    [_remove_old_logs()] does there enters as [_remove_old_logs]. *)
Definition backup (self : t) (_remove_old_logs : M unit) : M unit :=
  do* set_status "Backup failed!" in
  do* set_error true in
  let* d := get_disk in
  let* backup :=
    lift (Backup.new (os_path.join (Disk.backups_dir d)
                        ("incomplete_" +:+ timestamp self))) in
  let* rsync_command := _configure_rsync self backup in
  do* logger_info ("Starting backup labeled " +:+ quote +:+ "%s" +:+ quote +:+ " to %s")
        [Str (label self); Str (Backup.backup_dir backup)] in
  do* logger_info "Commmand: %s" [Str (String.concat " " rsync_command)] in
  let* rsync_checksums := _run_rsync rsync_command in
  do* (if negb (test self) then
         let* checksums := _get_checksums backup rsync_checksums in
         let* d := get_disk in
         let* d' := lift (Backup.set_checksums backup checksums d) in
         do* put_disk d' in
         logger_info "Added %d md5 checksums to %s"
           [Int (Z.of_nat (length checksums));
            match fst (Backup.checksum_file backup d') with
            | Some f => Str f
            | None => PyNone
            end]
       else ret tt) in
  let* final_dest := _get_final_dest self in
  do* (if negb (test self) then move (Backup.path backup) final_dest else ret tt) in
  do* _create_interval_backups self final_dest in
  do* _remove_old_backups self in
  do* _remove_old_logs in
  let status :=
    if test self then "Dry run completed successfully!"
    else "Backup completed successfully!" in
  do* set_status status in
  do* logger_info status [] in
  set_error false.

End RsyncBackup.


(** ** Dates: the arithmetic of [datetime] *)

Module calendar.

(** [_is_leap(year)] *)
Definition is_leap (year : nat) : bool :=
  (year mod 4 =? 0) && (negb (year mod 100 =? 0) || (year mod 400 =? 0)).

(** [_days_in_month(year, month)] *)
Definition days_in_month (year month : nat) : nat :=
  match month with
  | 2 => if is_leap year then 29 else 28
  | 4 | 6 | 9 | 11 => 30
  | _ => 31
  end.

(** What the constructor [datetime(...)] accepts; anything else makes it
    raise [ValueError]. *)
Definition valid (d : datetime.t) : bool :=
  (1 <=? datetime.year d) && (Z.of_nat (datetime.year d) <=? 9999)%Z
  && (1 <=? datetime.month d) && (datetime.month d <=? 12)
  && (1 <=? datetime.day d)
  && (datetime.day d <=? days_in_month (datetime.year d) (datetime.month d))
  && (datetime.hour d <=? 23) && (datetime.minute d <=? 59)
  && (datetime.second d <=? 59).

(** [_days_before_year(year)] *)
Definition days_before_year (year : nat) : Z :=
  let y := (Z.of_nat year - 1)%Z in (y * 365 + y / 4 - y / 100 + y / 400)%Z.

(** [_days_before_month(year, month)] *)
Definition days_before_month (year month : nat) : Z :=
  Z.of_nat (fold_right Nat.add 0 (map (days_in_month year) (seq 1 (month - 1)))).

(** [d.toordinal()] *)
Definition toordinal (d : datetime.t) : Z :=
  (days_before_year (datetime.year d)
   + days_before_month (datetime.year d) (datetime.month d)
   + Z.of_nat (datetime.day d))%Z.

Definition seconds (d : datetime.t) : Z :=
  (Z.of_nat (datetime.second d) + Z.of_nat (datetime.minute d) * 60
   + Z.of_nat (datetime.hour d) * 3600)%Z.

(** [(a - b).days]: a [timedelta] keeps its seconds within a day, so its
    days are the difference rounded down. *)
Definition days_between (a b : datetime.t) : Z :=
  (((toordinal a - toordinal b) * 86400 + (seconds a - seconds b)) / 86400)%Z.

End calendar.

(** ** [datetime.strptime] on ASCII input *)

Module strptime.

Definition digit : ascii -> bool := Bytes.in_range 48 57.
Definition between (lo hi : nat) : ascii -> bool :=
  fun c => Bytes.in_range (48 + lo) (48 + hi) c.
Definition exactly (a : ascii) : ascii -> bool := fun c => Ascii.eqb c a.

(** The regular expression of a directive is a choice among
    alternatives, tried in the order written; an alternative is a
    sequence of byte classes. *)
Definition alternative : Type := list (ascii -> bool).

(** [%Y]: [\d\d\d\d] *)
Definition Y : list alternative := [[digit; digit; digit; digit]].
(** [%m]: [1[0-2]|0[1-9]|[1-9]] *)
Definition m : list alternative :=
  [[exactly "1"; between 0 2]; [exactly "0"; between 1 9]; [between 1 9]].
(** [%d]: [3[0-1]|[1-2]\d|0[1-9]|[1-9]| [1-9]] *)
Definition d : list alternative :=
  [[exactly "3"; between 0 1]; [between 1 2; digit]; [exactly "0"; between 1 9];
   [between 1 9]; [exactly " "; between 1 9]].
(** [%H]: [2[0-3]|[0-1]\d|\d] *)
Definition H : list alternative :=
  [[exactly "2"; between 0 3]; [between 0 1; digit]; [digit]].
(** [%M]: [[0-5]\d|\d] *)
Definition M : list alternative := [[between 0 5; digit]; [digit]].
(** [%S]: [6[0-1]|[0-5]\d|\d] *)
Definition S : list alternative :=
  [[exactly "6"; between 0 1]; [between 0 5; digit]; [digit]].

Inductive item : Type :=
| Group (alternatives : list alternative)
| Lit (c : ascii).

(** The bytes an alternative takes from the start of the input, and
    what is left. *)
Fixpoint take_alt (a : alternative) (l : list ascii)
  : option (list ascii * list ascii) :=
  match a with
  | [] => Some ([], l)
  | p :: a' =>
      match l with
      | c :: l' =>
          if p c then
            match take_alt a' l' with
            | Some (g, r) => Some (c :: g, r)
            | None => None
            end
          else None
      | [] => None
      end
  end.

(** [format_regex.match(data_string)]: the groups of the first match
    in the order of backtracking, and the input left after it. *)
Fixpoint run (format : list item) (l : list ascii)
  : option (list (list ascii) * list ascii) :=
  match format with
  | [] => Some ([], l)
  | Lit c :: format' =>
      match l with
      | x :: l' => if Ascii.eqb x c then run format' l' else None
      | [] => None
      end
  | Group alternatives :: format' =>
      (fix try (alts : list alternative) : option (list (list ascii) * list ascii) :=
         match alts with
         | [] => None
         | a :: alts' =>
             match take_alt a l with
             | Some (g, r) =>
                 match run format' r with
                 | Some (gs, rest) => Some (g :: gs, rest)
                 | None => try alts'
                 end
             | None => try alts'
             end
         end) alternatives
  end.

(** [int(group)] for a group of digits, a leading space left aside. *)
Definition number (g : list ascii) : nat :=
  fold_left (fun n c => if digit c then 10 * n + (nat_of_ascii c - 48) else n) g 0.

(** ['%Y-%m-%d-%H%M%S'] *)
Definition stamp_format : list item :=
  [Group Y; Lit "-"; Group m; Lit "-"; Group d; Lit "-"; Group H; Group M; Group S].

(** [datetime.strptime(data_string, '%Y-%m-%d-%H%M%S')]: the input has
    to match, nothing may be left over, and the fields have to make a
    date the constructor accepts; every failure is a [ValueError]. *)
Definition stamp (data_string : string) : result datetime.t :=
  match run stamp_format (Bytes.to_list data_string) with
  | Some ([year; month; day; hour; minute; second], []) =>
      let t := {| datetime.year := number year; datetime.month := number month;
                  datetime.day := number day; datetime.hour := number hour;
                  datetime.minute := number minute;
                  datetime.second := number second |} in
      if calendar.valid t then Ok t else Raise ValueError
  | _ => Raise ValueError
  end.

End strptime.

(** ** Text: the characters of a [str]

    A [str] the program gets from the file system or builds from one
    is held as the bytes it stands for: UTF-8, and a byte that is part
    of no character of its own ([surrogateescape]). *)

Module Text.

Definition code (c : ascii) : N := N_of_nat (nat_of_ascii c).

(** The first character of a byte sequence, as its code point, and the
    bytes after it. *)
Definition first_char (l : list ascii) : option (N * list ascii) :=
  let stray a r := Some ((56320 + code a)%N, r) in
  match l with
  | [] => None
  | a :: r =>
      if Bytes.in_range 0 127 a then Some (code a, r)
      else if Bytes.in_range 194 223 a then
        match r with
        | b :: r' =>
            if Bytes.cont b
            then Some (((code a - 192) * 64 + (code b - 128))%N, r')
            else stray a r
        | _ => stray a r
        end
      else if Bytes.in_range 224 239 a then
        match r with
        | b :: c :: r' =>
            if (if nat_of_ascii a =? 224 then Bytes.in_range 160 191 b
                else if nat_of_ascii a =? 237 then Bytes.in_range 128 159 b
                else Bytes.cont b)
               && Bytes.cont c
            then Some (((code a - 224) * 4096 + (code b - 128) * 64
                        + (code c - 128))%N, r')
            else stray a r
        | _ => stray a r
        end
      else if Bytes.in_range 240 244 a then
        match r with
        | b :: c :: d :: r' =>
            if (if nat_of_ascii a =? 240 then Bytes.in_range 144 191 b
                else if nat_of_ascii a =? 244 then Bytes.in_range 128 143 b
                else Bytes.cont b)
               && Bytes.cont c && Bytes.cont d
            then Some (((code a - 240) * 262144 + (code b - 128) * 4096
                        + (code c - 128) * 64 + (code d - 128))%N, r')
            else stray a r
        | _ => stray a r
        end
      else stray a r
  end.

(** The code points of a [str], in order. *)
Fixpoint chars_of (fuel : nat) (l : list ascii) : list N :=
  match fuel with
  | 0 => []
  | S fuel' =>
      match first_char l with
      | Some (c, r) => c :: chars_of fuel' r
      | None => []
      end
  end.

Definition chars (s : string) : list N :=
  chars_of (String.length s) (Bytes.to_list s).

(** [a < b] for two [str]: by code points, the shorter first. *)
Fixpoint lt (a b : list N) : bool :=
  match a, b with
  | _, [] => false
  | [], _ :: _ => true
  | x :: a', y :: b' => (x <? y)%N || ((x =? y)%N && lt a' b')
  end.

Definition ltb (a b : string) : bool := lt (chars a) (chars b).

End Text.

(** ** The log files of [RsyncBackup] *)

Module Logs.

Import RsyncBackup.

(** The directory [<root>/logs] holds regular files, [names] in the
    order [scandir] lists them. *)
Record world := {
  base : state;
  names : list string
}.

(** Beside the exceptions of the catalog's methods, the one of a
    subtraction that has [None] for an operand. *)
Inductive raised : Type :=
| Std (e : exn)
| TypeError.

Inductive outcome (A : Type) : Type :=
| Done (a : A)
| Failed (e : raised).
Arguments Done {A} a.
Arguments Failed {A} e.

Definition W (A : Type) : Type := world -> outcome A * world.

Definition unit_ {A} (a : A) : W A := fun w => (Done a, w).
Definition fail {A} (e : raised) : W A := fun w => (Failed e, w).
Definition and_then {A B} (m : W A) (k : A -> W B) : W B :=
  fun w => match m w with
           | (Done a, w') => k a w'
           | (Failed e, w') => (Failed e, w')
           end.

(** A method of the catalog, run on the state it knows. *)
Definition on_base {A} (m : M A) : W A :=
  fun w => match m (base w) with
           | (Ok a, s) => (Done a, {| base := s; names := names w |})
           | (Raise e, s) => (Failed (Std e), {| base := s; names := names w |})
           end.

Definition get_names : W (list string) := fun w => (Done (names w), w).
Definition put_names (l : list string) : W unit :=
  fun w => (Done tt, {| base := base w; names := l |}).

Declare Scope logs_scope.
Delimit Scope logs_scope with logs.
Notation "'let+' x ':=' m 'in' k" := (and_then m (fun x => k))
  (at level 10, x name, m at level 100, k at level 200, only parsing) : logs_scope.
Notation "'do+' m 'in' k" := (and_then m (fun _ => k))
  (at level 10, m at level 100, k at level 200, only parsing) : logs_scope.
Local Open Scope logs_scope.

Fixpoint each {A} (l : list A) (body : A -> W unit) : W unit :=
  match l with
  | [] => unit_ tt
  | x :: l' => do+ body x in each l' body
  end.

(** [self.log_dir] and [self.log_file] *)
Definition log_dir (d : Disk.t) : string := os_path.join (Disk.path d) "logs".
Definition log_file (self : t) (d : Disk.t) : string :=
  os_path.join (log_dir d) (timestamp self +:+ ".log").

(** [[0-9-]] on a character *)
Definition ts_code (c : N) : bool :=
  ((48 <=? c) && (c <=? 57) || (c =? 45))%N.

(** A subject read backwards from the position of [$]: [log], one
    character that is no line feed, and seventeen characters of
    [[0-9-]].  The result is these seventeen, in reading order, and what
    precedes them, backwards. *)
Definition log_suffix (r : list N) : option (list N * list N) :=
  match r with
  | g :: o :: l :: c :: r1 =>
      if ((g =? 103) && (o =? 111) && (l =? 108) && negb (c =? 10))%N then
        let t := firstn 17 r1 in
        if (length t =? 17) && forallb ts_code t
        then Some (rev t, skipn 17 r1) else None
      else None
  | _ => None
  end.

(** [$] matches at the end of the subject and also just before a final
    line feed. *)
Definition at_dollar {A} (f : list N -> option A) (subject : string) : option A :=
  let r := rev (Text.chars subject) in
  match f r with
  | Some x => Some x
  | None =>
      match r with
      | c :: r' => if (c =? 10)%N then f r' else None
      | [] => None
      end
  end.

(** [re.compile(r'^[0-9-]{17}.log$').match(name)] *)
Definition is_log_name (name : string) : bool :=
  match at_dollar (fun r => match log_suffix r with
                            | Some (t, []) => Some t
                            | _ => None
                            end) name with
  | Some _ => true
  | None => false
  end.

(** [re.search(r'([0-9-]{17}).log$', log_file)]: group 1 of the match *)
Definition log_stamp (log_file : string) : option string :=
  match at_dollar (fun r => match log_suffix r with
                            | Some (t, _) => Some t
                            | None => None
                            end) log_file with
  | Some t => Some (Bytes.of_list (map (fun c => ascii_of_nat (N.to_nat c)) t))
  | None => None
  end.

(** [_get_logs()], run to its end *)
Definition _get_logs : W (list string) :=
  let+ d := on_base get_disk in
  let+ entries := get_names in
  unit_ (map (os_path.join (log_dir d)) (List.filter is_log_name entries)).

(** [_get_log_file_datetime(log_file)] *)
Definition _get_log_file_datetime (log_file : string) : result (option datetime.t) :=
  match log_stamp log_file with
  | Some timestamp =>
      match strptime.stamp timestamp with
      | Ok t => Ok (Some t)
      | Raise e => Raise e
      end
  | None => Ok None
  end.

(** [old_logs.sort(reverse=True)]: descending, equal paths in the
    order of the input. *)
Fixpoint insert_log (x : string) (l : list string) : list string :=
  match l with
  | [] => [x]
  | y :: l' => if Text.ltb x y then y :: insert_log x l' else x :: l
  end.

Definition sorted_logs (l : list string) : list string := foldr insert_log [] l.

(** [os.unlink(path)] for a file of the log directory *)
Definition unlink (path : string) : W unit :=
  let+ d := on_base get_disk in
  let+ entries := get_names in
  put_names (List.filter
               (fun n => negb (String.eqb (os_path.join (log_dir d) n) path))
               entries).

(** One round of the loop of [_remove_old_logs], for the path
    [old_log]. *)
Definition remove_old_log (self : t) (retention : Z) (old_log : string) : W unit :=
  let+ d := on_base get_disk in
  if String.eqb old_log (log_file self d) then unit_ tt
  else
    match _get_log_file_datetime old_log with
    | Raise e => fail (Std e)
    | Ok None => fail TypeError
    | Ok (Some log_datetime) =>
        let+ now := on_base get_clock in
        if (retention <? calendar.days_between now log_datetime)%Z then
          if test self then
            on_base (logger_info "Removing %s (DRY RUN)" [Str old_log])
          else
            do+ on_base (logger_info "Removing %s" [Str old_log]) in
            unlink old_log
        else unit_ tt
    end.

(** [_remove_old_logs()]; [retention] is the option [logs] of the
    section [retention] as the configuration files give it. *)
Definition _remove_old_logs (self : t) (retention : Z) : W unit :=
  if (retention <? 1)%Z then unit_ tt
  else
    do+ on_base (logger_info "Removing backup logs older than %d days..."
                   [Int retention]) in
    let+ old_logs := _get_logs in
    let old_logs := sorted_logs old_logs in
    each old_logs (remove_old_log self retention).

End Logs.
(** ** Sample values *)

Module Examples.

Definition dir (n : string) (t : option (list (string * string)))
    (gz md5 : option string) : Disk.entry :=
  {| Disk.name := n; Disk.tree := t; Disk.checksums_gz := gz;
     Disk.checksums_md5 := md5; Disk.inside := [] |}.

Definition root (l : list Disk.entry) : Disk.t :=
  {| Disk.path := "/srv/h"; Disk.top := []; Disk.backups := l;
     Disk.last_verification := None; Disk.rules := true |}.

(** 3 January 2024, 04:05:06 *)
Definition now : datetime.t :=
  {| datetime.year := 2024; datetime.month := 1; datetime.day := 3;
     datetime.hour := 4; datetime.minute := 5; datetime.second := 6 |}.

Definition quiet : process :=
  {| stdout := []; returncode := 0%Z; received := [] |}.

Definition state_of (d : Disk.t) (p : process) : state :=
  {| disk := d; clock := now; transfer := fun _ _ => p; migrated := true;
     status := ""; error := true; log := []; hashed := [] |}.

Definition only_incomplete : Disk.t :=
  root [dir "incomplete_2024-01-02-000000" (Some []) None None].

(** The catalog of the specification's example for [latest()]. *)
Definition three : Disk.t :=
  root [dir "daily_2024-01-01-000000" (Some []) None None;
        dir "monthly_2024-01-01-000000" (Some []) None None;
        dir "incomplete_2024-01-02-000000" (Some []) None None].

Definition snapshot (n : string) : Backup.t :=
  match Backup.new (os_path.join "/srv/h/backups" n) with
  | Ok b => b
  | Raise _ =>
      {| Backup.path := ""; Backup.name := ""; Backup.timestamp := "";
         Backup.interval := ""; Backup.backup_dir := "";
         Backup._checksum_file := "" |}
  end.

Definition config (dry : bool) (daily monthly yearly : Z) : RsyncBackup.t :=
  {| RsyncBackup.test := dry; RsyncBackup.current_datetime := now; RsyncBackup.label := "h";
     RsyncBackup.rules := "/etc/rsync-backup/conf.d/h.rules";
     RsyncBackup.retention_daily := daily; RsyncBackup.retention_monthly := monthly;
     RsyncBackup.retention_yearly := yearly;
     RsyncBackup.rsync_pathname := "rsync"; RsyncBackup.rsync_additional_options := [];
     RsyncBackup.rsync_mode := "local"; RsyncBackup.rsync_ssh_user := ""; RsyncBackup.rsync_source_host := "";
     RsyncBackup.rsync_source_dir := "/data/"; RsyncBackup.rsync_ssh_key := "" |}.

Definition two_labels : Disk.t :=
  root
    [dir "daily_2024-01-03-010000" (Some []) None None;
     dir "monthly_2024-01-01-000000" (Some []) None None].

Definition stale_custom : Disk.t :=
  root
    [dir "daily_2024-01-03-010000" (Some []) None None;
     dir "custom_2024-01-01-120000" (Some []) None None].

Definition resumable : Disk.t :=
  root
    [dir "daily_2024-01-01-000000" (Some [("a.txt", "h1")]) None None;
     dir "incomplete_2024-01-02-000000" (Some [("c.txt", "h3")]) None None].

(** One daily snapshot: [a.txt] is as recorded, [b.txt] is not. *)
Definition tampered : Disk.t :=
  root
    [dir "daily_2024-01-02-000000"
       (Some [("a.txt", "0cc175b9c0f1b6a831c399e269772661");
              ("b.txt", "92eb5ffee6ae2fec3ad71c777531578f")])
       (Some ("0cc175b9c0f1b6a831c399e269772661  a.txt" +:+ Bytes.nl
              +:+ "4a8a08f09d37b73795649038408b5f33  b.txt" +:+ Bytes.nl))
       None].

(** One daily snapshot whose record lists [gone.txt], which is not
    there, before [b.txt], which is not as recorded. *)
Definition missing_file : Disk.t :=
  root
    [dir "daily_2024-01-02-000000"
       (Some [("b.txt", "92eb5ffee6ae2fec3ad71c777531578f")])
       (Some ("0cc175b9c0f1b6a831c399e269772661  gone.txt" +:+ Bytes.nl
              +:+ "4a8a08f09d37b73795649038408b5f33  b.txt" +:+ Bytes.nl))
       None].

(** A transfer that breaks off with exit code 23. *)
Definition failing : process :=
  {| stdout := [">f+++++++++ 92eb5ffee6ae2fec3ad71c777531578f b.txt" +:+ Bytes.nl;
                "rsync error: some files could not be transferred (code 23)"
                +:+ Bytes.nl];
     returncode := 23%Z;
     received := [("b.txt", "92eb5ffee6ae2fec3ad71c777531578f")] |}.

(** The specification's example: the prior snapshot lists [a.txt], the
    transfer has just brought [b.txt], both files are present. *)
Definition reconciling : Disk.t :=
  root
    [dir "daily_2024-01-02-000000"
       (Some [("a.txt", "0cc175b9c0f1b6a831c399e269772661")])
       (Some ("0cc175b9c0f1b6a831c399e269772661  a.txt" +:+ Bytes.nl)) None;
     dir "incomplete_2024-01-03-040506"
       (Some [("a.txt", "0cc175b9c0f1b6a831c399e269772661");
              ("b.txt", "92eb5ffee6ae2fec3ad71c777531578f")]) None None].

(** A file whose name ends in a space has been transferred. *)
Definition trailing_space : Disk.t :=
  root
    [dir "daily_2024-01-02-000000" (Some []) (Some "") None;
     dir "incomplete_2024-01-03-040506"
       (Some [("b.txt ", "92eb5ffee6ae2fec3ad71c777531578f")]) None None].

End Examples.


(** ** More sample values *)

Module Fixtures.

(** A root of the old layout: two snapshots lie directly in it, beside
    the directory of the logs. *)
Definition old_layout : Disk.t :=
  {| Disk.path := "/srv/h";
     Disk.top := [Examples.dir "daily_2023-12-31-000000" (Some []) None None;
                  Examples.dir "logs" None None None;
                  Examples.dir "monthly_2023-12-01-000000" (Some []) None None];
     Disk.backups := [Examples.dir "daily_2024-01-01-000000" (Some []) None None];
     Disk.last_verification := None; Disk.rules := true |}.

(** A run that has not listed the catalog yet. *)
Definition fresh_run (d : Disk.t) : state :=
  {| disk := d; clock := Examples.now; transfer := fun _ _ => Examples.quiet;
     migrated := false; status := ""; error := true; log := []; hashed := [] |}.

(** The catalog [two_labels] of a configuration whose rules file is
    missing. *)
Definition no_rules : Disk.t :=
  {| Disk.path := "/srv/h"; Disk.top := [];
     Disk.backups := Disk.backups Examples.two_labels;
     Disk.last_verification := None; Disk.rules := false |}.

(** The root of [two_labels] with a log directory that lists [names]. *)
Definition log_world (names : list string) : Logs.world :=
  {| Logs.base := Examples.state_of Examples.two_labels Examples.quiet;
     Logs.names := names |}.

End Fixtures.
(** * Properties *)

Import RsyncBackup.

(** ** Vocabulary *)

(** [b] is at least as recent as [c]. *)
Definition newer_or_same (b c : Backup.t) : Prop :=
  String.leb (Backup.timestamp c) (Backup.timestamp b) = true.

(** A snapshot with a label other than [incomplete]. *)
Definition complete (b : Backup.t) : bool :=
  negb (String.eqb (Backup.interval b) "incomplete").

(** The first snapshot with a label other than [incomplete] in the
    order [sorted_desc] produces, computed along the listing. *)
Fixpoint best (l : list Backup.t) : option Backup.t :=
  match l with
  | [] => None
  | x :: l' =>
      if complete x then
        match best l' with
        | Some b => if String.ltb (Backup.timestamp x) (Backup.timestamp b) then Some b else Some x
        | None => Some x
        end
      else best l'
  end.

(** The snapshots of [l] with label [i]. *)
Definition labelled (i : string) (l : list Backup.t) : list Backup.t :=
  List.filter (fun b => String.eqb (Backup.interval b) i) l.

(** The pattern a custom snapshot of the current day matches. *)
Definition today_custom (self : t) : string :=
  "custom_" +:+ datetime.Ymd (current_datetime self) +:+ "-*".

(** What [scan] returns once the migration is done. *)
Definition listing (d : Disk.t) : list string :=
  map (fun e => os_path.join (Disk.backups_dir d) (Disk.name e))
      (List.filter (fun e => re.is_snapshot_name (Disk.name e)) (Disk.backups d)).

Definition no_sep (x : string) : Prop :=
  forallb (fun c => negb (Ascii.eqb c os_path.sep)) (Bytes.to_list x) = true.

(** A directory whose name parses with label [L]. *)
Definition labelled_dir (L : string) (e : Disk.entry) : Prop :=
  exists ts, Backup._parse_name (Disk.name e) = Ok (ts, L).

(** A directory with the name of [e'] was there in [s0]: below
    [backups], or, where the migration had yet to run, in the root. *)
Definition came_from (s0 : state) (e' : Disk.entry) : Prop :=
  exists e, Disk.name e = Disk.name e'
            /\ (In e (Disk.backups (disk s0))
                \/ (migrated s0 = false /\ In e (Disk.top (disk s0)))).

(** Every directory of [s] that carries label [L] was in [s0] already;
    the root of [s] holds nothing that the root of [s0] did not hold,
    and a migration done in [s0] is done in [s]. *)
Definition nothing_new (L : string) (s0 s : state) : Prop :=
  (migrated s0 = true -> migrated s = true)
  /\ (forall x, In x (Disk.top (disk s)) -> In x (Disk.top (disk s0)))
  /\ forall e', In e' (Disk.backups (disk s)) -> labelled_dir L e' -> came_from s0 e'.

(** The labels with a retention count. *)
Definition periodic (i : string) : Prop := i = "daily" \/ i = "monthly" \/ i = "yearly".

(** [retentionCount] of a label: the count configured for it, if any. *)
Definition retention_count (self : t) (L : string) : option Z :=
  match List.find (fun kv => String.eqb (fst kv) L) (intervals self) with
  | Some (_, v) => retention v
  | None => None
  end.

(** A checksum as a line carries it: not empty, no white space. *)
Definition token (c : string) : Prop :=
  c <> "" /\ forallb (fun a => negb (Bytes.isspace a)) (Bytes.to_list c) = true.

(** A path as a line carries it: not empty, no white space at either end. *)
Definition trimmed (p : string) : Prop :=
  p <> "" /\ Bytes.lstrip p = p /\ Bytes.rstrip p = p.

(** The text the setter of [checksums] writes. *)
Definition written (cs : list (string * string)) : string :=
  String.concat "" (map Backup.write_line cs).

(** The same object with another dry-run flag. *)
Definition with_test (self : t) (dry : bool) : t :=
  {| test := dry; current_datetime := current_datetime self;
     label := label self; rules := rules self;
     retention_daily := retention_daily self;
     retention_monthly := retention_monthly self;
     retention_yearly := retention_yearly self;
     rsync_pathname := rsync_pathname self;
     rsync_additional_options := rsync_additional_options self;
     rsync_mode := rsync_mode self; rsync_ssh_user := rsync_ssh_user self;
     rsync_source_host := rsync_source_host self;
     rsync_source_dir := rsync_source_dir self;
     rsync_ssh_key := rsync_ssh_key self |}.

(** The text of the marker file of the last verification. *)
Definition marker (s : state) : option string :=
  Disk.last_verification (disk s).

(** [s'] has the marker, the clock and the root path of [s]. *)
Definition frame (s s' : state) : Prop :=
  marker s' = marker s /\ clock s' = clock s
  /\ Disk.path (disk s') = Disk.path (disk s).

(** A computation that leaves marker, clock and root path alone. *)
Definition keeps {A} (m : M A) : Prop := forall s, frame s (snd (m s)).

(** The snapshot [verify(backup_name)] works on. *)
Definition selected (backup_name : string) : M (option Backup.t) :=
  if String.eqb backup_name "_current_" then _get_latest_backup
  else _get_backup_by_name backup_name.

(** The path [verify] hashes for a listed file. *)
Definition checked_path (backup : Backup.t) (filename : string) : string :=
  os_path.normpath (os_path.join (Backup.backup_dir backup) filename).

(** The digest of the file as it is on disk now. *)
Definition live (d : Disk.t) (backup : Backup.t) (filename : string) : option string :=
  Disk.file_md5 d (checked_path backup filename).

(** A listed entry whose file no longer has the stored checksum. *)
Definition mismatch (d : Disk.t) (backup : Backup.t) (entry : string * string) : bool :=
  match live d backup (fst entry) with
  | Some current => negb (String.eqb current (snd entry))
  | None => true
  end.

(** The record logged for a mismatch: path, present and stored checksum. *)
Definition failed_record (d : Disk.t) (backup : Backup.t) (entry : string * string)
  : LogRecord :=
  {| levelname := "ERROR"; msg := "[FAILED] %s [%s => %s]";
     args := [Str (checked_path backup (fst entry));
              Str (match live d backup (fst entry) with Some c => c | None => "" end);
              Str (snd entry)] |}.

(** The statistics [_display_verification_stats] logs. *)
Definition stats_records (checked verified failed : nat) : list LogRecord :=
  [ {| levelname := "INFO"; msg := ""; args := [] |};
    {| levelname := "INFO";
       msg := "Files checked             : " +:+ datetime.decimal checked;
       args := [] |};
    {| levelname := "INFO";
       msg := "Successful verifications  : " +:+ datetime.decimal verified;
       args := [] |};
    {| levelname := "INFO";
       msg := "Failed verifications      : " +:+ datetime.decimal failed;
       args := [] |};
    {| levelname := "INFO"; msg := ""; args := [] |} ].

(** What a listed entry needs for the loop to get past it: the file can
    be read, and when it differs, path and checksums can be decoded for
    the log. *)
Definition checkable (d : Disk.t) (backup : Backup.t) (entry : string * string) : Prop :=
  exists current,
    live d backup (fst entry) = Some current
    /\ (current <> snd entry ->
        Bytes.decodable (checked_path backup (fst entry)) = true
        /\ Bytes.decodable current = true
        /\ Bytes.decodable (snd entry) = true).

Definition after_loop (s : state) (d : Disk.t) (backup : Backup.t)
    (entries : list (string * string)) : state :=
  {| disk := disk s; clock := clock s; transfer := transfer s;
     migrated := migrated s; status := status s; error := error s;
     log := log s ++ map (failed_record d backup) (List.filter (mismatch d backup) entries);
     hashed := hashed s ++ map (fun e => checked_path backup (fst e)) entries |}.

(** The records [verify] logs before and after its loop. *)
Definition opening_records (backup : Backup.t) (checksum_file : string)
  : list LogRecord :=
  [ {| levelname := "INFO"; msg := "Initializing checksum verification for %s";
       args := [Str (Backup.path backup)] |};
    {| levelname := "INFO"; msg := "Selected checksum file: %s";
       args := [Str checksum_file] |};
    {| levelname := "INFO"; msg := "Starting backup verification...";
       args := [] |} ].

Definition closing_records (self : t) (backup_name : string) (d : Disk.t)
    (failed : nat) : list LogRecord :=
  (if failed =? 0
   then [ {| levelname := "INFO";
             msg := "Backup verification completed successfully!";
             args := [] |} ]
   else [ {| levelname := "ERROR"; msg := "Backup verification failed!";
             args := [] |} ])
  ++ (if String.eqb backup_name "_current_"
      then [ {| levelname := "INFO";
                msg := if test self then "Updating timestamp in %s (DRY RUN)"
                       else "Updating timestamp in %s";
                args := [Str (last_verification_file d)] |} ]
      else []).

(** The pair an output line of the sync program stands for, if any: a
    line that starts with [>] carries a checksum and a path. *)
Definition event (line : string) : option (string * string) :=
  let line := Bytes.strip line in
  if Bytes.startswith line ">" then
    match Bytes.split " " 2 line with
    | [_; file_checksum; file_path] => Some (file_path, file_checksum)
    | _ => None
    end
  else None.

Definition events (lines : list string) : list (string * string) :=
  flat_map (fun line => match event line with Some p => [p] | None => [] end) lines.

(** An output line the reading loop gets past: it can be decoded, and
    if it starts with [>] it has its three fields. *)
Definition well_formed (line : string) : Prop :=
  Bytes.decodable (Bytes.strip line) = true
  /\ (Bytes.startswith (Bytes.strip line) ">" = true -> event line <> None).

Definition echoed (line : string) : LogRecord :=
  {| levelname := "INFO"; msg := Bytes.strip line; args := [] |}.

(** The disk once the sync program has run. *)
Definition transferred (rsync_command : list string) (p : process) (d : Disk.t)
  : Disk.t :=
  if existsb (String.eqb "-n") rsync_command then d
  else Disk.with_backups d
         (Disk.update_path (Disk.backups_dir d) (Disk.backups d)
            (fst (os_path.split (List.last rsync_command "")))
            (fun e => Disk.with_tree e (Some (received p)))).

(** The state in which [backup()] calls [_configure_rsync]. *)
Definition started (s : state) : state :=
  snd (set_error true (snd (set_status "Backup failed!" s))).

(** The entries of a checksum list for one path. *)
Definition entries_for (f : string) (l : list (string * string))
  : list (string * string) :=
  List.filter (fun e => String.eqb (fst e) f) l.

(** Whether a path is in a list. *)
Definition mem (f : string) (l : list string) : bool := existsb (String.eqb f) l.

(** The checksum of the first entry for a path. *)
Definition lookup_first (f : string) (l : list (string * string)) : option string :=
  match List.find (fun e => String.eqb (fst e) f) l with
  | Some e => Some (snd e)
  | None => None
  end.

(** The checksum reconciliation settles on for a present file: the
    transfer's, else the prior snapshot's, else the digest of the file. *)
Definition chosen (d : Disk.t) (backup : Backup.t)
    (rsync_checksums prior : list (string * string)) (f : string) : string :=
  match lookup_first f rsync_checksums with
  | Some c => c
  | None =>
      match lookup_first f prior with
      | Some c => c
      | None =>
          match Disk.file_md5 d (os_path.join (Backup.backup_dir backup) f) with
          | Some c => c
          | None => ""
          end
      end
  end.

(** A timestamp as a snapshot name carries it: seventeen bytes among
    [0-9] and [-]. *)
Definition stamp_like (ts : string) : Prop :=
  String.length ts = 17 /\ forallb re.ts_char (Bytes.to_list ts) = true.

(** A label as a snapshot name carries it: not empty, no line feed. *)
Definition label_like (i : string) : Prop :=
  i <> "" /\ forallb re.dot (Bytes.to_list i) = true.

(** Whether a name has a path separator in it. *)
Definition has_sep (x : string) : bool :=
  existsb (fun c => Ascii.eqb c os_path.sep) (Bytes.to_list x).

(** A byte string without white space in it. *)
Definition spaceless (x : string) : bool :=
  forallb (fun c => negb (Bytes.isspace c)) (Bytes.to_list x).

(** A byte string without line feed in it. *)
Definition one_line (x : string) : Prop :=
  forallb (fun c => negb (Ascii.eqb c Bytes.LF)) (Bytes.to_list x) = true.

(** A byte string without the byte [sep] in it. *)
Definition free_of (sep : ascii) (x : string) : Prop :=
  forallb (fun c => negb (Ascii.eqb c sep)) (Bytes.to_list x) = true.

(** A pair the setter of [checksums] writes on a line that the getter
    reads back as it was. *)
Definition recordable (entry : string * string) : Prop :=
  trimmed (fst entry) /\ one_line (fst entry) /\ token (snd entry).

(** The record [_remove_old_backups] logs for a snapshot it takes. *)
Definition removing (self : t) (backup : Backup.t) : LogRecord :=
  {| levelname := "INFO";
     msg := if test self then "Removing %s (DRY RUN)" else "Removing %s";
     args := [Str (Backup.path backup)] |}.

(** The entries of [<root>/backups] that lie at none of the paths of
    [to_delete]. *)
Definition spared (d : Disk.t) (to_delete : list Backup.t) : list Disk.entry :=
  List.filter
    (fun e => negb (existsb (fun b => String.eqb
                                        (os_path.join (Disk.backups_dir d) (Disk.name e))
                                        (Backup.path b)) to_delete))
    (Disk.backups d).

(** [m], run from a state in which [P] holds, ends in a state in which
    [Q a] holds when it returns [a], and in a state in which [E] holds
    when it raises. *)
Definition triple {A} (P : state -> Prop) (m : M A)
    (Q : A -> state -> Prop) (E : state -> Prop) : Prop :=
  forall s, P s ->
    match m s with
    | (Ok a, s') => Q a s'
    | (Raise _, s') => E s'
    end.

(** [m] keeps [P], whether it returns or raises. *)
Definition maintains {A} (P : state -> Prop) (m : M A) : Prop :=
  triple P m (fun _ => P) P.

(** The attributes [status] and [error] have these values. *)
Definition flagged (st : string) (e : bool) (s : state) : Prop :=
  status s = st /\ error s = e.

(** The disk is [d] and the migration is done. *)
Definition still (d : Disk.t) (s : state) : Prop :=
  disk s = d /\ migrated s = true.

(** A time the clock of a run can show: a date [datetime] accepts, of
    a year with four digits. *)
Definition clock_time (d : datetime.t) : Prop :=
  calendar.valid d = true /\ 1000 <= datetime.year d.

(** The decimal numeral [r] with the digit [k] put before it. *)
Definition dig (k : nat) (r : Decimal.uint) : Decimal.uint :=
  match k with
  | 0 => Decimal.D0 r | 1 => Decimal.D1 r | 2 => Decimal.D2 r | 3 => Decimal.D3 r
  | 4 => Decimal.D4 r | 5 => Decimal.D5 r | 6 => Decimal.D6 r | 7 => Decimal.D7 r
  | 8 => Decimal.D8 r | _ => Decimal.D9 r
  end.

(** What [os.path.join] puts before a relative name. *)
Definition lead (dir : string) : string :=
  if String.eqb dir ""
     || Bytes.startswith (Bytes.of_list (rev (Bytes.to_list dir))) "/"
  then dir else dir +:+ "/".

(** The names of the entries of a directory: without separator, and no
    two alike. *)
Definition listed_names (l : list Disk.entry) : Prop :=
  Forall (fun e => no_sep (Disk.name e)) l /\ List.NoDup (map Disk.name l).

(** A directory of the old layout: its name is one the catalog's
    pattern accepts. *)
Definition old_style (e : Disk.entry) : bool := re.is_snapshot_name (Disk.name e).

(** The migration at work on the disk it found as [d0]: the entries
    of the root gone through so far ([done]) have left it when their
    name is one of a snapshot, the others ([todo]) are still there;
    below [backups] lie the directories that were there, under their
    names and in their order, and after them those that came from the
    root. *)
Definition migrating (d0 : Disk.t) (done todo : list Disk.entry) (s : state) : Prop :=
  Disk.path (disk s) = Disk.path d0
  /\ Disk.top (disk s) = List.filter (fun e => negb (old_style e)) done ++ todo
  /\ (forall y, In y (Disk.backups (disk s)) ->
        In (Disk.name y) (map Disk.name (Disk.backups d0))
        \/ (In y done /\ old_style y = true))
  /\ (forall x, In x done -> old_style x = true ->
        ~ In (Disk.name x) (map Disk.name (Disk.backups d0)) ->
        In x (Disk.backups (disk s)))
  /\ exists extra,
       map Disk.name (Disk.backups (disk s))
       = map Disk.name (Disk.backups d0) ++ extra.

(** Below [backups] lies a directory that carries label [L] and whose
    path the pattern of [L]'s running period matches. *)
Definition covered (L : string) (v : interval_settings) (d : Disk.t) : Prop :=
  exists e, In e (Disk.backups d) /\ labelled_dir L e
            /\ fnmatch.fnmatch (os_path.join (Disk.backups_dir d) (Disk.name e))
                 ("*_" +:+ pattern v) = true.

(** The catalog of a run at work on the interval snapshots: migrated,
    at the root of [d0], with names without separator below [backups],
    among them those of [d0]; and every interval gone through that is
    kept at least once is covered. *)
Definition duplicating (d0 : Disk.t)
    (done : list (string * interval_settings)) (s : state) : Prop :=
  migrated s = true
  /\ Disk.path (disk s) = Disk.path d0
  /\ Forall (fun e => no_sep (Disk.name e)) (Disk.backups (disk s))
  /\ forall L v n, In (L, v) done -> retention v = Some n -> (1 <= n)%Z ->
       covered L v (disk s).

(** A byte of ASCII. *)
Definition plain (c : ascii) : bool := Bytes.in_range 0 127 c.

(** The bytes of characters that are bytes. *)
Definition text_of (t : list N) : string :=
  Bytes.of_list (map (fun c => ascii_of_nat (N.to_nat c)) t).

(** A path whose stamp reads as a time more than [retention] days
    before [now]. *)
Definition out_of_date (retention : Z) (now : datetime.t) (path : string) : bool :=
  match Logs._get_log_file_datetime path with
  | Ok (Some t) => (retention <? calendar.days_between now t)%Z
  | _ => false
  end.

(** An entry of the log directory that is a log by its name, is not the
    log of the run, and is out of date by the clock of [w]. *)
Definition expired (self : t) (retention : Z) (w : Logs.world) (n : string) : bool :=
  let path := os_path.join (Logs.log_dir (disk (Logs.base w))) n in
  Logs.is_log_name n
  && negb (String.eqb path (Logs.log_file self (disk (Logs.base w))))
  && out_of_date retention (clock (Logs.base w)) path.

(** A pair that a line of a checksum file stands for: the checksum is
    not empty and has no white space in it, the path has no line feed in
    it and is not blank. *)
Definition legible (entry : string * string) : Prop :=
  token (snd entry) /\ one_line (fst entry) /\ Bytes.strip (fst entry) <> "".

(** A path less one leading [./]. *)
Definition undotted (p : string) : string :=
  if Bytes.startswith p "./" then Bytes.from 2 p else p.

(** ** Byte strings *)

Lemma to_list_app (a b : string) :
  Bytes.to_list (a +:+ b) = Bytes.to_list a ++ Bytes.to_list b.
Proof.
  induction a as [|c a IH]; simpl; [reflexivity|].
  unfold Bytes.to_list in *. simpl. now rewrite IH.
Qed.

Lemma to_list_length (a : string) : length (Bytes.to_list a) = String.length a.
Proof. induction a as [|c a IH]; simpl; [reflexivity|]. unfold Bytes.to_list in *. simpl. now rewrite IH. Qed.

Lemma of_to_list (a : string) : Bytes.of_list (Bytes.to_list a) = a.
Proof. apply string_of_list_ascii_of_string. Qed.

Lemma to_of_list (l : list ascii) : Bytes.to_list (Bytes.of_list l) = l.
Proof. apply list_ascii_of_string_of_list_ascii. Qed.

Lemma ts_char_not_LF c : re.ts_char c = true -> Ascii.eqb c Bytes.LF = false.
Proof.
  intros H. destruct (Ascii.eqb_spec c Bytes.LF) as [->|]; [|reflexivity].
  vm_compute in H. discriminate.
Qed.

Lemma forallb_rev {A} (f : A -> bool) l : forallb f (rev l) = forallb f l.
Proof.
  induction l as [|x l IH]; simpl; [reflexivity|].
  rewrite forallb_app, IH. simpl. rewrite andb_true_r. apply andb_comm.
Qed.

Lemma forallb_to_list_app f a b :
  forallb f (Bytes.to_list (a +:+ b))
  = forallb f (Bytes.to_list a) && forallb f (Bytes.to_list b).
Proof. now rewrite to_list_app, forallb_app. Qed.

Lemma string_of_uint_digits u :
  forallb re.ts_char (Bytes.to_list (NilEmpty.string_of_uint u)) = true.
Proof. induction u; simpl; auto. Qed.

Lemma two_digits n : forallb re.ts_char (Bytes.to_list (datetime.two n)) = true.
Proof.
  unfold datetime.two, datetime.decimal. destruct (n <? 10).
  - rewrite forallb_to_list_app, string_of_uint_digits. reflexivity.
  - apply string_of_uint_digits.
Qed.

Lemma stamp_chars d : forallb re.ts_char (Bytes.to_list (datetime.stamp d)) = true.
Proof.
  unfold datetime.stamp, datetime.Ymd, datetime.Ym, datetime.Y, datetime.decimal.
  rewrite !forallb_to_list_app, !two_digits, !string_of_uint_digits. reflexivity.
Qed.

(** ** The order on timestamps *)

Lemma ascii_compare_lt_trans a b c :
  Ascii.compare a b = Lt -> Ascii.compare b c = Lt -> Ascii.compare a c = Lt.
Proof.
  unfold Ascii.compare. rewrite !N.compare_lt_iff. lia.
Qed.

Lemma string_compare_refl s : String.compare s s = Eq.
Proof.
  induction s as [|c s IH]; simpl; [reflexivity|].
  unfold Ascii.compare. now rewrite N.compare_refl.
Qed.

Lemma string_compare_lt_trans s1 : forall s2 s3,
  String.compare s1 s2 = Lt -> String.compare s2 s3 = Lt -> String.compare s1 s3 = Lt.
Proof.
  induction s1 as [|a s1 IH]; intros [|b s2] [|c s3]; simpl; try congruence.
  destruct (Ascii.compare a b) eqn:Eab; try discriminate;
  destruct (Ascii.compare b c) eqn:Ebc; try discriminate; intros H1 H2.
  - apply Ascii.compare_eq_iff in Eab, Ebc. subst.
    unfold Ascii.compare. rewrite N.compare_refl. eauto.
  - apply Ascii.compare_eq_iff in Eab. subst. now rewrite Ebc.
  - apply Ascii.compare_eq_iff in Ebc. subst. now rewrite Eab.
  - now rewrite (ascii_compare_lt_trans _ _ _ Eab Ebc).
Qed.

Lemma ltb_false_leb a b : String.ltb a b = false -> String.leb b a = true.
Proof.
  unfold String.ltb, String.leb. rewrite (String.compare_antisym b a).
  destruct (String.compare a b); simpl; congruence.
Qed.

Lemma ltb_leb a b : String.ltb a b = true -> String.leb a b = true.
Proof. unfold String.ltb, String.leb. destruct (String.compare a b); congruence. Qed.

Lemma leb_refl a : String.leb a a = true.
Proof. unfold String.leb. now rewrite string_compare_refl. Qed.

Lemma leb_trans a b c :
  String.leb a b = true -> String.leb b c = true -> String.leb a c = true.
Proof.
  unfold String.leb.
  destruct (String.compare a b) eqn:E1; try discriminate;
  destruct (String.compare b c) eqn:E2; try discriminate; intros _ _.
  - apply String.compare_eq_iff in E1, E2. subst. now rewrite string_compare_refl.
  - apply String.compare_eq_iff in E1. subst. now rewrite E2.
  - apply String.compare_eq_iff in E2. subst. now rewrite E1.
  - now rewrite (string_compare_lt_trans _ _ _ E1 E2).
Qed.

Lemma leb_ltb_false a b : String.leb b a = true -> String.ltb a b = false.
Proof.
  unfold String.ltb, String.leb. rewrite (String.compare_antisym a b).
  destruct (String.compare b a); simpl; congruence.
Qed.

(** ** Snapshot names and paths *)

Lemma before_end_form ok (label ts : string) :
  String.length ts = 17 ->
  forallb re.ts_char (Bytes.to_list ts) = true ->
  re.before_end ok (rev (Bytes.to_list (label +:+ "_" +:+ ts)))
  = if ok (Bytes.to_list label) then Some (label, ts) else None.
Proof.
  intros Hlen Hts.
  rewrite !to_list_app, !rev_app_distr. simpl.
  rewrite <- app_assoc. simpl.
  unfold re.before_end.
  assert (Hl : length (rev (Bytes.to_list ts)) = 17)
    by now rewrite length_rev, to_list_length.
  rewrite take_app_length' by (symmetry; exact Hl).
  rewrite drop_app_length' by (symmetry; exact Hl).
  rewrite Hl, forallb_rev, Hts. simpl.
  rewrite !rev_involutive, !of_to_list. reflexivity.
Qed.

Lemma before_end_sound ok r i t :
  re.before_end ok r = Some (i, t) ->
  r = rev (Bytes.to_list t) ++ "_"%char :: rev (Bytes.to_list i).
Proof.
  unfold re.before_end. destruct (drop 17 r) as [|u p] eqn:E; [discriminate|].
  destruct (_ && _) eqn:Hc; [|discriminate].
  intros [= <- <-]. rewrite !to_of_list, !rev_involutive.
  apply andb_true_iff in Hc as [Hc _]. apply andb_true_iff in Hc as [_ Hu].
  apply Ascii.eqb_eq in Hu. subst u. rewrite <- E. symmetry. apply take_drop.
Qed.

Lemma snapshot_name_sound name i t :
  re.snapshot_name name = Some (i, t) ->
  exists tail, Bytes.to_list name = Bytes.to_list i ++ "_"%char :: Bytes.to_list t ++ tail.
Proof.
  unfold re.snapshot_name, re.anchored.
  destruct (re.before_end re.some_dots (rev (Bytes.to_list name))) as [[i' t']|] eqn:E.
  - intros [= <- <-]. apply before_end_sound in E. exists [].
    apply (f_equal (@rev _)) in E. rewrite rev_involutive in E. rewrite E.
    rewrite rev_app_distr. simpl. rewrite !rev_involutive, <- app_assoc, app_nil_r.
    reflexivity.
  - destruct (rev (Bytes.to_list name)) as [|c r'] eqn:Er; [discriminate|].
    destruct (Ascii.eqb c Bytes.LF); [|discriminate].
    intros H. apply before_end_sound in H. exists [c].
    apply (f_equal (@rev _)) in Er. rewrite rev_involutive in Er. rewrite Er.
    simpl. rewrite H, rev_app_distr. simpl.
    rewrite !rev_involutive, <- !app_assoc. reflexivity.
Qed.

Lemma rtail_app r1 r2 :
  forallb (fun c => negb (Ascii.eqb c os_path.sep)) r1 = true ->
  os_path.rtail (r1 ++ os_path.sep :: r2) = r1.
Proof.
  induction r1 as [|c r1 IH]; simpl; intros H.
  - reflexivity.
  - apply andb_true_iff in H as [Hc H]. apply negb_true_iff in Hc.
    rewrite Hc, IH; auto.
Qed.

Lemma rtail_id r1 :
  forallb (fun c => negb (Ascii.eqb c os_path.sep)) r1 = true ->
  os_path.rtail r1 = r1.
Proof.
  induction r1 as [|c r1 IH]; simpl; intros H; [reflexivity|].
  apply andb_true_iff in H as [Hc H]. apply negb_true_iff in Hc.
  rewrite Hc, IH; auto.
Qed.

Lemma startswith_sep l :
  Bytes.startswith (Bytes.of_list l) "/" = true -> exists l', l = os_path.sep :: l'.
Proof.
  unfold Bytes.startswith, Bytes.of_list.
  destruct l as [|c l]; [discriminate|]. cbn -[ascii_dec].
  destruct (ascii_dec "/" c) as [<-|]; [eauto|discriminate].
Qed.

Lemma basename_join dir x :
  no_sep x -> os_path.basename (os_path.join dir x) = x.
Proof.
  intros Hx. unfold no_sep in Hx.
  assert (Hr : forallb (fun c => negb (Ascii.eqb c os_path.sep)) (rev (Bytes.to_list x)) = true)
    by now rewrite forallb_rev.
  unfold os_path.join.
  destruct (Bytes.startswith x "/") eqn:E1.
  { destruct (startswith_sep (Bytes.to_list x)) as [l' El];
      [now rewrite of_to_list|].
    rewrite El in Hx. simpl in Hx. discriminate. }
  unfold os_path.basename.
  destruct (String.eqb dir "") eqn:E2; simpl orb.
  { apply String.eqb_eq in E2. subst. simpl.
    now rewrite rtail_id, rev_involutive, of_to_list. }
  destruct (Bytes.startswith (Bytes.of_list (rev (Bytes.to_list dir))) "/") eqn:E3.
  - apply startswith_sep in E3 as [l' El].
    rewrite to_list_app, rev_app_distr, El, rtail_app by exact Hr.
    now rewrite rev_involutive, of_to_list.
  - rewrite !to_list_app, !rev_app_distr. simpl. rewrite <- app_assoc. simpl.
    rewrite rtail_app by exact Hr. now rewrite rev_involutive, of_to_list.
Qed.

Lemma ts_char_no_sep l :
  forallb re.ts_char l = true ->
  forallb (fun c => negb (Ascii.eqb c os_path.sep)) l = true.
Proof.
  induction l as [|c l IH]; simpl; [reflexivity|].
  intros H. apply andb_true_iff in H as [Hc H]. rewrite IH by exact H.
  rewrite andb_true_r. destruct (Ascii.eqb_spec c os_path.sep) as [->|]; [|reflexivity].
  vm_compute in Hc. discriminate.
Qed.

(** C8.  A name of the form [<label>_<timestamp>], with a timestamp of
    seventeen bytes among [0-9] and [-], that the catalog's pattern
    accepts, is parsed into that very timestamp and label; putting the
    label, an underscore and the timestamp together again gives the
    name back. *)
Theorem parse_name_roundtrip (name label ts : string) :
  name = label +:+ "_" +:+ ts ->
  String.length ts = 17 ->
  forallb re.ts_char (Bytes.to_list ts) = true ->
  re.is_snapshot_name name = true ->
  exists timestamp interval,
    Backup._parse_name name = Ok (timestamp, interval)
    /\ timestamp = ts /\ interval = label
    /\ interval +:+ "_" +:+ timestamp = name.
Proof.
  intros -> Hlen Hts Hvalid.
  exists ts, label.
  unfold Backup._parse_name. unfold re.is_snapshot_name in Hvalid.
  unfold re.snapshot_name, re.anchored in *.
  rewrite before_end_form in * by assumption.
  destruct (re.some_dots (Bytes.to_list label)) eqn:Hd; [auto|].
  exfalso.
  rewrite !to_list_app, !rev_app_distr in Hvalid. simpl in Hvalid.
  destruct ts as [|c ts]; [discriminate|].
  assert (Hc : exists x r, rev (Bytes.to_list (String c ts)) = x :: r /\ re.ts_char x = true).
  { destruct (rev (Bytes.to_list (String c ts))) as [|x r] eqn:E.
    - apply (f_equal (@length _)) in E. rewrite length_rev, to_list_length in E. simpl in E. discriminate.
    - exists x, r. split; [reflexivity|].
      rewrite <- forallb_rev, E in Hts. simpl in Hts. now apply andb_true_iff in Hts. }
  destruct Hc as (x & r & E & Hx). rewrite E in Hvalid. simpl in Hvalid.
  rewrite (ts_char_not_LF _ Hx) in Hvalid. discriminate.
Qed.

Lemma parse_name_roundtrip_witness :
  exists timestamp interval,
    Backup._parse_name "daily_2024-01-01-000000" = Ok (timestamp, interval)
    /\ timestamp = "2024-01-01-000000" /\ interval = "daily"
    /\ interval +:+ "_" +:+ timestamp = "daily_2024-01-01-000000".
Proof.
  apply (parse_name_roundtrip "daily_2024-01-01-000000" "daily" "2024-01-01-000000");
    reflexivity.
Defined.

(** ** The latest snapshot *)

Lemma insert_desc_In b l x : In x (insert_desc b l) <-> x = b \/ In x l.
Proof.
  induction l as [|c l IH]; simpl; [intuition congruence|].
  destruct (String.ltb _ _); simpl; [rewrite IH|]; intuition congruence.
Qed.

Lemma sorted_desc_In l x : In x (sorted_desc l) <-> In x l.
Proof.
  induction l as [|b l IH]; simpl; [tauto|].
  rewrite insert_desc_In, IH. intuition congruence.
Qed.

Lemma insert_desc_sorted b l :
  StronglySorted newer_or_same l -> StronglySorted newer_or_same (insert_desc b l).
Proof.
  induction 1 as [|c l Hl IH Hc]; simpl.
  - constructor; [constructor|constructor].
  - destruct (String.ltb (Backup.timestamp b) (Backup.timestamp c)) eqn:E.
    + constructor; [exact IH|].
      apply List.Forall_forall. intros x Hx. apply insert_desc_In in Hx as [->|Hx].
      * now apply ltb_leb.
      * rewrite List.Forall_forall in Hc. now apply Hc.
    + constructor; [now constructor|].
      apply ltb_false_leb in E.
      constructor; [exact E|].
      apply List.Forall_forall. intros x Hx. rewrite List.Forall_forall in Hc.
      unfold newer_or_same in *. eapply leb_trans; [apply Hc, Hx|exact E].
Qed.

Lemma sorted_desc_sorted l : StronglySorted newer_or_same (sorted_desc l).
Proof.
  induction l as [|b l IH]; simpl; [constructor|]. now apply insert_desc_sorted.
Qed.

Lemma last_cons {A} (x : A) l d : List.last (x :: l) d = List.last l x.
Proof.
  revert x d. induction l as [|y l IH]; intros x d; [reflexivity|].
  change (List.last (y :: l) d = List.last (y :: l) x). now rewrite !IH.
Qed.

Lemma latest_loop_find l : forall acc,
  latest_loop acc l =
  match List.find complete l with
  | Some b => Some b
  | None => List.last (map Some l) acc
  end.
Proof.
  induction l as [|b l IH]; intros acc; simpl; [reflexivity|].
  unfold complete at 1. destruct (negb _); [reflexivity|].
  rewrite IH. destruct (List.find complete l); [reflexivity|].
  symmetry. apply last_cons.
Qed.

Lemma find_insert_desc x l :
  StronglySorted newer_or_same l ->
  List.find complete (insert_desc x l) =
  if complete x then
    match List.find complete l with
    | Some b => if String.ltb (Backup.timestamp x) (Backup.timestamp b) then Some b else Some x
    | None => Some x
    end
  else List.find complete l.
Proof.
  induction 1 as [|c l Hl IH Hc]; simpl.
  - destruct (complete x); reflexivity.
  - destruct (String.ltb (Backup.timestamp x) (Backup.timestamp c)) eqn:E; simpl.
    + destruct (complete c) eqn:Ec.
      * rewrite E. destruct (complete x); reflexivity.
      * exact IH.
    + destruct (complete x) eqn:Ex; [|reflexivity].
      destruct (complete c) eqn:Ec; [now rewrite E|].
      destruct (List.find complete l) as [b|] eqn:Ef; [|reflexivity].
      apply find_some in Ef as [Hb _].
      rewrite List.Forall_forall in Hc. specialize (Hc _ Hb).
      apply ltb_false_leb in E.
      rewrite leb_ltb_false; [reflexivity|].
      unfold newer_or_same in Hc. eapply leb_trans; eauto.
Qed.

Lemma find_sorted_desc l : List.find complete (sorted_desc l) = best l.
Proof.
  induction l as [|x l IH]; simpl; [reflexivity|].
  rewrite find_insert_desc by apply sorted_desc_sorted. now rewrite IH.
Qed.

Lemma best_complete l b : best l = Some b -> complete b = true.
Proof.
  revert b. induction l as [|x l IH]; simpl; intros b Hb; [discriminate|].
  destruct (complete x) eqn:Ex; [|auto].
  destruct (best l) as [b'|]; [destruct (String.ltb _ _)|]; injection Hb as <-; auto.
Qed.

Lemma best_none l : best l = None -> forall c, In c l -> complete c = false.
Proof.
  induction l as [|x l IH]; simpl; intros H c Hc; [destruct Hc|].
  destruct (complete x) eqn:Ex.
  - destruct (best l) as [b'|]; [destruct (String.ltb _ _)|]; discriminate.
  - destruct Hc as [<-|Hc]; auto.
Qed.

Lemma best_some l b :
  best l = Some b ->
  exists l1 l2, l = l1 ++ b :: l2
    /\ (forall c, In c l1 -> complete c = true ->
          String.ltb (Backup.timestamp c) (Backup.timestamp b) = true)
    /\ (forall c, In c l2 -> complete c = true ->
          String.leb (Backup.timestamp c) (Backup.timestamp b) = true).
Proof.
  revert b. induction l as [|x l IH]; simpl; intros b Hb; [discriminate|].
  destruct (complete x) eqn:Ex.
  - destruct (best l) as [b'|] eqn:Eb.
    + destruct (IH _ eq_refl) as (l1 & l2 & El & H1 & H2).
      destruct (String.ltb (Backup.timestamp x) (Backup.timestamp b')) eqn:E;
        injection Hb as <-.
      * exists (x :: l1), l2. split; [now rewrite El|]. split; [|exact H2].
        intros c [<-|Hc'] Hcc; auto.
      * exists [], l. split; [reflexivity|]. split; [intros c []|].
        intros c Hc Hcc. apply ltb_false_leb in E. rewrite El in Hc.
        apply in_app_or in Hc as [Hc|[<-|Hc]]; auto.
        -- eapply leb_trans; [apply ltb_leb, H1; auto|exact E].
        -- eapply leb_trans; [apply H2; auto|exact E].
    + injection Hb as <-. exists [], l. split; [reflexivity|]. split; [intros c []|].
      intros c Hc Hcc. rewrite (best_none _ Eb _ Hc) in Hcc. discriminate.
  - destruct (IH _ Hb) as (l1 & l2 & -> & H1 & H2).
    exists (x :: l1), l2. split; [reflexivity|]. split; [|exact H2].
    intros c [<-|Hc'] Hcc; [congruence|auto].
Qed.

Lemma last_sorted l acc b :
  StronglySorted newer_or_same l ->
  List.last (map Some l) acc = Some b -> l <> [] ->
  In b l /\ forall c, In c l -> String.leb (Backup.timestamp b) (Backup.timestamp c) = true.
Proof.
  induction 1 as [|c l Hl IH Hc]; intros Hlast Hne; [congruence|].
  destruct l as [|c' l].
  - simpl in Hlast. injection Hlast as <-. split; [now left|].
    intros x [<-|[]]. apply leb_refl.
  - assert (Hlast' : List.last (map Some (c' :: l)) acc = Some b) by exact Hlast.
    destruct (IH Hlast' ltac:(discriminate)) as [Hin Hmin].
    split; [now right|]. intros x [<-|Hx]; [|auto].
    rewrite List.Forall_forall in Hc. apply (Hc _ Hin).
Qed.

(** C3, as amended.  For the snapshots [listed] by [_get_backups()]:
    when one of them has a label other than [incomplete],
    [_get_latest_backup()] returns such a snapshot whose timestamp is
    greatest in string order, the first listed among equals; on an
    empty catalog it returns [None]; and when every snapshot is
    [incomplete] it returns one, of least timestamp. *)
Theorem get_latest_backup_spec (s s' : state) (listed : list Backup.t) :
  _get_backups s = (Ok listed, s') ->
  exists r, _get_latest_backup s = (Ok r, s')
    /\ ((exists c, In c listed /\ Backup.interval c <> "incomplete") ->
        exists b l1 l2, r = Some b /\ listed = l1 ++ b :: l2
          /\ Backup.interval b <> "incomplete"
          /\ (forall c, In c l1 -> Backup.interval c <> "incomplete" ->
                String.ltb (Backup.timestamp c) (Backup.timestamp b) = true)
          /\ (forall c, In c l2 -> Backup.interval c <> "incomplete" ->
                String.leb (Backup.timestamp c) (Backup.timestamp b) = true))
    /\ (listed = [] -> r = None)
    /\ (listed <> [] ->
        (forall c, In c listed -> Backup.interval c = "incomplete") ->
        exists b, r = Some b /\ In b listed
          /\ (forall c, In c listed ->
                String.leb (Backup.timestamp b) (Backup.timestamp c) = true)).
Proof.
  intros Hl. unfold _get_latest_backup, bind, ret. rewrite Hl.
  eexists. split; [reflexivity|].
  rewrite latest_loop_find, find_sorted_desc.
  assert (Hcompl : forall c, complete c = true <-> Backup.interval c <> "incomplete").
  { intros c. unfold complete. rewrite negb_true_iff.
    destruct (String.eqb_spec (Backup.interval c) "incomplete"); intuition congruence. }
  split; [|split].
  - intros (c & Hc & Hcc). destruct (best listed) as [b|] eqn:Eb.
    + destruct (best_some _ _ Eb) as (l1 & l2 & El & H1 & H2).
      exists b, l1, l2. split; [reflexivity|]. split; [exact El|].
      split; [now apply Hcompl, (best_complete _ _ Eb)|].
      split; intros x Hx Hxc; [apply H1|apply H2]; auto; now apply Hcompl.
    + apply Hcompl in Hcc. rewrite (best_none _ Eb _ Hc) in Hcc. discriminate.
  - intros ->. reflexivity.
  - intros Hne Hall. destruct (best listed) as [b|] eqn:Eb.
    + exfalso. destruct (best_some _ _ Eb) as (l1 & l2 & El & _).
      apply best_complete in Eb. apply Hcompl in Eb. apply Eb, Hall.
      rewrite El. apply in_or_app. right. now left.
    + destruct (sorted_desc listed) as [|x l] eqn:Es.
      { destruct listed as [|y l']; [congruence|].
        assert (In y (sorted_desc (y :: l'))) by (apply sorted_desc_In; now left).
        rewrite Es in H. destruct H. }
      pose proof (sorted_desc_sorted listed) as Hs. rewrite Es in Hs.
      destruct (List.last (map Some (x :: l)) None) as [b|] eqn:El.
      * destruct (last_sorted _ _ _ Hs El ltac:(discriminate)) as [Hin Hmin].
        exists b. split; [reflexivity|]. rewrite <- Es in Hin, Hmin.
        split; [now apply sorted_desc_In|].
        intros c Hc. apply Hmin. now apply sorted_desc_In.
      * exfalso. change (map Some (x :: l)) with (Some x :: map Some l) in El.
        rewrite last_cons in El. clear -El. revert x El.
        induction l as [|y l IH]; intros x El; [discriminate|].
        simpl map in El. rewrite last_cons in El. eauto.
Qed.

Lemma get_latest_backup_spec_witness :
  let s := Examples.state_of Examples.three Examples.quiet in
  _get_backups s
  = (Ok [Examples.snapshot "daily_2024-01-01-000000";
         Examples.snapshot "monthly_2024-01-01-000000";
         Examples.snapshot "incomplete_2024-01-02-000000"], s)
  /\ _get_latest_backup s
     = (Ok (Some (Examples.snapshot "daily_2024-01-01-000000")), s).
Proof.
  intros s.
  assert (H : _get_backups s
              = (Ok [Examples.snapshot "daily_2024-01-01-000000";
                     Examples.snapshot "monthly_2024-01-01-000000";
                     Examples.snapshot "incomplete_2024-01-02-000000"], s))
    by (vm_compute; reflexivity).
  split; [exact H|].
  destruct (get_latest_backup_spec s s _ H) as (r & Hr & _).
  rewrite Hr. vm_compute in Hr. injection Hr as <-. reflexivity.
Defined.

(** C3 as stated fails: with a single [incomplete] snapshot in the
    catalog the result is that snapshot, not [None]. *)
Lemma latest_only_incomplete :
  let s := Examples.state_of Examples.only_incomplete Examples.quiet in
  exists b, fst (_get_backups s) = Ok [b]
    /\ Backup.interval b = "incomplete"
    /\ fst (_get_latest_backup s) = Ok (Some b)
    /\ fst (_get_latest_backup s) <> Ok None.
Proof.
  eexists. split; [vm_compute; reflexivity|].
  split; [reflexivity|]. split; [vm_compute; reflexivity|].
  vm_compute. discriminate.
Qed.

(** ** Retention *)

Lemma custom_loop_ok pattern l td :
  (forall b, In b l -> fnmatch.fnmatch (Backup.name b) ("custom_" +:+ pattern) = true) ->
  custom_loop pattern l td = Ok td.
Proof.
  induction l as [|b l IH]; simpl; intros H; [reflexivity|].
  rewrite (H b) by now left. simpl. apply IH. intros c Hc. apply H. now right.
Qed.

Lemma custom_loop_raise pattern l td b :
  In b l -> fnmatch.fnmatch (Backup.name b) ("custom_" +:+ pattern) = false ->
  custom_loop pattern l td = Raise (NameError "b").
Proof.
  induction l as [|c l IH]; simpl; intros Hin Hb; [destruct Hin|].
  destruct (fnmatch.fnmatch (Backup.name c) _) eqn:E; simpl; [|reflexivity].
  destruct Hin as [->|Hin]; [congruence|auto].
Qed.

Lemma marked_raise self listed b :
  In b listed -> Backup.interval b = "custom" ->
  fnmatch.fnmatch (Backup.name b) (today_custom self) = false ->
  marked self listed = Raise (NameError "b").
Proof.
  intros Hin Hi Hm. unfold marked, intervals. simpl.
  erewrite custom_loop_raise; [reflexivity| |exact Hm].
  apply filter_In. split; [now apply sorted_desc_In|].
  rewrite Hi. reflexivity.
Qed.

Lemma marked_ok self listed :
  (forall b, In b listed -> Backup.interval b = "custom" ->
     fnmatch.fnmatch (Backup.name b) (today_custom self) = true) ->
  marked self listed
  = Ok (labelled "current" (sorted_desc listed)
        ++ slice_from (labelled "daily" (sorted_desc listed)) (retention_daily self)
        ++ slice_from (labelled "monthly" (sorted_desc listed)) (retention_monthly self)
        ++ slice_from (labelled "yearly" (sorted_desc listed)) (retention_yearly self)).
Proof.
  intros H. unfold marked, intervals. simpl.
  rewrite custom_loop_ok.
  - unfold labelled. now rewrite <- !app_assoc.
  - intros b Hb. apply filter_In in Hb as [Hb Hi].
    apply String.eqb_eq in Hi. apply H; [now apply sorted_desc_In|exact Hi].
Qed.

Lemma scan_migrated s : migrated s = true -> scan s = (Ok (listing (disk s)), s).
Proof. intros H. unfold scan, bind, get_migrated, get_disk, ret. now rewrite H. Qed.

Lemma get_backups_migrated s :
  migrated s = true -> _get_backups s = (construct (listing (disk s)), s).
Proof.
  intros H. unfold _get_backups, bind, lift. now rewrite scan_migrated.
Qed.

Lemma for_each_inv {A} (P : state -> Prop) (l : list A) (body : A -> M unit) :
  (forall x s, In x l -> P s -> P (snd (body x s))) ->
  forall s, P s -> P (snd (for_each l body s)).
Proof.
  induction l as [|x l IH]; simpl; intros Hb s Hs; [exact Hs|].
  unfold bind. specialize (Hb x s (or_introl eq_refl) Hs) as Hx.
  destruct (body x s) as [[u|e] s1]; simpl in *; [|exact Hx].
  apply IH; [|exact Hx]. intros y s' Hy. apply Hb. now right.
Qed.

Lemma update_path_names dir l p f e' :
  (forall e, Disk.name (f e) = Disk.name e) ->
  In e' (Disk.update_path dir l p f) ->
  exists e, In e l /\ Disk.name e = Disk.name e'.
Proof.
  intros Hf Hin. unfold Disk.update_path in Hin. apply in_map_iff in Hin as (e & <- & He).
  exists e. split; [exact He|]. destruct (String.eqb _ _); [symmetry; apply Hf|reflexivity].
Qed.

Lemma label_of_copy K L ts stamp :
  periodic K -> periodic L ->
  Backup._parse_name (K +:+ "_" +:+ stamp) = Ok (ts, L) -> K = L.
Proof.
  unfold Backup._parse_name. intros HK HL H.
  destruct (re.snapshot_name _) as [[i t]|] eqn:E; [|discriminate].
  injection H as <- <-. apply snapshot_name_sound in E as [tail E].
  rewrite to_list_app in E.
  destruct HK as [-> | [-> | ->]], HL as [-> | [-> | ->]]; try reflexivity;
    simpl in E; discriminate.
Qed.

Lemma copy_name_no_sep K d :
  periodic K -> no_sep (K +:+ "_" +:+ datetime.stamp d).
Proof.
  intros HK. unfold no_sep. rewrite !forallb_to_list_app.
  rewrite (ts_char_no_sep _ (stamp_chars d)).
  destruct HK as [-> | [-> | ->]]; reflexivity.
Qed.

Lemma remove_path_In dir l p x : In x (Disk.remove_path dir l p) -> In x l.
Proof. unfold Disk.remove_path. intros H. now apply filter_In in H as [H _]. Qed.

Lemma update_path_renamed dir l p n e' :
  In e' (Disk.update_path dir l p (fun e => Disk.rename e n)) ->
  In e' l \/ Disk.name e' = n.
Proof.
  unfold Disk.update_path. intros H. apply in_map_iff in H as (e & <- & He).
  destruct (String.eqb _ _); [now right|now left].
Qed.

(** [move] brings nothing into the root, and below [backups] no name
    but the one it moves to. *)
Lemma move_names src dst s :
  migrated (snd (move src dst s)) = migrated s
  /\ (forall x, In x (Disk.top (disk (snd (move src dst s)))) ->
        In x (Disk.top (disk s)))
  /\ (forall e', In e' (Disk.backups (disk (snd (move src dst s)))) ->
        (exists e, In e (Disk.backups (disk s)) /\ Disk.name e = Disk.name e')
        \/ Disk.name e' = os_path.basename dst).
Proof.
  assert (Hsame : forall s' : state, s' = s ->
            migrated s' = migrated s
            /\ (forall x, In x (Disk.top (disk s')) -> In x (Disk.top (disk s)))
            /\ (forall e', In e' (Disk.backups (disk s')) ->
                  (exists e, In e (Disk.backups (disk s)) /\ Disk.name e = Disk.name e')
                  \/ Disk.name e' = os_path.basename dst)).
  { intros s' ->. repeat split; auto. intros e' He'. left. now exists e'. }
  unfold move, bind, get_disk, raise, ret, put_disk. cbn [fst snd].
  destruct (Disk.snapshot_at (disk s) src) as [h|] eqn:Eh.
  - destruct (Disk.snapshot_at (disk s) dst) as [target|].
    + destruct (String.eqb src dst); [now apply Hsame|].
      destruct (existsb _ _); [now apply Hsame|].
      cbn [snd disk migrated Disk.top Disk.backups Disk.with_backups].
      split; [reflexivity|]. split; [auto|].
      intros e' He'. left.
      apply update_path_names in He' as (e & He & Hn); [|intros; reflexivity].
      apply remove_path_In in He. eauto.
    + cbn [snd disk migrated Disk.top Disk.backups Disk.with_backups].
      split; [reflexivity|]. split; [auto|].
      intros e' He'. apply update_path_renamed in He' as [He'|He']; [left|now right].
      now exists e'.
  - destruct (Disk.at_path (Disk.path (disk s)) (Disk.top (disk s)) src) as [a|];
      [|now apply Hsame].
    destruct (Disk.snapshot_at (disk s) dst) as [target|].
    + destruct (String.eqb src dst); [now apply Hsame|].
      destruct (existsb _ _); [now apply Hsame|].
      cbn [snd disk migrated Disk.top Disk.backups Disk.with_backups Disk.with_top].
      split; [reflexivity|]. split; [intros x; apply remove_path_In|].
      intros e' He'. left.
      apply update_path_names in He' as (e & He & Hn); [|intros; reflexivity]. eauto.
    + cbn [snd disk migrated Disk.top Disk.backups Disk.with_backups Disk.with_top].
      split; [reflexivity|]. split; [intros x; apply remove_path_In|].
      intros e' He'. apply in_app_or in He' as [He'|[<-|[]]]; [left; eauto|now right].
Qed.

(** The migration, however it ends, brings below [backups] no name but
    names of the root. *)
Lemma migrate_names s :
  Forall (fun x => no_sep (Disk.name x)) (Disk.top (disk s)) ->
  (forall x, In x (Disk.top (disk (snd (_migrate_backups s)))) ->
     In x (Disk.top (disk s)))
  /\ (forall e', In e' (Disk.backups (disk (snd (_migrate_backups s)))) ->
        exists e, Disk.name e = Disk.name e'
                  /\ (In e (Disk.backups (disk s)) \/ In e (Disk.top (disk s)))).
Proof.
  intros Hsep.
  set (body := fun entry : Disk.entry =>
                 if re.is_snapshot_name (Disk.name entry)
                 then move (os_path.join (Disk.path (disk s)) (Disk.name entry))
                           (os_path.join (Disk.backups_dir (disk s)) (Disk.name entry))
                 else ret tt).
  assert (Hd : disk (snd (_migrate_backups s))
               = disk (snd (for_each (Disk.top (disk s)) body s))).
  { unfold _migrate_backups, bind, get_disk, set_migrated. cbn [fst snd]. fold body.
    destruct (for_each _ body s) as [[u|e] s1]; reflexivity. }
  rewrite Hd.
  set (P := fun s1 : state =>
    (forall x, In x (Disk.top (disk s1)) -> In x (Disk.top (disk s)))
    /\ (forall e', In e' (Disk.backups (disk s1)) ->
          exists e, Disk.name e = Disk.name e'
                    /\ (In e (Disk.backups (disk s)) \/ In e (Disk.top (disk s))))).
  assert (H0 : P s).
  { split; [auto|]. intros e' He'. exists e'. auto. }
  apply (for_each_inv P (Disk.top (disk s)) body); [|exact H0].
  intros x s1 Hx [Ht Hb]. unfold body.
  destruct (re.is_snapshot_name (Disk.name x)); [|split; assumption].
  destruct (move_names (os_path.join (Disk.path (disk s)) (Disk.name x))
              (os_path.join (Disk.backups_dir (disk s)) (Disk.name x)) s1)
    as (_ & Ht' & Hb').
  split; [auto|]. intros e' He'. destruct (Hb' e' He') as [(e & He & Hn)|Hn].
  - destruct (Hb e He) as (e0 & Hn0 & H). exists e0. split; [congruence|exact H].
  - exists x. split; [|now right].
    rewrite Hn, basename_join; [reflexivity|].
    rewrite List.Forall_forall in Hsep. now apply Hsep.
Qed.

Lemma get_backups_names s :
  Forall (fun x => no_sep (Disk.name x)) (Disk.top (disk s)) ->
  (migrated s = true -> snd (_get_backups s) = s)
  /\ (forall x, In x (Disk.top (disk (snd (_get_backups s)))) ->
        In x (Disk.top (disk s)))
  /\ (forall e', In e' (Disk.backups (disk (snd (_get_backups s)))) ->
        exists e, Disk.name e = Disk.name e'
                  /\ (In e (Disk.backups (disk s))
                      \/ (migrated s = false /\ In e (Disk.top (disk s))))).
Proof.
  intros Hsep. destruct (migrated s) eqn:Hm.
  - rewrite get_backups_migrated by exact Hm. cbn [snd].
    split; [reflexivity|]. split; [auto|]. intros e' He'. exists e'. auto.
  - split; [discriminate|].
    destruct (migrate_names s Hsep) as [Ht Hb].
    assert (Hd : disk (snd (_get_backups s)) = disk (snd (_migrate_backups s))).
    { unfold _get_backups, scan, bind, get_migrated, get_disk, ret, lift.
      cbn [fst snd]. rewrite Hm.
      destruct (_migrate_backups s) as [[u|e] s1]; cbn [fst snd]; [|reflexivity].
      reflexivity. }
    rewrite Hd. split; [exact Ht|].
    intros e' He'. destruct (Hb e' He') as (e & Hn & [H|H]); exists e; auto.
Qed.

Lemma came_from_name s0 e e' :
  Disk.name e = Disk.name e' -> came_from s0 e -> came_from s0 e'.
Proof. intros Hn (x & Hx & H). exists x. split; [congruence|exact H]. Qed.

Lemma labelled_dir_name L e e' :
  Disk.name e = Disk.name e' -> labelled_dir L e' -> labelled_dir L e.
Proof. unfold labelled_dir. now intros ->. Qed.

Lemma nothing_new_same L s0 s s' :
  disk s' = disk s -> migrated s' = migrated s ->
  nothing_new L s0 s -> nothing_new L s0 s'.
Proof. unfold nothing_new. intros -> ->. auto. Qed.

Lemma nothing_new_listed L s0 s :
  Forall (fun x => no_sep (Disk.name x)) (Disk.top (disk s0)) ->
  nothing_new L s0 s ->
  nothing_new L s0 (snd (_get_backups s)).
Proof.
  intros Hsep (Hm & Ht & Hs).
  assert (Hsep' : Forall (fun x => no_sep (Disk.name x)) (Disk.top (disk s))).
  { rewrite List.Forall_forall in *. auto. }
  destruct (get_backups_names s Hsep') as (Hsame & Ht' & Hb').
  destruct (migrated s) eqn:Es.
  - rewrite Hsame by reflexivity. repeat split; auto.
  - assert (H0 : migrated s0 = false).
    { destruct (migrated s0); [|reflexivity]. discriminate (Hm eq_refl). }
    split; [rewrite H0; discriminate|]. split; [auto|].
    intros e' He' Hl. destruct (Hb' e' He') as (e & Hn & [He|[_ He]]).
    + apply (came_from_name s0 e e' Hn). apply Hs; [exact He|].
      now apply (labelled_dir_name L e e').
    + exists e. split; [exact Hn|]. right. auto.
Qed.

Lemma create_interval_backups_nothing_new self source_backup L s0 :
  periodic L ->
  Forall (fun x => no_sep (Disk.name x)) (Disk.top (disk s0)) ->
  (forall v r, In (L, v) (intervals self) -> retention v = Some r -> (r < 1)%Z) ->
  forall s, nothing_new L s0 s ->
  nothing_new L s0 (snd (_create_interval_backups self source_backup s)).
Proof.
  intros HL Hsep Hret. unfold _create_interval_backups.
  apply for_each_inv. intros [K v] s HK Hs. simpl fst. simpl snd.
  destruct (String.eqb K "custom") eqn:EK; [exact Hs|].
  assert (HKp : periodic K).
  { unfold intervals in HK. simpl in HK. unfold periodic.
    destruct HK as [H|[H|[H|[H|[]]]]]; injection H as <- _; auto.
    discriminate. }
  unfold bind at 1. unfold lift, retention_of.
  destruct (retention v) as [r|] eqn:Er; [|exact Hs].
  cbn [fst snd].
  destruct (r <? 1)%Z eqn:Elt; [exact Hs|].
  assert (HKL : K <> L).
  { intros ->. specialize (Hret _ _ HK Er). apply Z.ltb_ge in Elt. lia. }
  unfold bind at 1.
  pose proof (nothing_new_listed L s0 s Hsep Hs) as H1.
  destruct (_get_backups s) as [[bs|e] s1]; cbn [fst snd] in *; [|exact H1].
  destruct (fnmatch.filter _ _); [|exact H1].
  unfold bind at 1, get_disk. cbn [fst snd].
  destruct (test self).
  { apply (nothing_new_same L s0 s1); [reflexivity|reflexivity|exact H1]. }
  unfold bind at 1, logger_info, emit. cbn [fst snd].
  unfold cp_al, bind, get_disk. cbn [fst snd disk migrated].
  destruct (Disk.snapshot_at (disk s1) source_backup) as [src|];
    [|apply (nothing_new_same L s0 s1); [reflexivity|reflexivity|exact H1]].
  destruct H1 as (Hm & Ht & Hb).
  destruct (Disk.snapshot_at (disk s1) _) as [dst|];
    unfold put_disk; cbn [snd disk migrated Disk.backups Disk.top Disk.with_backups];
    (split; [exact Hm|]); (split; [exact Ht|]); intros e' He' Hl.
  - apply update_path_names in He' as (e & He & Hn); [|intros; reflexivity].
    apply (came_from_name s0 e e' Hn). apply Hb; [exact He|].
    now apply (labelled_dir_name L e e').
  - apply in_app_or in He' as [He'|[<-|[]]]; [now apply Hb|]. exfalso.
    destruct Hl as [ts Hts]. simpl in Hts.
    unfold timestamp in Hts.
    rewrite basename_join in Hts by now apply copy_name_no_sep.
    apply HKL. eapply label_of_copy; eauto.
Qed.

Lemma retention_count_periodic self L n :
  retention_count self L = Some n ->
  periodic L /\ forall v r, In (L, v) (intervals self) -> retention v = Some r -> r = n.
Proof.
  unfold retention_count, intervals. cbn [List.find fst].
  destruct (String.eqb_spec "custom" L) as [<-|H0]; [discriminate|].
  destruct (String.eqb_spec "daily" L) as [<-|H1].
  { intros [= <-]. split; [now left|].
    intros v r [H|[H|[H|[H|[]]]]]; try discriminate; injection H as <-; simpl; congruence. }
  destruct (String.eqb_spec "monthly" L) as [<-|H2].
  { intros [= <-]. split; [right; now left|].
    intros v r [H|[H|[H|[H|[]]]]]; try discriminate; injection H as <-; simpl; congruence. }
  destruct (String.eqb_spec "yearly" L) as [<-|H3]; [|discriminate].
  intros [= <-]. split; [right; now right|].
  intros v r [H|[H|[H|[H|[]]]]]; try discriminate; injection H as <-; simpl; congruence.
Qed.

(** C1, as amended.  For a label whose retention count is below 1:
    [_create_interval_backups] adds no directory of that label (every
    directory below [backups] that carries the label afterwards has the
    name of one that was there before or, where the migration had yet
    to run, of one that lay in the root, whence the migration moves
    it); the pruning pass does not skip the label, and with a count of
    0 it marks every snapshot of that label for deletion, when every
    custom snapshot listed is of the day of the run (a custom snapshot
    of an earlier day stops the pass, see C2). *)
Theorem disabled_label (self : t) (L : string) (n : Z) :
  retention_count self L = Some n -> (n < 1)%Z ->
  (forall source_backup s s',
     Forall (fun x => no_sep (Disk.name x)) (Disk.top (disk s)) ->
     s' = snd (_create_interval_backups self source_backup s) ->
     forall e', In e' (Disk.backups (disk s')) -> labelled_dir L e' ->
       exists e, Disk.name e = Disk.name e'
                 /\ (In e (Disk.backups (disk s))
                     \/ (migrated s = false /\ In e (Disk.top (disk s)))))
  /\ (n = 0%Z ->
      forall listed,
        (forall b, In b listed -> Backup.interval b = "custom" ->
           fnmatch.fnmatch (Backup.name b) (today_custom self) = true) ->
        exists to_delete, marked self listed = Ok to_delete
          /\ forall b, In b listed -> Backup.interval b = L -> In b to_delete).
Proof.
  intros Hn Hlt. destruct (retention_count_periodic _ _ _ Hn) as [HL Hv]. split.
  - intros src s s' Hsep -> e' He' Hl.
    assert (H0 : nothing_new L s s).
    { split; [auto|]. split; [auto|]. intros e He _. exists e. auto. }
    pose proof (create_interval_backups_nothing_new self src L s HL Hsep) as H.
    destruct (H (fun v r Hin Hr => eq_ind_r (fun z => (z < 1)%Z) Hlt (Hv v r Hin Hr)) s H0)
      as (_ & _ & H1).
    now apply H1.
  - intros -> listed Hc. rewrite marked_ok by exact Hc. eexists. split; [reflexivity|].
    intros b Hb Hi.
    assert (Hin : In b (labelled L (sorted_desc listed))).
    { apply filter_In. split; [now apply sorted_desc_In|]. now apply String.eqb_eq. }
    unfold retention_count, intervals in Hn. simpl in Hn.
    rewrite !in_app_iff.
    destruct HL as [-> | [-> | ->]]; simpl in Hn; injection Hn as Hn; rewrite Hn;
      unfold slice_from; simpl; auto.
Qed.

Lemma disabled_label_witness :
  let self := Examples.config false 2 0 1 in
  let s := Fixtures.fresh_run Fixtures.old_layout in
  retention_count self "monthly" = Some 0%Z
  /\ (forall e', In e' (Disk.backups
                         (disk (snd (_create_interval_backups self
                                       "/srv/h/backups/daily_2024-01-03-040506" s)))) ->
        labelled_dir "monthly" e' ->
        exists e, Disk.name e = Disk.name e'
                  /\ (In e (Disk.backups (disk s))
                      \/ (migrated s = false /\ In e (Disk.top (disk s)))))
  /\ exists to_delete,
       marked self [Examples.snapshot "daily_2024-01-03-010000";
                    Examples.snapshot "monthly_2024-01-01-000000"] = Ok to_delete
       /\ In (Examples.snapshot "monthly_2024-01-01-000000") to_delete.
Proof.
  intros self s. split; [reflexivity|].
  destruct (disabled_label self "monthly" 0 eq_refl ltac:(lia)) as [H1 H].
  split.
  - apply (H1 "/srv/h/backups/daily_2024-01-03-040506" s); [|reflexivity].
    repeat constructor.
  - destruct (H eq_refl [Examples.snapshot "daily_2024-01-03-010000";
                         Examples.snapshot "monthly_2024-01-01-000000"])
      as (td & Htd & Hin).
    + intros b [<-|[<-|[]]]; vm_compute; discriminate.
    + exists td. split; [exact Htd|]. apply Hin; [right; now left|reflexivity].
Defined.

(** C1 as stated fails: with [monthly] set to 0 the one monthly
    snapshot is marked and, outside a dry run, removed. *)
Lemma disabled_label_is_pruned :
  let self := Examples.config false 2 0 1 in
  let s := Examples.state_of Examples.two_labels Examples.quiet in
  retention_count self "monthly" = Some 0%Z
  /\ fst (_get_backups s)
     = Ok [Examples.snapshot "daily_2024-01-03-010000";
           Examples.snapshot "monthly_2024-01-01-000000"]
  /\ marked self [Examples.snapshot "daily_2024-01-03-010000";
                  Examples.snapshot "monthly_2024-01-01-000000"]
     = Ok [Examples.snapshot "monthly_2024-01-01-000000"]
  /\ fst (_remove_old_backups self s) = Ok tt
  /\ map Disk.name (Disk.backups (disk (snd (_remove_old_backups self s))))
     = ["daily_2024-01-03-010000"].
Proof. vm_compute. repeat split. Qed.

(** C2 at a failing input: a custom snapshot of 1 January, examined on
    3 January, is not marked; the pass stops with [NameError] and
    nothing is removed. *)
Lemma stale_custom_raises :
  let self := Examples.config false 2 1 1 in
  let s := Examples.state_of Examples.stale_custom Examples.quiet in
  fst (_get_backups s)
  = Ok [Examples.snapshot "daily_2024-01-03-010000";
        Examples.snapshot "custom_2024-01-01-120000"]
  /\ fnmatch.fnmatch "custom_2024-01-01-120000" (today_custom self) = false
  /\ marked self [Examples.snapshot "daily_2024-01-03-010000";
                  Examples.snapshot "custom_2024-01-01-120000"]
     = Raise (NameError "b")
  /\ fst (_remove_old_backups self s) = Raise (NameError "b")
  /\ disk (snd (_remove_old_backups self s)) = disk s.
Proof. vm_compute. repeat split. Qed.

(** ** Checksum files *)

Lemma to_list_inj a b : Bytes.to_list a = Bytes.to_list b -> a = b.
Proof. intros H. rewrite <- (of_to_list a), <- (of_to_list b). now f_equal. Qed.

Lemma to_list_nonempty a : a <> "" -> Bytes.to_list a <> [].
Proof. intros H E. apply H. apply to_list_inj. exact E. Qed.

Lemma lstrip_list_fixed l x :
  Bytes.lstrip_list l = l -> l <> [] -> Bytes.lstrip_list (l ++ x) = l ++ x.
Proof.
  destruct l as [|c l]; [congruence|]. simpl. intros H _.
  destruct (Bytes.isspace c); [|reflexivity].
  exfalso. clear -H.
  assert (Hlen : forall k, length (Bytes.lstrip_list k) <= length k).
  { induction k as [|a k IH]; simpl; [lia|]. destruct (Bytes.isspace a); simpl; lia. }
  specialize (Hlen l). rewrite H in Hlen. simpl in Hlen. lia.
Qed.

Lemma span_token_app c r :
  forallb (fun a => negb (Bytes.isspace a)) c = true ->
  (match r with a :: _ => Bytes.isspace a = true | [] => True end) ->
  Bytes.span_token (c ++ r) = (c, r).
Proof.
  induction c as [|a c IH]; simpl; intros Hc Hr.
  - destruct r as [|a r]; [reflexivity|]. simpl. now rewrite Hr.
  - apply andb_true_iff in Hc as [Ha Hc]. apply negb_true_iff in Ha.
    rewrite Ha, IH by assumption. reflexivity.
Qed.

Lemma lstrip_trimmed p :
  trimmed p -> Bytes.lstrip_list (Bytes.to_list p) = Bytes.to_list p.
Proof.
  intros (_ & H & _). unfold Bytes.lstrip in H.
  apply (f_equal Bytes.to_list) in H. now rewrite to_of_list in H.
Qed.

Lemma rstrip_trimmed p :
  trimmed p -> Bytes.lstrip_list (rev (Bytes.to_list p)) = rev (Bytes.to_list p).
Proof.
  intros (_ & _ & H). unfold Bytes.rstrip, Bytes.rstrip_list in H.
  apply (f_equal Bytes.to_list) in H. rewrite to_of_list in H.
  apply (f_equal (@rev _)) in H. now rewrite rev_involutive in H.
Qed.

Lemma strip_line p : trimmed p -> Bytes.strip (p +:+ Bytes.nl) = p.
Proof.
  intros Hp. unfold Bytes.strip, Bytes.rstrip_list.
  rewrite to_list_app.
  rewrite lstrip_list_fixed;
    [|now apply lstrip_trimmed|apply to_list_nonempty, Hp].
  rewrite rev_app_distr. simpl.
  rewrite (rstrip_trimmed p Hp), rev_involutive. apply of_to_list.
Qed.

Lemma split_ws_1_unfold s :
  Bytes.lstrip_list (Bytes.to_list s) <> [] ->
  Bytes.split_ws_1 s
  = match Bytes.lstrip_list
            (snd (Bytes.span_token (Bytes.lstrip_list (Bytes.to_list s)))) with
    | [] => [Bytes.of_list (fst (Bytes.span_token (Bytes.lstrip_list (Bytes.to_list s))))]
    | _ :: _ =>
        [Bytes.of_list (fst (Bytes.span_token (Bytes.lstrip_list (Bytes.to_list s))));
         Bytes.of_list
           (Bytes.lstrip_list
              (snd (Bytes.span_token (Bytes.lstrip_list (Bytes.to_list s)))))]
    end.
Proof.
  intros H. unfold Bytes.split_ws_1.
  destruct (Bytes.lstrip_list (Bytes.to_list s)) as [|a l]; [congruence|].
  destruct (Bytes.span_token (a :: l)) as [t r]. cbn [fst snd].
  destruct (Bytes.lstrip_list r); reflexivity.
Qed.

Lemma split_line c p :
  token c -> trimmed p ->
  Bytes.split_ws_1 (c +:+ "  " +:+ p +:+ Bytes.nl) = [c; p +:+ Bytes.nl].
Proof.
  intros [Hc0 Hc] Hp.
  assert (Hne : Bytes.to_list c <> []) by now apply to_list_nonempty.
  assert (Hfix : Bytes.lstrip_list (Bytes.to_list c) = Bytes.to_list c).
  { destruct (Bytes.to_list c) as [|a l]; [reflexivity|]. simpl in *.
    apply andb_true_iff in Hc as [Ha _]. apply negb_true_iff in Ha. now rewrite Ha. }
  assert (Hpne : Bytes.to_list p ++ Bytes.to_list Bytes.nl <> []).
  { destruct Hp as [Hp _]. apply to_list_nonempty in Hp.
    destruct (Bytes.to_list p); [congruence|discriminate]. }
  assert (Hl : Bytes.lstrip_list (Bytes.to_list (c +:+ "  " +:+ p +:+ Bytes.nl))
               = Bytes.to_list c
                 ++ " "%char :: " "%char :: Bytes.to_list p ++ Bytes.to_list Bytes.nl).
  { rewrite !to_list_app. now rewrite lstrip_list_fixed. }
  rewrite split_ws_1_unfold; rewrite Hl.
  2:{ destruct (Bytes.to_list c); [congruence|discriminate]. }
  rewrite span_token_app; [|exact Hc|reflexivity]. cbn [fst snd].
  change (Bytes.lstrip_list (" "%char :: " "%char :: Bytes.to_list p ++ Bytes.to_list Bytes.nl))
    with (Bytes.lstrip_list (Bytes.to_list p ++ Bytes.to_list Bytes.nl)).
  rewrite lstrip_list_fixed;
    [|now apply lstrip_trimmed|apply to_list_nonempty, Hp].
  destruct (Bytes.to_list p ++ Bytes.to_list Bytes.nl) as [|a' l'] eqn:E'; [congruence|].
  rewrite <- E', <- to_list_app, !of_to_list. reflexivity.
Qed.

Lemma at_path_update dir l p f :
  (forall e, Disk.name (f e) = Disk.name e) ->
  Disk.at_path dir (Disk.update_path dir l p f) p
  = option_map f (Disk.at_path dir l p).
Proof.
  intros Hf. unfold Disk.at_path, Disk.update_path.
  induction l as [|e l IH]; simpl; [reflexivity|].
  destruct (String.eqb (os_path.join dir (Disk.name e)) p) eqn:E.
  - rewrite Hf, E. reflexivity.
  - rewrite E. exact IH.
Qed.

(** ** Configuring the transfer *)

Lemma get_latest_backup_migrated s bs :
  migrated s = true -> construct (listing (disk s)) = Ok bs ->
  _get_latest_backup s = (Ok (latest_loop None (sorted_desc bs)), s).
Proof.
  intros Hm Hc. unfold _get_latest_backup, bind, ret.
  now rewrite get_backups_migrated, Hc.
Qed.

Lemma get_incomplete_backup_migrated s :
  migrated s = true ->
  _get_incomplete_backup s = (first_incomplete (listing (disk s)), s).
Proof.
  intros Hm. unfold _get_incomplete_backup, bind, lift. now rewrite scan_migrated.
Qed.

Lemma move_disk src dst s1 s2 :
  disk s1 = disk s2 ->
  disk (snd (move src dst s1)) = disk (snd (move src dst s2)).
Proof.
  intros H. unfold move, bind, get_disk, put_disk, raise, ret. rewrite H.
  repeat match goal with
         | |- context [match ?x with _ => _ end] => destruct x
         end; cbn [snd disk]; auto.
Qed.

Lemma create_dir_disk directory s1 s2 :
  disk s1 = disk s2 ->
  disk (snd (_create_dir directory s1)) = disk (snd (_create_dir directory s2)).
Proof.
  intros H. unfold _create_dir, bind, get_disk, put_disk, raise, ret. rewrite H.
  repeat match goal with
         | |- context [match ?x with _ => _ end] => destruct x
         end; cbn [snd disk]; auto.
Qed.

Lemma at_path_renamed_away dir l src n :
  os_path.join dir n <> src ->
  Disk.at_path dir (Disk.update_path dir l src (fun e => Disk.rename e n)) src = None.
Proof.
  intros Hn. unfold Disk.at_path, Disk.update_path.
  induction l as [|e l IH]; simpl; [reflexivity|].
  destruct (String.eqb (os_path.join dir (Disk.name e)) src) eqn:E; simpl.
  - destruct (String.eqb_spec (os_path.join dir n) src); [contradiction|exact IH].
  - rewrite E. exact IH.
Qed.

Lemma at_path_renamed dir l src dst n e :
  os_path.join dir n = dst ->
  Disk.at_path dir l src = Some e ->
  Disk.at_path dir l dst = None ->
  Disk.at_path dir (Disk.update_path dir l src (fun e => Disk.rename e n)) dst
  = Some (Disk.rename e n).
Proof.
  intros Hn. unfold Disk.at_path, Disk.update_path.
  induction l as [|x l IH]; simpl; [discriminate|].
  destruct (String.eqb (os_path.join dir (Disk.name x)) src) eqn:E; simpl.
  - intros [= <-] _. rewrite Hn, String.eqb_refl. reflexivity.
  - destruct (String.eqb (os_path.join dir (Disk.name x)) dst) eqn:E'; [discriminate|].
    exact IH.
Qed.

(** C10.  In a dry run, on a migrated catalog that can be listed: when
    an incomplete snapshot is found, [_configure_rsync] leaves the disk
    as [shutil.move] of that snapshot to the new target leaves it, the
    same as without the dry-run flag, and when the target path is free
    the directory is then found under the new path and no longer under
    the old one; when none is found the disk is untouched, whereas
    without the flag the target directory is created. *)
Theorem configure_rsync_dry_run (self : t) (backup : Backup.t) (s : state)
    (bs : list Backup.t) (found : option Backup.t) :
  test self = true ->
  migrated s = true ->
  rsync_mode self = "ssh" \/ rsync_mode self = "local" ->
  Disk.rules (disk s) = true ->
  construct (listing (disk s)) = Ok bs ->
  first_incomplete (listing (disk s)) = Ok found ->
  let dry := snd (_configure_rsync self backup s) in
  let wet := snd (_configure_rsync (with_test self false) backup s) in
  match found with
  | Some incomplete_backup =>
      disk dry
      = disk (snd (move (Backup.path incomplete_backup) (Backup.path backup) s))
      /\ disk wet = disk dry
      /\ forall e,
           Disk.snapshot_at (disk s) (Backup.path incomplete_backup) = Some e ->
           Disk.snapshot_at (disk s) (Backup.path backup) = None ->
           os_path.join (Disk.backups_dir (disk s))
             (os_path.basename (Backup.path backup)) = Backup.path backup ->
           Disk.snapshot_at (disk dry) (Backup.path incomplete_backup) = None
           /\ Disk.snapshot_at (disk dry) (Backup.path backup)
              = Some (Disk.rename e (os_path.basename (Backup.path backup)))
  | None =>
      disk dry = disk s
      /\ disk wet = disk (snd (_create_dir (Backup.backup_dir backup) s))
  end.
Proof.
  intros Ht Hm Hmode Hr Hc Hf dry wet.
  assert (Hrun : forall self',
            rsync_mode self' = rsync_mode self ->
            disk (snd (_configure_rsync self' backup s))
            = match found with
              | Some i => disk (snd (move (Backup.path i) (Backup.path backup) s))
              | None => if test self' then disk s
                        else disk (snd (_create_dir (Backup.backup_dir backup) s))
              end).
  { intros self' Hmode'. unfold _configure_rsync.
    unfold bind at 1.
    match goal with
    | |- context [match ?m s with _ => _ end] =>
        assert (Hsc : exists sc, m s = (Ok sc, s))
    end.
    { rewrite Hmode'. destruct Hmode as [-> | ->]; simpl; eexists; reflexivity. }
    destruct Hsc as [sc ->].
    unfold bind at 1, get_disk. rewrite Hr. cbn [negb].
    unfold bind at 1. rewrite (get_latest_backup_migrated _ _ Hm Hc).
    unfold bind at 1. rewrite (get_incomplete_backup_migrated _ Hm), Hf.
    destruct found as [i|].
    - unfold bind at 1. unfold bind at 1. unfold bind at 1.
      unfold logger_info at 1, emit at 1. cbn [fst snd].
      match goal with
      | |- context [move ?a ?b ?st] =>
          rewrite <- (move_disk a b st s eq_refl);
          destruct (move a b st) as [[u|e] s1]
      end; reflexivity.
    - unfold bind at 1. unfold bind at 1.
      destruct (test self'); cbn [negb]; [reflexivity|].
      match goal with
      | |- context [_create_dir ?a ?st] =>
          destruct (_create_dir a st) as [[u|e] s1]
      end; reflexivity. }
  pose proof (Hrun self eq_refl) as Hdry.
  pose proof (Hrun (with_test self false) eq_refl) as Hwet.
  rewrite Ht in Hdry. cbn [test with_test] in Hwet.
  fold dry in Hdry. fold wet in Hwet.
  destruct found as [i|]; [|now split].
  split; [exact Hdry|]. split; [congruence|].
  intros e He Hnone Hpath. rewrite Hdry.
  unfold move, bind, get_disk. rewrite He, Hnone.
  unfold put_disk. cbn [snd disk]. unfold Disk.snapshot_at in *.
  cbn [Disk.backups Disk.with_backups].
  change (Disk.backups_dir (Disk.with_backups (disk s) _)) with (Disk.backups_dir (disk s)).
  split.
  - apply at_path_renamed_away. rewrite Hpath. intros E. rewrite E in Hnone. congruence.
  - now apply at_path_renamed.
Qed.

Lemma configure_rsync_dry_run_witness :
  let self := Examples.config true 2 1 1 in
  let s := Examples.state_of Examples.resumable Examples.quiet in
  let backup := Examples.snapshot "incomplete_2024-01-03-040506" in
  let dry := snd (_configure_rsync self backup s) in
  Disk.snapshot_at (disk dry) "/srv/h/backups/incomplete_2024-01-02-000000" = None
  /\ Disk.snapshot_at (disk dry) "/srv/h/backups/incomplete_2024-01-03-040506"
     = Some (Examples.dir "incomplete_2024-01-03-040506"
               (Some [("c.txt", "h3")]) None None).
Proof.
  intros self s backup dry.
  pose proof (configure_rsync_dry_run self backup s
                [Examples.snapshot "daily_2024-01-01-000000";
                 Examples.snapshot "incomplete_2024-01-02-000000"]
                (Some (Examples.snapshot "incomplete_2024-01-02-000000"))
                eq_refl eq_refl (or_intror eq_refl) eq_refl eq_refl eq_refl) as H.
  destruct H as (_ & _ & H).
  apply (H (Examples.dir "incomplete_2024-01-02-000000"
              (Some [("c.txt", "h3")]) None None)); reflexivity.
Defined.

(** ** Verification *)

Lemma collect_ok {A} (g : list (result A)) l :
  Backup.collect g = Ok l -> g = map Ok l.
Proof.
  revert l. induction g as [|[a|e] g IH]; simpl; intros l H.
  - now injection H as <-.
  - destruct (Backup.collect g) as [l'|]; [|discriminate].
    injection H as <-. simpl. now rewrite (IH l').
  - discriminate.
Qed.

Lemma state_eta s :
  {| disk := disk s; clock := clock s; transfer := transfer s;
     migrated := migrated s; status := status s; error := error s;
     log := log s; hashed := hashed s |} = s.
Proof. now destruct s. Qed.

Lemma counts_ext a b c a' b' c' :
  a = a' -> b = b' -> c = c' ->
  {| checked_count := a; verified_count := b; failed_count := c |}
  = {| checked_count := a'; verified_count := b'; failed_count := c' |}.
Proof. now intros -> -> ->. Qed.

Lemma verify_loop_spec backup entries : forall c s,
  Forall (checkable (disk s) backup) entries ->
  verify_loop backup (map Ok entries) c s
  = (Ok {| checked_count := checked_count c + length entries;
           verified_count :=
             verified_count c
             + (length entries
                - length (List.filter (mismatch (disk s) backup) entries));
           failed_count :=
             failed_count c
             + length (List.filter (mismatch (disk s) backup) entries) |},
     after_loop s (disk s) backup entries).
Proof.
  induction entries as [|[f stored] entries IH]; intros c s Hall.
  - simpl. unfold ret, after_loop. simpl. rewrite !app_nil_r, !Nat.add_0_r, state_eta.
    now destruct c.
  - apply Forall_cons_iff in Hall as [(current & Hlive & Hdec) Hall].
    cbn [map verify_loop]. fold (checked_path backup f).
    unfold bind at 1. unfold _get_file_md5, bind, get_disk, note_hashed, ret.
    cbn [fst snd] in Hlive. unfold live in Hlive. rewrite Hlive. cbn [fst snd].
    assert (Hlen : length (List.filter (mismatch (disk s) backup) entries)
                   <= length entries) by apply filter_length_le.
    destruct (String.eqb_spec current stored) as [->|Hne].
    + rewrite IH by exact Hall.
      cbn [disk log hashed checked_count verified_count failed_count].
      assert (Hmm : mismatch (disk s) backup (f, stored) = false).
      { unfold mismatch, live. cbn [fst snd]. rewrite Hlive.
        now rewrite String.eqb_refl. }
      unfold after_loop.
      cbn [List.filter disk clock transfer migrated status error log hashed map length].
      rewrite Hmm. cbn [fst]. rewrite <- !app_assoc. cbn [app].
      apply f_equal2; [apply f_equal, counts_ext; lia|reflexivity].
    + destruct (Hdec Hne) as (D1 & D2 & D3). cbn [fst snd] in D1, D3.
      rewrite D1, D2, D3. cbn [andb].
      unfold logger_error, emit.
      rewrite IH by exact Hall.
      cbn [disk log hashed checked_count verified_count failed_count].
      assert (Hmm : mismatch (disk s) backup (f, stored) = true).
      { unfold mismatch, live. cbn [fst snd]. rewrite Hlive.
        now apply negb_true_iff, String.eqb_neq. }
      unfold after_loop.
      cbn [List.filter disk clock transfer migrated status error log hashed map length].
      rewrite Hmm. cbn [map length fst snd].
      unfold failed_record at 2, live. cbn [fst snd]. rewrite Hlive.
      rewrite <- !app_assoc. cbn [app].
      apply f_equal2; [apply f_equal, counts_ext; lia|reflexivity].
Qed.

Lemma get_latest_backup_run s :
  migrated s = true ->
  _get_latest_backup s
  = (match construct (listing (disk s)) with
     | Ok bs => Ok (latest_loop None (sorted_desc bs))
     | Raise e => Raise e
     end, s).
Proof.
  intros Hm. unfold _get_latest_backup, bind, ret.
  rewrite get_backups_migrated by exact Hm.
  now destruct (construct _).
Qed.

Lemma selected_run backup_name s1 s2 :
  disk s1 = disk s2 -> migrated s1 = true -> migrated s2 = true ->
  selected backup_name s2 = (fst (selected backup_name s1), s2).
Proof.
  intros Hd H1 H2. unfold selected. destruct (String.eqb backup_name "_current_").
  - rewrite !get_latest_backup_run by assumption. now rewrite Hd.
  - unfold _get_backup_by_name. destruct (negb _); [reflexivity|].
    unfold bind, get_disk, lift, ret. rewrite Hd.
    destruct (Backup.new _) as [b|e]; [|reflexivity]. cbn [fst snd].
    destruct (Disk.snapshot_at _ _) as [x|]; [|reflexivity].
    destruct (Disk.tree x); reflexivity.
Qed.

(** Flatten the state records a run builds up. *)
Ltac flat :=
  cbn [fst snd disk clock transfer migrated status error log hashed
       Disk.path Disk.backups Disk.top Disk.last_verification Disk.rules].

(** C5, as amended.  For a snapshot of a migrated catalog with a
    checksum record whose lines can be read and whose listed files can
    all be opened (and, where a file differs, with a path and checksums
    that decode for the log): [verify] returns; it has computed the
    digest of every listed file, in order; the log holds, after the
    opening records, one [FAILED] record per entry whose digest is not
    equal to the stored checksum, with the path, the digest found and
    the checksum stored; the statistics that follow count the listed
    entries, the equal ones and the unequal ones; and the status says
    success exactly when no entry is unequal. *)
Theorem verify_report (self : t) (backup_name : string) (s : state)
    (backup : Backup.t) (checksum_file : string)
    (entries : list (string * string)) :
  migrated s = true ->
  fst (selected backup_name s) = Ok (Some backup) ->
  fst (Backup.checksum_file backup (disk s)) = Some checksum_file ->
  Backup.collect (Backup.checksums backup (disk s)) = Ok entries ->
  Forall (checkable (disk s) backup) entries ->
  let failed := List.filter (mismatch (disk s) backup) entries in
  exists s',
    verify self backup_name s = (Ok tt, s')
    /\ hashed s' = hashed s ++ map (fun e => checked_path backup (fst e)) entries
    /\ log s'
       = log s ++ opening_records backup checksum_file
         ++ map (failed_record (disk s) backup) failed
         ++ stats_records (length entries) (length entries - length failed)
              (length failed)
         ++ closing_records self backup_name (disk s) (length failed)
    /\ status s'
       = (if length failed =? 0 then "Backup verification completed successfully!"
          else "Backup verification failed!")
    /\ error s' = false.
Proof.
  intros Hm Hsel Hfile Hrec Hall failed.
  unfold verify. fold (selected backup_name).
  unfold bind at 1, set_status at 1. flat.
  unfold bind at 1, set_error at 1. flat.
  unfold bind at 1.
  match goal with
  | |- context [selected backup_name ?st] =>
      rewrite (selected_run backup_name s st eq_refl Hm Hm)
  end.
  rewrite Hsel.
  unfold bind at 1, logger_info at 1, emit at 1. flat.
  unfold bind at 1, get_disk at 1. flat. rewrite Hfile.
  unfold bind at 1, logger_info at 1, emit at 1. flat.
  unfold bind at 1, logger_info at 1, emit at 1. flat.
  rewrite (collect_ok _ _ Hrec).
  unfold bind at 1. rewrite verify_loop_spec by exact Hall.
  unfold after_loop. flat. fold failed.
  unfold _display_verification_stats, for_each.
  unfold bind at 1. unfold bind at 1, logger_info at 1, emit at 1. flat.
  unfold bind at 1. unfold bind at 1, logger_info at 1, emit at 1. flat.
  unfold bind at 1, logger_info at 1, emit at 1. flat.
  unfold bind at 1, logger_info at 1, emit at 1. flat.
  unfold ret at 1. flat.
  unfold logger_info at 1, emit at 1. flat.
  cbn [checked_count verified_count failed_count Nat.add].
  unfold closing_records.
  unfold bind at 1.
  destruct (length failed =? 0) eqn:E0; cbn [negb].
  - unfold bind at 1, set_status at 1. flat.
    unfold logger_info at 1, emit at 1. flat.
    unfold bind at 1.
    destruct (String.eqb backup_name "_current_") eqn:Ec.
    + unfold _write_timestamp. destruct (test self).
      * unfold logger_info, emit, set_error. flat.
        eexists. split; [reflexivity|]. flat.
        split; [reflexivity|]. split; [|split; reflexivity].
        unfold opening_records, stats_records, ljust.
        rewrite <- ?app_assoc. reflexivity.
      * unfold bind, logger_info, emit, get_clock, get_disk, put_disk, set_error.
        flat. rewrite String.eqb_refl. flat.
        eexists. split; [reflexivity|]. flat.
        split; [reflexivity|]. split; [|split; reflexivity].
        unfold opening_records, stats_records, ljust.
        rewrite <- ?app_assoc. reflexivity.
    + unfold ret, set_error. flat.
      eexists. split; [reflexivity|]. flat.
      split; [reflexivity|]. split; [|split; reflexivity].
      unfold opening_records, stats_records, ljust.
      rewrite <- ?app_assoc. reflexivity.
  - unfold logger_error at 1, emit at 1. flat.
    unfold bind at 1.
    destruct (String.eqb backup_name "_current_") eqn:Ec.
    + unfold _write_timestamp. destruct (test self).
      * unfold logger_info, emit, set_error. flat.
        eexists. split; [reflexivity|]. flat.
        split; [reflexivity|]. split; [|split; reflexivity].
        unfold opening_records, stats_records, ljust.
        rewrite <- ?app_assoc. reflexivity.
      * unfold bind, logger_info, emit, get_clock, get_disk, put_disk, set_error.
        flat. rewrite String.eqb_refl. flat.
        eexists. split; [reflexivity|]. flat.
        split; [reflexivity|]. split; [|split; reflexivity].
        unfold opening_records, stats_records, ljust.
        rewrite <- ?app_assoc. reflexivity.
    + unfold ret, set_error. flat.
      eexists. split; [reflexivity|]. flat.
      split; [reflexivity|]. split; [|split; reflexivity].
      unfold opening_records, stats_records, ljust.
      rewrite <- ?app_assoc. reflexivity.
Qed.

Lemma verify_report_witness :
  let s := Examples.state_of Examples.tampered Examples.quiet in
  let backup := Examples.snapshot "daily_2024-01-02-000000" in
  exists s',
    verify (Examples.config false 2 1 1) "_current_" s = (Ok tt, s')
    /\ hashed s' = ["/srv/h/backups/daily_2024-01-02-000000/backup/a.txt";
                    "/srv/h/backups/daily_2024-01-02-000000/backup/b.txt"]
    /\ In {| levelname := "ERROR"; msg := "[FAILED] %s [%s => %s]";
             args := [Str "/srv/h/backups/daily_2024-01-02-000000/backup/b.txt";
                      Str "92eb5ffee6ae2fec3ad71c777531578f";
                      Str "4a8a08f09d37b73795649038408b5f33"] |} (log s')
    /\ status s' = "Backup verification failed!".
Proof.
  intros s backup.
  destruct (verify_report (Examples.config false 2 1 1) "_current_" s backup
              "/srv/h/backups/daily_2024-01-02-000000/checksums.gz"
              [("a.txt", "0cc175b9c0f1b6a831c399e269772661");
               ("b.txt", "4a8a08f09d37b73795649038408b5f33")])
    as (s' & Hrun & Hh & Hl & Hs & _).
  - reflexivity.
  - reflexivity.
  - reflexivity.
  - reflexivity.
  - repeat constructor.
    + exists "0cc175b9c0f1b6a831c399e269772661". split; [reflexivity|].
      intros H. now contradiction H.
    + exists "92eb5ffee6ae2fec3ad71c777531578f". split; [reflexivity|].
      intros _. repeat split.
  - exists s'. split; [exact Hrun|]. split; [exact Hh|]. split; [|exact Hs].
    rewrite Hl. vm_compute. tauto.
Defined.

(** C5 as stated fails: the record lists [gone.txt], which cannot be
    opened, before [b.txt], whose digest is not the stored one;
    [verify] raises at [gone.txt], and the log holds the opening
    records only: the mismatch of [b.txt] is not reported and nothing
    is counted. *)
Lemma verify_stops_at_missing_file :
  let s := Examples.state_of Examples.missing_file Examples.quiet in
  let backup := Examples.snapshot "daily_2024-01-02-000000" in
  let r := verify (Examples.config false 2 1 1) "_current_" s in
  Backup.collect (Backup.checksums backup (disk s))
  = Ok [("gone.txt", "0cc175b9c0f1b6a831c399e269772661");
        ("b.txt", "4a8a08f09d37b73795649038408b5f33")]
  /\ live (disk s) backup "b.txt" = Some "92eb5ffee6ae2fec3ad71c777531578f"
  /\ mismatch (disk s) backup ("b.txt", "4a8a08f09d37b73795649038408b5f33") = true
  /\ fst r = Raise (FileNotFoundError
                      "/srv/h/backups/daily_2024-01-02-000000/backup/gone.txt")
  /\ log (snd r)
     = opening_records backup "/srv/h/backups/daily_2024-01-02-000000/checksums.gz"
  /\ hashed (snd r) = [].
Proof. vm_compute. repeat split. Qed.

(** ** The marker of the last verification *)

Lemma frame_refl s : frame s s.
Proof. repeat split. Qed.

Lemma frame_trans s1 s2 s3 : frame s1 s2 -> frame s2 s3 -> frame s1 s3.
Proof. unfold frame. intuition congruence. Qed.

Lemma keeps_ret {A} (a : A) : keeps (ret a).
Proof. intros s. apply frame_refl. Qed.

Lemma keeps_raise {A} e : keeps (@raise A e).
Proof. intros s. apply frame_refl. Qed.

Lemma keeps_lift {A} (r : result A) : keeps (lift r).
Proof. intros s. apply frame_refl. Qed.

Lemma keeps_bind {A B} (m : M A) (k : A -> M B) :
  keeps m -> (forall a, keeps (k a)) -> keeps (bind m k).
Proof.
  intros Hm Hk s. unfold bind. specialize (Hm s).
  destruct (m s) as [[a|e] s1]; cbn [snd] in *; [|exact Hm].
  eapply frame_trans; [exact Hm|apply Hk].
Qed.

Lemma keeps_get_disk : keeps get_disk.
Proof. intros s. apply frame_refl. Qed.

Lemma keeps_get_migrated : keeps get_migrated.
Proof. intros s. apply frame_refl. Qed.

Lemma keeps_emit r : keeps (emit r).
Proof. intros s. repeat split. Qed.

Lemma keeps_logger_info m a : keeps (logger_info m a).
Proof. apply keeps_emit. Qed.

Lemma keeps_logger_error m a : keeps (logger_error m a).
Proof. apply keeps_emit. Qed.

Lemma keeps_set_status t : keeps (set_status t).
Proof. intros s. repeat split. Qed.

Lemma keeps_set_error b : keeps (set_error b).
Proof. intros s. repeat split. Qed.

Lemma keeps_set_migrated b : keeps (set_migrated b).
Proof. intros s. repeat split. Qed.

Lemma keeps_note_hashed p : keeps (note_hashed p).
Proof. intros s. repeat split. Qed.

Lemma keeps_for_each {A} (l : list A) (body : A -> M unit) :
  (forall x, keeps (body x)) -> keeps (for_each l body).
Proof.
  intros Hb. induction l as [|x l IH]; simpl; [apply keeps_ret|].
  apply keeps_bind; [apply Hb|intros _; exact IH].
Qed.

Lemma keeps_move src dst : keeps (move src dst).
Proof.
  intros s. unfold move, bind, get_disk, put_disk, raise, ret.
  repeat match goal with
         | |- context [match ?x with _ => _ end] => destruct x
         end; repeat split.
Qed.

Create HintDb keeps.

#[local] Hint Resolve keeps_ret keeps_raise keeps_lift keeps_get_disk
  keeps_get_migrated keeps_emit keeps_logger_info keeps_logger_error
  keeps_set_status keeps_set_error keeps_set_migrated keeps_note_hashed
  keeps_move : keeps.

Ltac keeps_step :=
  repeat first
    [ solve [auto with keeps]
    | apply keeps_for_each; intros ?; cbv beta
    | apply keeps_bind; [|intros ?; cbv beta]
    | match goal with
      | |- keeps (if ?c then _ else _) => destruct c
      | |- keeps (match ?x with _ => _ end) => destruct x
      end ].

Lemma keeps_migrate : keeps _migrate_backups.
Proof. unfold _migrate_backups. keeps_step. Qed.

Lemma keeps_scan : keeps scan.
Proof. unfold scan. pose proof keeps_migrate. keeps_step. Qed.

Lemma keeps_get_backups : keeps _get_backups.
Proof. unfold _get_backups. pose proof keeps_scan. keeps_step. Qed.

Lemma keeps_get_latest_backup : keeps _get_latest_backup.
Proof. unfold _get_latest_backup. pose proof keeps_get_backups. keeps_step. Qed.

Lemma keeps_get_backup_by_name n : keeps (_get_backup_by_name n).
Proof. unfold _get_backup_by_name. keeps_step. Qed.

Lemma keeps_get_file_md5 p : keeps (_get_file_md5 p).
Proof. unfold _get_file_md5. keeps_step. Qed.

Lemma keeps_verify_loop backup g : forall c, keeps (verify_loop backup g c).
Proof.
  induction g as [|[[f h]|e] g IH]; intros c; simpl.
  - apply keeps_ret.
  - pose proof keeps_get_file_md5. keeps_step; apply IH.
  - apply keeps_raise.
Qed.

Lemma keeps_display_verification_stats l : keeps (_display_verification_stats l).
Proof. unfold _display_verification_stats. keeps_step. Qed.

(** What [_write_timestamp] does to the marker file. *)
Lemma write_timestamp_marker self s :
  let r := _write_timestamp self (last_verification_file (disk s)) s in
  fst r = Ok tt
  /\ marker (snd r) = (if test self then marker s
                       else Some (datetime.text (clock s)))
  /\ clock (snd r) = clock s.
Proof.
  unfold _write_timestamp. destruct (test self); [repeat split|].
  unfold bind, logger_info, emit, get_clock, get_disk, put_disk. cbn [fst snd disk clock].
  rewrite String.eqb_refl. repeat split.
Qed.

Lemma bind_inv {A B} (m : M A) (k : A -> M B) s r s' :
  bind m k s = (r, s') ->
  (exists a s1, m s = (Ok a, s1) /\ k a s1 = (r, s'))
  \/ (exists e, m s = (Raise e, s') /\ r = Raise e).
Proof.
  unfold bind. destruct (m s) as [[a|e] s1]; intros H.
  - left. eauto.
  - right. injection H as <- <-. eauto.
Qed.

Lemma keeps_run {A} (m : M A) s r s' : keeps m -> m s = (r, s') -> frame s s'.
Proof. intros K E. specialize (K s). now rewrite E in K. Qed.

(** One step of a run: either the first computation raised, and the
    frame settles the goal, or the run goes on from a framed state. *)
Ltac run_step E K F :=
  let E1 := fresh "E" in
  apply bind_inv in E as [(? & ? & E1 & E) | (? & E1 & ->)];
  [ pose proof (keeps_run _ _ _ _ K E1) as F
  | pose proof (keeps_run _ _ _ _ K E1) as F ].

(** C6, as amended.  [verify] rewrites the marker of the last
    verification, with the time of the clock, exactly when it is asked
    for the current snapshot, is no dry run and runs to its end, be it
    with or without mismatches; in every other case (a named snapshot,
    a dry run, an exception) the marker is as before. *)
Theorem verify_marker (self : t) (backup_name : string) (s : state) :
  marker (snd (verify self backup_name s))
  = if is_ok (fst (verify self backup_name s))
       && String.eqb backup_name "_current_" && negb (test self)
    then Some (datetime.text (clock s))
    else marker s.
Proof.
  destruct (verify self backup_name s) as [r s'] eqn:E. cbn [fst snd].
  unfold verify in E.
  assert (Hraise : forall s1 : state, frame s s1 ->
            marker s1 = (if is_ok (@Raise unit (BackupException "")) && String.eqb backup_name "_current_"
                            && negb (test self)
                         then Some (datetime.text (clock s)) else marker s)).
  { intros s1 (H & _). exact H. }
  run_step E (keeps_set_status "Backup verification failed!") F1;
    [|apply (Hraise _ F1)].
  run_step E (keeps_set_error true) F2;
    [|apply (Hraise _ (frame_trans _ _ _ F1 F2))].
  pose proof (frame_trans _ _ _ F1 F2) as F12.
  assert (K3 : keeps (if String.eqb backup_name "_current_"
                      then _get_latest_backup
                      else _get_backup_by_name backup_name)).
  { destruct (String.eqb backup_name "_current_");
      [apply keeps_get_latest_backup|apply keeps_get_backup_by_name]. }
  run_step E K3 F3; [|apply (Hraise _ (frame_trans _ _ _ F12 F3))].
  pose proof (frame_trans _ _ _ F12 F3) as F13.
  match type of E with
  | match ?b with _ => _ end _ = _ => destruct b as [backup|]
  end; [|injection E as <- <-; apply (Hraise _ F13)].
  run_step E (keeps_logger_info "Initializing checksum verification for %s"
                [Str (Backup.path backup)]) F4;
    [|apply (Hraise _ (frame_trans _ _ _ F13 F4))].
  pose proof (frame_trans _ _ _ F13 F4) as F14.
  apply bind_inv in E as [(d & s5 & E5 & E) | (e & E5 & ->)]; [|discriminate E5].
  unfold get_disk in E5. injection E5 as <- <-.
  pose proof F14 as F15.
  match type of E with
  | match ?b with _ => _ end _ = _ => destruct b as [checksum_file|]
  end; [|injection E as <- <-; apply (Hraise _ F15)].
  run_step E (keeps_logger_info "Selected checksum file: %s" [Str checksum_file]) F6;
    [|apply (Hraise _ (frame_trans _ _ _ F15 F6))].
  pose proof (frame_trans _ _ _ F15 F6) as F16.
  run_step E (keeps_logger_info "Starting backup verification..." []) F7;
    [|apply (Hraise _ (frame_trans _ _ _ F16 F7))].
  pose proof (frame_trans _ _ _ F16 F7) as F17.
  apply bind_inv in E as [(c & s8 & E8 & E) | (e & E8 & ->)];
    pose proof (keeps_run _ _ _ _ (keeps_verify_loop _ _ _) E8) as F8;
    [|apply (Hraise _ (frame_trans _ _ _ F17 F8))].
  pose proof (frame_trans _ _ _ F17 F8) as F18.
  apply bind_inv in E as [(u9 & s9 & E9 & E) | (e & E9 & ->)];
    pose proof (keeps_run _ _ _ _ (keeps_display_verification_stats _) E9) as F9;
    [|apply (Hraise _ (frame_trans _ _ _ F18 F9))].
  pose proof (frame_trans _ _ _ F18 F9) as F19.
  assert (K10 : keeps
            (if negb (failed_count c =? 0)
             then logger_error "Backup verification failed!" []
             else
               do* set_status "Backup verification completed successfully!" in
               logger_info "Backup verification completed successfully!" [])).
  { destruct (negb (failed_count c =? 0)); keeps_step. }
  run_step E K10 F10; [|apply (Hraise _ (frame_trans _ _ _ F19 F10))].
  pose proof (frame_trans _ _ _ F19 F10) as F110.
  apply bind_inv in E as [(u11 & s11 & E11 & E) | (e & E11 & ->)].
  - (* the marker step returned *)
    unfold set_error in E. injection E as <- <-. unfold marker in *.
    cbn [is_ok andb disk].
    destruct (String.eqb backup_name "_current_") eqn:Eb; cbn [andb].
    + match type of E11 with
      | _write_timestamp _ (last_verification_file (disk ?sa)) ?sb = _ =>
          assert (Hp : last_verification_file (disk sa) = last_verification_file (disk sb))
      end.
      { unfold last_verification_file, cache_dir.
        destruct F6 as (_ & _ & P6), F7 as (_ & _ & P7),
                 F8 as (_ & _ & P8), F9 as (_ & _ & P9), F10 as (_ & _ & P10).
        congruence. }
      rewrite Hp in E11.
      match type of E11 with
      | _write_timestamp _ _ ?sb = _ =>
          destruct (write_timestamp_marker self sb) as (_ & Hmk & _)
      end.
      rewrite E11 in Hmk. cbn [snd] in Hmk. unfold marker in Hmk. rewrite Hmk.
      destruct F110 as (Hm & Hc & _). unfold marker in Hm. rewrite Hm, Hc.
      destruct (test self); reflexivity.
    + injection E11 as _ <-. destruct F110 as (Hm & _). exact Hm.
  - (* the marker step raised: it never does *)
    exfalso. destruct (String.eqb backup_name "_current_") eqn:Eb; [|discriminate].
    match type of E11 with
    | _write_timestamp _ ?p ?sb = _ =>
        unfold _write_timestamp in E11; destruct (test self);
        [discriminate|]
    end.
    unfold bind, logger_info, emit, get_clock, get_disk, put_disk, ret in E11.
    cbn [fst snd disk] in E11.
    destruct (String.eqb _ _) in E11; discriminate.
Qed.

(** C6 as stated fails in both directions: a verification of the
    current snapshot that finds a mismatch still rewrites the marker,
    and one that succeeds in a dry run does not. *)
Lemma marker_not_tied_to_success :
  let s := Examples.state_of Examples.tampered Examples.quiet in
  (fst (verify (Examples.config false 2 1 1) "_current_" s) = Ok tt
   /\ status (snd (verify (Examples.config false 2 1 1) "_current_" s))
      = "Backup verification failed!"
   /\ marker s = None
   /\ marker (snd (verify (Examples.config false 2 1 1) "_current_" s))
      = Some "2024-01-03 04:05:06")
  /\ (fst (verify (Examples.config true 2 1 1) "_current_" s) = Ok tt
      /\ marker (snd (verify (Examples.config true 2 1 1) "_current_" s)) = None).
Proof. vm_compute. repeat split. Qed.

(** ** Running the transfer *)

Lemma read_output_spec lines : forall acc s,
  Forall well_formed lines ->
  read_output lines acc s
  = (Ok (acc ++ events lines),
     {| disk := disk s; clock := clock s; transfer := transfer s;
        migrated := migrated s; status := status s; error := error s;
        log := log s ++ map echoed lines; hashed := hashed s |}).
Proof.
  induction lines as [|line lines IH]; intros acc s Hall.
  - simpl. unfold ret. rewrite !app_nil_r. now destruct s.
  - apply Forall_cons_iff in Hall as [[Hdec Hev] Hall].
    cbn [read_output]. rewrite Hdec. cbn [negb].
    unfold bind at 1, logger_info at 1, emit at 1. flat.
    unfold events. cbn [flat_map]. fold (events lines).
    unfold event in *.
    destruct (Bytes.startswith (Bytes.strip line) ">").
    + specialize (Hev eq_refl).
      destruct (Bytes.split " " 2 (Bytes.strip line)) as [|a [|b [|c [|x l]]]];
        try congruence.
      rewrite IH by exact Hall. flat. cbn [map app].
      now rewrite <- !app_assoc.
    + rewrite IH by exact Hall. flat. cbn [map app].
      now rewrite <- !app_assoc.
Qed.

Lemma run_rsync_spec rsync_command s :
  let p := transfer s rsync_command (disk s) in
  Forall well_formed (stdout p) ->
  _run_rsync rsync_command s
  = (if Z.eqb (returncode p) 0 then Ok (events (stdout p))
     else Raise (BackupException
                   ("Rsync returned non-zero exit code [ "
                    +:+ str_of_int (returncode p) +:+ " ]")),
     {| disk := transferred rsync_command p (disk s); clock := clock s;
        transfer := transfer s; migrated := migrated s; status := status s;
        error := error s; log := log s ++ map echoed (stdout p);
        hashed := hashed s |}).
Proof.
  intros p Hall. unfold _run_rsync, Popen.
  unfold bind at 1. unfold bind at 1, get_transfer at 1. flat.
  unfold bind at 1, get_disk at 1. flat. fold p.
  unfold bind at 1. unfold transferred.
  destruct (existsb (String.eqb "-n") rsync_command).
  - unfold ret at 1. flat. unfold ret at 1. flat.
    unfold bind at 1. rewrite read_output_spec by exact Hall. flat.
    cbn [app]. destruct (Z.eqb (returncode p) 0); reflexivity.
  - unfold put_disk at 1. flat. unfold ret at 1. flat.
    unfold bind at 1. rewrite read_output_spec by exact Hall. flat.
    cbn [app]. destruct (Z.eqb (returncode p) 0); reflexivity.
Qed.

Lemma at_path_map dir l g q :
  (forall e, Disk.name (g e) = Disk.name e) ->
  Disk.at_path dir (map g l) q = option_map g (Disk.at_path dir l q).
Proof.
  intros Hg. unfold Disk.at_path.
  induction l as [|e l IH]; simpl; [reflexivity|].
  rewrite Hg. destruct (String.eqb _ _); [reflexivity|exact IH].
Qed.

Lemma transferred_names cmd p d :
  map Disk.name (Disk.backups (transferred cmd p d)) = map Disk.name (Disk.backups d)
  /\ map Disk.checksums_gz (Disk.backups (transferred cmd p d))
     = map Disk.checksums_gz (Disk.backups d)
  /\ forall q e, Disk.snapshot_at d q = Some e ->
       exists e', Disk.snapshot_at (transferred cmd p d) q = Some e'
                  /\ Disk.name e' = Disk.name e.
Proof.
  unfold transferred. destruct (existsb _ _); [repeat split; eauto|].
  cbn [Disk.backups Disk.with_backups]. unfold Disk.update_path.
  split; [|split].
  - rewrite map_map. apply map_ext. intros e. now destruct (String.eqb _ _).
  - rewrite map_map. apply map_ext. intros e. now destruct (String.eqb _ _).
  - intros q e He. unfold Disk.snapshot_at in *.
    cbn [Disk.backups Disk.with_backups].
    change (Disk.backups_dir (Disk.with_backups d _)) with (Disk.backups_dir d).
    rewrite at_path_map, He; [|intros x; now destruct (String.eqb _ _)].
    cbn [option_map]. eexists. split; [reflexivity|].
    now destruct (String.eqb _ _).
Qed.

(** C7.  Let the transfer be configured and let the sync program print
    lines the reading loop can take.  If it exits with a code other
    than 0, [backup()] raises [BackupException]; no file was hashed and
    no checksum file written; every directory keeps its name, so the
    snapshot under construction is still there as [incomplete_*].  If
    it exits with 0, [_run_rsync] returns the pairs of its [>] lines. *)
Theorem transfer_exit_code (self : t) (_remove_old_logs : M unit) (s s1 : state)
    (backup : Backup.t) (rsync_command : list string) :
  Backup.new (os_path.join (Disk.backups_dir (disk s))
                ("incomplete_" +:+ timestamp self)) = Ok backup ->
  _configure_rsync self backup (started s) = (Ok rsync_command, s1) ->
  let p := transfer s1 rsync_command (disk s1) in
  Forall well_formed (stdout p) ->
  (returncode p <> 0%Z ->
   exists s2,
     RsyncBackup.backup self _remove_old_logs s
     = (Raise (BackupException
                 ("Rsync returned non-zero exit code [ "
                  +:+ str_of_int (returncode p) +:+ " ]")), s2)
     /\ hashed s2 = hashed s1
     /\ map Disk.name (Disk.backups (disk s2)) = map Disk.name (Disk.backups (disk s1))
     /\ map Disk.checksums_gz (Disk.backups (disk s2))
        = map Disk.checksums_gz (Disk.backups (disk s1))
     /\ (forall e, Disk.snapshot_at (disk s1) (Backup.path backup) = Some e ->
           exists e', Disk.snapshot_at (disk s2) (Backup.path backup) = Some e'
                      /\ Disk.name e' = Disk.name e))
  /\ (returncode p = 0%Z ->
      fst (_run_rsync rsync_command s1) = Ok (events (stdout p))).
Proof.
  intros Hnew Hconf p Hall. split.
  - intros Hcode. unfold RsyncBackup.backup.
    unfold bind at 1. unfold bind at 1. unfold bind at 1, get_disk at 1.
    change (snd (set_error true (snd (set_status "Backup failed!" s))))
      with (started s).
    change (fst (set_status "Backup failed!" s)) with (@Ok unit tt).
    change (fst (set_error true (snd (set_status "Backup failed!" s))))
      with (@Ok unit tt).
    cbv beta iota.
    change (set_status "Backup failed!" s)
      with (Ok tt, snd (set_status "Backup failed!" s)).
    cbv beta iota.
    change (set_error true (snd (set_status "Backup failed!" s)))
      with (Ok tt, started s).
    cbv beta iota.
    change (disk (started s)) with (disk s).
    unfold bind at 1, lift at 1. rewrite Hnew. flat.
    unfold bind at 1. rewrite Hconf.
    unfold bind at 1, logger_info at 1, emit at 1. flat.
    unfold bind at 1, logger_info at 1, emit at 1. flat.
    unfold bind at 1.
    match goal with
    | |- context [_run_rsync rsync_command ?st] =>
        pose proof (run_rsync_spec rsync_command st) as Hrun
    end.
    flat. cbn [transfer disk] in Hrun. fold p in Hrun.
    rewrite (Hrun Hall). apply Z.eqb_neq in Hcode. rewrite Hcode.
    eexists. split; [reflexivity|]. flat.
    destruct (transferred_names rsync_command p (disk s1)) as (Hn & Hg & Hat).
    split; [reflexivity|]. split; [exact Hn|]. split; [exact Hg|].
    intros e He. now apply Hat.
  - intros Hcode. rewrite (run_rsync_spec rsync_command s1 Hall).
    fold p. rewrite Hcode. reflexivity.
Qed.

Lemma transfer_exit_code_witness :
  let self := Examples.config false 2 1 1 in
  let s := Examples.state_of Examples.resumable Examples.failing in
  exists s2,
    RsyncBackup.backup self (ret tt) s
    = (Raise (BackupException "Rsync returned non-zero exit code [ 23 ]"), s2)
    /\ map Disk.name (Disk.backups (disk s2))
       = ["daily_2024-01-01-000000"; "incomplete_2024-01-03-040506"]
    /\ map Disk.checksums_gz (Disk.backups (disk s2)) = [None; None]
    /\ hashed s2 = [].
Proof.
  intros self s.
  pose (backup := Examples.snapshot "incomplete_2024-01-03-040506").
  pose (c := _configure_rsync self backup (started s)).
  destruct (transfer_exit_code self (ret tt) s (snd c) backup
              (match fst c with Ok l => l | Raise _ => [] end))
    as [H _].
  - reflexivity.
  - vm_compute. reflexivity.
  - repeat constructor; vm_compute; congruence.
  - destruct (H ltac:(vm_compute; discriminate)) as (s2 & Hrun & Hh & Hn & Hg & _).
    exists s2. split; [exact Hrun|]. split; [exact Hn|]. split; [exact Hg|exact Hh].
Defined.

(** ** Checksum reconciliation *)

#[local] Set Warnings "-clear-no-such-hyp".

Lemma entries_for_app f l1 l2 :
  entries_for f (l1 ++ l2) = entries_for f l1 ++ entries_for f l2.
Proof. apply List.filter_app. Qed.

Lemma entries_for_absent f l :
  ~ In f (map fst l) -> entries_for f l = [] /\ lookup_first f l = None.
Proof.
  unfold entries_for, lookup_first.
  induction l as [|[x c] l IH]; simpl; intros H; [split; reflexivity|].
  destruct (String.eqb_spec x f) as [->|Hne]; [exfalso; apply H; now left|].
  apply IH. intros Hin. apply H. now right.
Qed.

Lemma entries_for_nodup f l :
  List.NoDup (map fst l) ->
  entries_for f l = match lookup_first f l with Some c => [(f, c)] | None => [] end.
Proof.
  unfold entries_for, lookup_first.
  induction l as [|[x c] l IH]; simpl; intros H; [reflexivity|].
  apply List.NoDup_cons_iff in H as [Hx H].
  destruct (String.eqb_spec x f) as [->|Hne]; simpl.
  - destruct (entries_for_absent f l Hx) as [Ha _]. unfold entries_for in Ha.
    now rewrite Ha.
  - now apply IH.
Qed.

Lemma lookup_first_In f l c : lookup_first f l = Some c -> In f (map fst l).
Proof.
  unfold lookup_first. destruct (List.find _ l) as [e|] eqn:E; [|discriminate].
  intros _. apply find_some in E as [Hin He]. apply String.eqb_eq in He. subst.
  now apply in_map.
Qed.

Lemma lookup_first_None f l : lookup_first f l = None -> ~ In f (map fst l).
Proof.
  unfold lookup_first. destruct (List.find _ l) as [e|] eqn:E; [discriminate|].
  intros _ Hin. apply in_map_iff in Hin as (e & <- & He).
  apply (find_none _ _ E) in He. now rewrite String.eqb_refl in He.
Qed.

Lemma reuse_loop_spec prior : forall (need : gset string) cs,
  exists inherited,
    reuse_loop (map Ok prior) need cs
    = Ok (cs ++ inherited, need ∖ list_to_set (map fst prior))
    /\ forall f,
         entries_for f inherited
         = if decide (f ∈ need)
           then match lookup_first f prior with Some c => [(f, c)] | None => [] end
           else [].
Proof.
  induction prior as [|[x c] prior IH]; intros need cs.
  - exists []. split.
    + simpl. rewrite app_nil_r. f_equal. f_equal. set_solver.
    + intros f. simpl. now destruct (decide _).
  - cbn [map reuse_loop]. destruct (decide (x ∈ need)) as [Hx|Hx].
    + destruct (IH (need ∖ {[x]}) (cs ++ [(x, c)])) as (inh & -> & Hinh).
      exists ((x, c) :: inh). split.
      * rewrite <- app_assoc. f_equal. f_equal. cbn [map fst list_to_set]. set_solver.
      * intros f. unfold entries_for in *. cbn [List.filter fst].
        unfold lookup_first. cbn [List.find fst].
        specialize (Hinh f).
        destruct (String.eqb_spec x f) as [->|Hne].
        -- rewrite Hinh. destruct (decide (f ∈ need ∖ {[f]})) as [H|H]; [set_solver|].
           destruct (decide (f ∈ need)); [reflexivity|contradiction].
        -- rewrite Hinh. fold (lookup_first f prior).
           destruct (decide (f ∈ need ∖ {[x]})) as [H|H];
             destruct (decide (f ∈ need)) as [H'|H']; try reflexivity; set_solver.
    + destruct (IH need cs) as (inh & -> & Hinh).
      exists inh. split.
      * f_equal. f_equal. cbn [map fst list_to_set]. set_solver.
      * intros f. rewrite Hinh. unfold lookup_first. cbn [List.find fst].
        destruct (String.eqb_spec x f) as [->|Hne]; [|reflexivity].
        destruct (decide (f ∈ need)); [contradiction|reflexivity].
Qed.

Lemma hash_loop_spec backup files : forall cs s,
  (forall f, In f files ->
     Disk.file_md5 (disk s) (os_path.join (Backup.backup_dir backup) f) <> None) ->
  hash_loop backup files cs s
  = (Ok (cs ++ map (fun f =>
                 (f, match Disk.file_md5 (disk s)
                             (os_path.join (Backup.backup_dir backup) f) with
                     | Some c => c
                     | None => ""
                     end)) files),
     {| disk := disk s; clock := clock s; transfer := transfer s;
        migrated := migrated s; status := status s; error := error s;
        log := log s;
        hashed := hashed s
                  ++ map (os_path.join (Backup.backup_dir backup)) files |}).
Proof.
  induction files as [|f files IH]; intros cs s Hall.
  - simpl. unfold ret. rewrite !app_nil_r. now destruct s.
  - cbn [hash_loop]. unfold bind at 1, _get_file_md5, bind, get_disk, note_hashed, ret.
    flat. specialize (Hall f (or_introl eq_refl)) as Hf.
    destruct (Disk.file_md5 (disk s) _) as [c|] eqn:E; [|congruence]. flat.
    rewrite IH; flat.
    + cbn [map]. rewrite E. now rewrite <- !app_assoc.
    + intros g Hg. apply Hall. now right.
Qed.

Lemma substring_all s : String.substring 0 (String.length s) s = s.
Proof. induction s as [|c s IH]; simpl; [reflexivity|now rewrite IH]. Qed.

Lemma from_app a b : Bytes.from (String.length a) (a +:+ b) = b.
Proof.
  unfold Bytes.from. induction a as [|c a IH]; simpl.
  - rewrite Nat.sub_0_r. apply substring_all.
  - exact IH.
Qed.

Lemma append_assoc a b c : (a +:+ b) +:+ c = a +:+ (b +:+ c).
Proof.
  induction a as [|x a IH]; [reflexivity|].
  change (String x ((a +:+ b) +:+ c) = String x (a +:+ (b +:+ c))).
  now rewrite IH.
Qed.

Lemma join_backup_rel p f :
  Bytes.startswith f "/" = false ->
  os_path.join (os_path.join p "backup") f = os_path.join p "backup" +:+ "/" +:+ f.
Proof.
  intros Hf. unfold os_path.join at 1. rewrite Hf.
  assert (H : exists x, os_path.join p "backup" = x +:+ "backup").
  { unfold os_path.join. cbn [Bytes.startswith String.prefix].
    destruct (_ || _); [now exists p|].
    exists (p +:+ "/"). symmetry. apply (append_assoc p "/" "backup"). }
  destruct H as [x ->].
  assert (H1 : String.eqb (x +:+ "backup") "" = false).
  { destruct x; reflexivity. }
  rewrite H1. rewrite to_list_app, rev_app_distr. reflexivity.
Qed.

Lemma find_present {A} (f : A -> bool) l x :
  In x l -> f x = true -> List.find f l <> None.
Proof.
  intros Hin Hf E. apply (find_none _ _ E) in Hin. congruence.
Qed.

Lemma file_md5_present d backup e files f :
  Disk.snapshot_at d (Backup.path backup) = Some e ->
  Disk.tree e = Some files ->
  Backup.backup_dir backup = os_path.join (Backup.path backup) "backup" ->
  In f (map fst files) ->
  Bytes.startswith f "/" = false ->
  Disk.file_md5 d (os_path.join (Backup.backup_dir backup) f) <> None.
Proof.
  intros He Ht Hbd Hin Hrel. unfold Disk.file_md5.
  apply in_map_iff in Hin as ([f' h] & <- & Hin). cbn [fst] in *.
  match goal with
  | |- match ?x with _ => _ end <> None =>
      assert (Hx : x <> None); [|destruct x as [[q c]|]; congruence]
  end.
  unfold Disk.snapshot_at, Disk.at_path in He. apply find_some in He as [He Hp].
  apply String.eqb_eq in Hp.
  apply (find_present _ _ (Backup.backup_dir backup +:+ "/" +:+ f', h)).
  - unfold Disk.files_of. apply in_flat_map. exists e. split; [exact He|].
    rewrite Ht. apply in_map_iff. exists (f', h). split; [|exact Hin].
    now rewrite Hp, Hbd.
  - rewrite Hbd, join_backup_rel by exact Hrel. apply String.eqb_refl.
Qed.

Lemma stripped_paths backup (files : list (string * string)) :
  map (Bytes.from (String.length (Backup.backup_dir backup +:+ "/")))
      (map (fun f => Backup.backup_dir backup +:+ "/" +:+ fst f) files)
  = map fst files.
Proof.
  rewrite map_map. apply map_ext. intros f.
  rewrite <- append_assoc. apply from_app.
Qed.

Lemma mem_spec f l : reflect (In f l) (mem f l).
Proof.
  unfold mem. destruct (existsb (String.eqb f) l) eqn:E; constructor.
  - apply existsb_exists in E as (x & Hx & He). apply String.eqb_eq in He. now subst.
  - intros Hin. assert (existsb (String.eqb f) l = true); [|congruence].
    apply existsb_exists. exists f. split; [exact Hin|apply String.eqb_refl].
Qed.

Lemma entries_for_hashed f (g : string -> string) files :
  List.NoDup files ->
  entries_for f (map (fun x => (x, g x)) files)
  = if mem f files then [(f, g f)] else [].
Proof.
  unfold entries_for. induction files as [|x files IH]; intros Hnd.
  - reflexivity.
  - apply List.NoDup_cons_iff in Hnd as [Hx Hnd]. cbn [map List.filter fst].
    rewrite (IH Hnd).
    destruct (String.eqb_spec x f) as [->|Hne].
    + destruct (mem_spec f files); [contradiction|].
      destruct (mem_spec f (f :: files)) as [_|H]; [reflexivity|].
      exfalso. apply H. now left.
    + destruct (mem_spec f files) as [H|H];
        destruct (mem_spec f (x :: files)) as [H'|H']; try reflexivity.
      * exfalso. apply H'. now right.
      * destruct H' as [->|H']; contradiction.
Qed.

(** C4, as amended.  On a migrated catalog, for a snapshot whose files
    have relative paths, with a latest snapshot whose checksum file, if
    any, can be read: when the paths the transfer reports are pairwise
    distinct and all present, [_get_checksums] returns a list with
    exactly one entry for every present file and none for any other
    path.  The checksum of a present file is the transfer's if the
    transfer reported it, else the first one recorded for it in the
    latest snapshot, else the digest of the file itself; and the files
    hashed are just those of the third kind. *)
Theorem get_checksums_spec (backup latest_backup : Backup.t) (s : state)
    (e : Disk.entry) (files rsync_checksums prior : list (string * string)) :
  migrated s = true ->
  Disk.snapshot_at (disk s) (Backup.path backup) = Some e ->
  Disk.tree e = Some files ->
  Backup.backup_dir backup = os_path.join (Backup.path backup) "backup" ->
  (forall f, In f (map fst files) -> Bytes.startswith f "/" = false) ->
  fst (_get_latest_backup s) = Ok (Some latest_backup) ->
  Backup.collect (Backup.checksums latest_backup (disk s)) = Ok prior ->
  List.NoDup (map fst rsync_checksums) ->
  (forall f, In f (map fst rsync_checksums) -> In f (map fst files)) ->
  exists checksums s' direct,
    _get_checksums backup rsync_checksums s = (Ok checksums, s')
    /\ (forall f,
          entries_for f checksums
          = if mem f (map fst files)
            then [(f, chosen (disk s) backup rsync_checksums prior f)]
            else [])
    /\ hashed s'
       = hashed s ++ map (os_path.join (Backup.backup_dir backup)) direct
    /\ (forall f,
          In f direct
          <-> In f (map fst files) /\ ~ In f (map fst rsync_checksums)
              /\ ~ In f (map fst prior)).
Proof.
  intros Hm He Ht Hbd Hrel Hlatest Hprior Hnd Hsub.
  unfold _get_checksums.
  unfold bind at 1, logger_info at 1, emit at 1. flat.
  unfold bind at 1, get_disk at 1. flat.
  unfold bind at 1, lift at 1, Backup.get_files. rewrite He, Ht. flat.
  rewrite stripped_paths.
  unfold bind at 1, logger_info at 1, emit at 1. flat.
  unfold bind at 1.
  match goal with
  | |- context [_get_latest_backup ?st] =>
      assert (Hl : _get_latest_backup st = (Ok (Some latest_backup), st))
  end.
  { rewrite get_latest_backup_run in * by exact Hm. flat. cbn [fst] in Hlatest.
    now rewrite Hlatest. }
  rewrite Hl. unfold bind at 1, get_disk at 1. flat.
  set (need0 := (list_to_set (map fst files) ∖ list_to_set (map fst rsync_checksums)
                 : gset string)).
  destruct (reuse_loop_spec prior need0 rsync_checksums) as (inh & Hreuse & Hinh).
  assert (Hcn : exists sA,
    (match fst (Backup.checksum_file latest_backup (disk s)) with
     | Some checksum_file =>
         do* logger_info "Reusing unchanged checksums from %s" [Str checksum_file] in
         lift (reuse_loop (Backup.checksums latest_backup (disk s))
                 need0 rsync_checksums)
     | None => ret (rsync_checksums, need0)
     end)
      {| disk := disk s; clock := clock s; transfer := transfer s;
         migrated := migrated s; status := status s; error := error s;
         log := (log s
                 ++ [{| levelname := "INFO";
                        msg := "Getting checksums for backup files...";
                        args := [] |}])
                ++ [{| levelname := "INFO";
                       msg := "Using %d checksums from rsync";
                       args := [Int (Z.of_nat (length rsync_checksums))] |}];
         hashed := hashed s |}
    = (Ok (rsync_checksums ++ inh, need0 ∖ list_to_set (map fst prior)), sA)
    /\ disk sA = disk s /\ hashed sA = hashed s).
  { destruct (fst (Backup.checksum_file latest_backup (disk s))) as [cf|] eqn:Ecf.
    - unfold bind, logger_info, emit, lift. flat.
      rewrite (collect_ok _ _ Hprior), Hreuse. eexists. repeat split.
    - assert (Hp0 : prior = []).
      { unfold Backup.checksums in Hprior.
        destruct (Backup.checksum_file latest_backup (disk s)) as [[x|] v];
          [discriminate|]. simpl in Hprior. now injection Hprior as <-. }
      subst prior. cbn [map reuse_loop] in Hreuse. injection Hreuse as H1 H2.
      unfold ret. rewrite <- H1.
      assert (Hn : need0 ∖ list_to_set (map fst (@nil (string * string))) = need0)
        by set_solver.
      rewrite Hn. eexists. repeat split. }
  destruct Hcn as (sA & HcA & HdA & HhA).
  unfold bind at 1. rewrite HcA. cbn [fst snd].
  unfold bind at 1, logger_info at 1, emit at 1. flat.
  set (need2 := ((need0 ∖ list_to_set (map fst prior))
                 ∖ list_to_set (map fst (rsync_checksums ++ inh)) : gset string)).
  assert (Hneed2 : forall f, f ∈ need2 <->
            In f (map fst files) /\ ~ In f (map fst rsync_checksums)
            /\ ~ In f (map fst prior)).
  { intros f. unfold need2, need0.
    rewrite !elem_of_difference, !elem_of_list_to_set, <- !list_elem_of_In.
    split; [tauto|]. intros (H1 & H2 & H3). repeat split; try assumption.
    rewrite list_elem_of_In, map_app, in_app_iff. intros [H|H]; [now apply H2, list_elem_of_In|].
    (* an inherited path is a prior path *)
    apply in_map_iff in H as ([f' c] & <- & Hin). cbn [fst] in *.
    assert (Hf : In (f', c) (entries_for f' inh)).
    { apply filter_In. split; [exact Hin|apply String.eqb_refl]. }
    rewrite Hinh in Hf. destruct (decide _); [|destruct Hf].
    destruct (lookup_first f' prior) eqn:El; [|destruct Hf].
    apply H3, list_elem_of_In. eapply lookup_first_In; eauto. }
  rewrite hash_loop_spec.
  2:{ intros f Hf. flat. rewrite HdA.
      apply (file_md5_present _ _ _ _ _ He Ht Hbd).
      - apply Hneed2. apply elem_of_elements. now apply list_elem_of_In.
      - apply Hrel. apply Hneed2. apply elem_of_elements. now apply list_elem_of_In. }
  flat. rewrite HdA, HhA.
  eexists. eexists. exists (elements need2).
  split; [reflexivity|]. split; [|split; [reflexivity|]].
  - intros f. rewrite !entries_for_app, Hinh.
    rewrite (entries_for_nodup f rsync_checksums Hnd).
    rewrite entries_for_hashed by (apply NoDup_ListNoDup, NoDup_elements).
    unfold chosen.
    destruct (lookup_first f rsync_checksums) as [c|] eqn:Er.
    + (* reported by the transfer *)
      assert (HR : In f (map fst rsync_checksums)) by (eapply lookup_first_In; eauto).
      destruct (mem_spec f (map fst files)) as [_|H]; [|exfalso; auto].
      destruct (decide (f ∈ need0)) as [H|_].
      { exfalso. unfold need0 in H.
        rewrite elem_of_difference, !elem_of_list_to_set, !list_elem_of_In in H.
        tauto. }
      destruct (mem_spec f (elements need2)) as [H|_]; [|reflexivity].
      exfalso. apply list_elem_of_In, elem_of_elements, Hneed2 in H. tauto.
    + apply lookup_first_None in Er.
      destruct (mem_spec f (map fst files)) as [HP|HP].
      * destruct (decide (f ∈ need0)) as [_|H].
        2:{ exfalso. apply H. unfold need0.
            rewrite elem_of_difference, !elem_of_list_to_set, !list_elem_of_In.
            tauto. }
        destruct (lookup_first f prior) as [c|] eqn:Ep.
        -- destruct (mem_spec f (elements need2)) as [H|_]; [|reflexivity].
           exfalso. apply list_elem_of_In, elem_of_elements, Hneed2 in H.
           destruct H as (_ & _ & H). apply H. eapply lookup_first_In; eauto.
        -- apply lookup_first_None in Ep.
           destruct (mem_spec f (elements need2)) as [_|H]; [reflexivity|].
           exfalso. apply H, list_elem_of_In, elem_of_elements, Hneed2. tauto.
      * destruct (decide (f ∈ need0)) as [H|_].
        { exfalso. unfold need0 in H.
          rewrite elem_of_difference, !elem_of_list_to_set, !list_elem_of_In in H.
          tauto. }
        destruct (mem_spec f (elements need2)) as [H|_]; [|reflexivity].
        exfalso. apply list_elem_of_In, elem_of_elements, Hneed2 in H. tauto.
  - intros f. rewrite <- Hneed2, <- elem_of_elements. symmetry. apply list_elem_of_In.
Qed.

Lemma get_checksums_spec_witness :
  let s := Examples.state_of Examples.reconciling Examples.quiet in
  let backup := Examples.snapshot "incomplete_2024-01-03-040506" in
  exists checksums s',
    _get_checksums backup [("b.txt", "92eb5ffee6ae2fec3ad71c777531578f")] s
    = (Ok checksums, s')
    /\ entries_for "a.txt" checksums = [("a.txt", "0cc175b9c0f1b6a831c399e269772661")]
    /\ entries_for "b.txt" checksums = [("b.txt", "92eb5ffee6ae2fec3ad71c777531578f")]
    /\ entries_for "c.txt" checksums = []
    /\ hashed s' = [].
Proof.
  intros s backup.
  destruct (get_checksums_spec backup (Examples.snapshot "daily_2024-01-02-000000") s
              (Examples.dir "incomplete_2024-01-03-040506"
                 (Some [("a.txt", "0cc175b9c0f1b6a831c399e269772661");
                        ("b.txt", "92eb5ffee6ae2fec3ad71c777531578f")]) None None)
              [("a.txt", "0cc175b9c0f1b6a831c399e269772661");
               ("b.txt", "92eb5ffee6ae2fec3ad71c777531578f")]
              [("b.txt", "92eb5ffee6ae2fec3ad71c777531578f")]
              [("a.txt", "0cc175b9c0f1b6a831c399e269772661")])
    as (checksums & s' & direct & Hrun & Hentries & Hhashed & Hdirect).
  - reflexivity.
  - reflexivity.
  - reflexivity.
  - reflexivity.
  - intros f [<-|[<-|[]]]; reflexivity.
  - reflexivity.
  - reflexivity.
  - repeat constructor. intros [].
  - intros f [<-|[]]. right. now left.
  - exists checksums, s'. split; [exact Hrun|].
    split; [apply (Hentries "a.txt")|]. split; [apply (Hentries "b.txt")|].
    split; [apply (Hentries "c.txt")|].
    rewrite Hhashed. destruct direct as [|f l]; [reflexivity|exfalso].
    destruct (proj1 (Hdirect f) (or_introl eq_refl)) as (HP & HR & HQ).
    destruct HP as [<-|[<-|[]]].
    + apply HQ. now left.
    + apply HR. now left.
Defined.

(** C4 as stated fails.  The sync program reports [b.txt ], a name that
    ends in a space; the line is stripped, so the pair the transfer
    supplies is for [b.txt].  The record then has an entry for that
    absent path, and the file that is present was hashed directly
    although the transfer had reported it. *)
Lemma entry_for_absent_path :
  let s := Examples.state_of Examples.trailing_space Examples.quiet in
  let backup := Examples.snapshot "incomplete_2024-01-03-040506" in
  let line := ">f+++++++++ 92eb5ffee6ae2fec3ad71c777531578f b.txt " +:+ Bytes.nl in
  events [line] = [("b.txt", "92eb5ffee6ae2fec3ad71c777531578f")]
  /\ Backup.get_files backup (disk s)
     = Ok ["/srv/h/backups/incomplete_2024-01-03-040506/backup/b.txt "]
  /\ fst (_get_checksums backup (events [line]) s)
     = Ok [("b.txt", "92eb5ffee6ae2fec3ad71c777531578f");
           ("b.txt ", "92eb5ffee6ae2fec3ad71c777531578f")]
  /\ hashed (snd (_get_checksums backup (events [line]) s))
     = ["/srv/h/backups/incomplete_2024-01-03-040506/backup/b.txt "].
Proof. vm_compute. repeat split. Qed.

(** ** Names the catalog accepts and rejects *)

Lemma before_end_facts ok r i t :
  re.before_end ok r = Some (i, t) ->
  stamp_like t /\ ok (Bytes.to_list i) = true
  /\ r = rev (Bytes.to_list t) ++ "_"%char :: rev (Bytes.to_list i).
Proof.
  intros H. split; [|split; [|now apply (before_end_sound ok)]].
  - unfold re.before_end in H. destruct (drop 17 r) as [|u p]; [discriminate|].
    destruct (_ && _) eqn:Hc; [|discriminate]. injection H as _ <-.
    apply andb_true_iff in Hc as [Hc _]. apply andb_true_iff in Hc as [Hc _].
    apply andb_true_iff in Hc as [Hl Hts]. apply Nat.eqb_eq in Hl.
    split.
    + now rewrite <- to_list_length, to_of_list, length_rev.
    + now rewrite to_of_list, forallb_rev.
  - unfold re.before_end in H. destruct (drop 17 r) as [|u p]; [discriminate|].
    destruct (_ && _) eqn:Hc; [|discriminate]. injection H as <- _.
    apply andb_true_iff in Hc as [_ Hc]. now rewrite to_of_list.
Qed.

Lemma before_end_LF ok r : re.before_end ok (Bytes.LF :: r) = None.
Proof.
  unfold re.before_end. destruct (drop 17 (Bytes.LF :: r)) as [|u p]; [reflexivity|].
  replace (forallb re.ts_char (take 17 (Bytes.LF :: r))) with false; [|reflexivity].
  now rewrite andb_false_r.
Qed.

Lemma some_dots_label i : re.some_dots (Bytes.to_list i) = true <-> label_like i.
Proof.
  unfold re.some_dots, label_like. split.
  - destruct (Bytes.to_list i) as [|c l] eqn:E; [discriminate|].
    intros H. split; [|exact H]. intros ->. discriminate.
  - intros [Hne H]. apply to_list_nonempty in Hne.
    destruct (Bytes.to_list i); [congruence|exact H].
Qed.

Lemma rev_to_list_eq a l : rev (Bytes.to_list a) = rev l -> a = Bytes.of_list l.
Proof.
  intros H. apply (f_equal (@rev _)) in H. rewrite !rev_involutive in H.
  now rewrite <- H, of_to_list.
Qed.

Lemma anchored_facts ok name i t :
  re.anchored ok name = Some (i, t) ->
  stamp_like t /\ ok (Bytes.to_list i) = true
  /\ (name = i +:+ "_" +:+ t \/ name = i +:+ "_" +:+ t +:+ Bytes.nl).
Proof.
  unfold re.anchored.
  destruct (re.before_end ok (rev (Bytes.to_list name))) as [[i' t']|] eqn:E.
  - intros [= <- <-]. apply before_end_facts in E as (Ht & Hi & E).
    split; [exact Ht|]. split; [exact Hi|]. left.
    apply to_list_inj. rewrite !to_list_app.
    apply (f_equal (@rev _)) in E. rewrite rev_involutive in E. rewrite E.
    rewrite rev_app_distr. simpl. now rewrite !rev_involutive, <- app_assoc.
  - destruct (rev (Bytes.to_list name)) as [|c r'] eqn:Er; [discriminate|].
    destruct (Ascii.eqb_spec c Bytes.LF) as [->|]; [|discriminate].
    intros H. apply before_end_facts in H as (Ht & Hi & H).
    split; [exact Ht|]. split; [exact Hi|]. right.
    apply to_list_inj. rewrite !to_list_app.
    apply (f_equal (@rev _)) in Er. rewrite rev_involutive in Er. rewrite Er.
    simpl. rewrite H, rev_app_distr. simpl.
    now rewrite !rev_involutive, <- !app_assoc.
Qed.

Lemma anchored_form ok i t :
  stamp_like t ->
  re.anchored ok (i +:+ "_" +:+ t) = (if ok (Bytes.to_list i) then Some (i, t) else None)
  /\ re.anchored ok (i +:+ "_" +:+ t +:+ Bytes.nl)
     = (if ok (Bytes.to_list i) then Some (i, t) else None).
Proof.
  intros [Hl Ht]. unfold re.anchored. split.
  - rewrite before_end_form by assumption.
    destruct (ok (Bytes.to_list i)); [reflexivity|].
    rewrite !to_list_app, !rev_app_distr.
    destruct (rev (Bytes.to_list t)) as [|c r] eqn:E.
    { apply (f_equal (@length _)) in E. rewrite length_rev, to_list_length, Hl in E.
      discriminate. }
    cbn [app].
    assert (Hc : re.ts_char c = true).
    { assert (H : forallb re.ts_char (rev (Bytes.to_list t)) = true)
        by now rewrite forallb_rev.
      rewrite E in H. simpl in H. now apply andb_true_iff in H as [H _]. }
    now rewrite (ts_char_not_LF c Hc).
  - replace (rev (Bytes.to_list (i +:+ "_" +:+ t +:+ Bytes.nl)))
      with (Bytes.LF :: rev (Bytes.to_list (i +:+ "_" +:+ t))).
    2:{ rewrite !to_list_app, !rev_app_distr. reflexivity. }
    rewrite before_end_LF. rewrite Ascii.eqb_refl.
    now rewrite before_end_form.
Qed.

(** X1.  [_parse_name] returns exactly on the names made of a label
    (not empty, no line feed), an underscore and seventeen bytes among
    [0-9] and [-], with or without one line feed after them, and the
    parts it returns put together give the name back, less that line
    feed; on every other name it raises [AttributeError]. *)
Theorem parse_name_shape (name : string) :
  match Backup._parse_name name with
  | Ok (timestamp, interval) =>
      stamp_like timestamp /\ label_like interval
      /\ (name = interval +:+ "_" +:+ timestamp
          \/ name = interval +:+ "_" +:+ timestamp +:+ Bytes.nl)
  | Raise e =>
      e = AttributeError
      /\ forall interval timestamp,
           label_like interval -> stamp_like timestamp ->
           name <> interval +:+ "_" +:+ timestamp
           /\ name <> interval +:+ "_" +:+ timestamp +:+ Bytes.nl
  end.
Proof.
  unfold Backup._parse_name, re.snapshot_name.
  destruct (re.anchored re.some_dots name) as [[i t]|] eqn:E.
  - apply anchored_facts in E as (Ht & Hi & Hn).
    split; [exact Ht|]. split; [now apply some_dots_label|exact Hn].
  - split; [reflexivity|]. intros i t Hi Ht.
    destruct (anchored_form re.some_dots i t Ht) as [H1 H2].
    apply some_dots_label in Hi. rewrite Hi in H1, H2.
    split; intros ->; congruence.
Qed.

Lemma has_sep_no_sep x : has_sep x = false <-> no_sep x.
Proof.
  unfold has_sep, no_sep. induction (Bytes.to_list x) as [|c l IH]; simpl; [tauto|].
  destruct (Ascii.eqb c os_path.sep); simpl; [split; discriminate|exact IH].
Qed.

Lemma rhead_nil r :
  existsb (fun c => Ascii.eqb c os_path.sep) r = false -> os_path.rhead r = [].
Proof.
  induction r as [|c r IH]; simpl; [reflexivity|].
  destruct (Ascii.eqb c os_path.sep); simpl; [discriminate|exact IH].
Qed.

Lemma rhead_cons r :
  existsb (fun c => Ascii.eqb c os_path.sep) r = true -> os_path.rhead r <> [].
Proof.
  induction r as [|c r IH]; simpl; [discriminate|].
  destruct (Ascii.eqb c os_path.sep); simpl; [discriminate|exact IH].
Qed.

Lemma existsb_rev' {A} (f : A -> bool) l : existsb f (rev l) = existsb f l.
Proof.
  induction l as [|x l IH]; simpl; [reflexivity|].
  rewrite existsb_app, IH. simpl. rewrite orb_false_r. apply orb_comm.
Qed.

Lemma of_list_nil l : Bytes.of_list l = "" -> l = [].
Proof. intros H. apply (f_equal Bytes.to_list) in H. now rewrite to_of_list in H. Qed.

(** The head [os.path.split] returns is empty exactly for a name
    without separator. *)
Lemma split_head name : String.eqb (fst (os_path.split name)) "" = negb (has_sep name).
Proof.
  unfold os_path.split, has_sep. cbn [fst].
  rewrite <- (rev_involutive (Bytes.to_list name)) at 2.
  rewrite existsb_rev'.
  destruct (existsb _ (rev (Bytes.to_list name))) eqn:E; simpl.
  - apply rhead_cons in E. apply String.eqb_neq. intros H. apply of_list_nil in H.
    destruct (os_path.strip_seps (os_path.rhead (rev (Bytes.to_list name)))) eqn:E';
      apply (f_equal (@rev _)) in H; rewrite rev_involutive in H;
      simpl in H; congruence.
  - now rewrite rhead_nil.
Qed.

Lemma new_parse p b :
  Backup.new p = Ok b ->
  Backup.path b = p /\ Backup.name b = os_path.basename p
  /\ re.snapshot_name (Backup.name b) = Some (Backup.interval b, Backup.timestamp b).
Proof.
  unfold Backup.new, Backup._parse_name.
  destruct (re.snapshot_name (os_path.basename p)) as [[i t]|] eqn:E; [|discriminate].
  destruct (Bytes.decodable _); [|discriminate].
  intros [= <-]. cbn. auto.
Qed.

(** X2.  [_get_backup_by_name] never changes anything; it raises its
    [BackupException] exactly for a name with a path separator in it,
    and [AttributeError] exactly for a name without separator that the
    catalog's pattern does not accept, so a wrong folder name is no
    case of "no backup". *)
Theorem get_backup_by_name_errors (backup_name : string) (s : state) :
  let r := fst (_get_backup_by_name backup_name s) in
  snd (_get_backup_by_name backup_name s) = s
  /\ (r = Raise (BackupException
                   "You must specify the folder name of the backup, not a path")
      <-> has_sep backup_name = true)
  /\ (r = Raise AttributeError
      <-> has_sep backup_name = false /\ re.is_snapshot_name backup_name = false).
Proof.
  unfold _get_backup_by_name. rewrite split_head, negb_involutive.
  destruct (has_sep backup_name) eqn:Hs; cbn [fst snd raise].
  { split; [reflexivity|]. split; [tauto|].
    split; [discriminate|intros [? _]; discriminate]. }
  apply has_sep_no_sep in Hs.
  unfold bind, get_disk, lift. cbn [fst snd].
  unfold Backup.new. rewrite basename_join by exact Hs.
  unfold Backup._parse_name, re.is_snapshot_name.
  destruct (re.snapshot_name backup_name) as [[i t]|]; cbn [fst snd].
  2:{ split; [reflexivity|]. split; [split; discriminate|tauto]. }
  destruct (Bytes.decodable _); cbn [fst snd].
  2:{ split; [reflexivity|]. split; [split; discriminate|].
      split; [discriminate|intros [_ ?]; discriminate]. }
  cbn [Backup.path].
  destruct (Disk.snapshot_at _ _) as [e|]; [destruct (Disk.tree e)|];
    cbn [fst snd ret]; (split; [reflexivity|]);
    (split; [split; discriminate|]);
    (split; [discriminate|intros [_ ?]; discriminate]).
Qed.

Lemma incomplete_name_label name i t :
  re.snapshot_name name = Some (i, t) ->
  re.incomplete_name name = String.eqb i "incomplete".
Proof.
  intros H. apply anchored_facts in H as (Ht & _ & Hn).
  unfold re.incomplete_name.
  destruct (anchored_form (fun p => String.eqb (Bytes.of_list p) "incomplete") i t Ht)
    as [H1 H2].
  rewrite of_to_list in H1, H2.
  destruct Hn as [-> | ->]; [rewrite H1|rewrite H2];
    now destruct (String.eqb i "incomplete").
Qed.

Lemma first_incomplete_find paths : forall bs,
  construct paths = Ok bs ->
  first_incomplete paths
  = Ok (List.find (fun b => String.eqb (Backup.interval b) "incomplete") bs).
Proof.
  induction paths as [|p paths IH]; simpl; intros bs H.
  - now injection H as <-.
  - destruct (Backup.new p) as [b|] eqn:Eb; [|discriminate].
    destruct (construct paths) as [bs'|]; [|discriminate].
    injection H as <-. simpl.
    apply new_parse in Eb as (_ & _ & Hn).
    rewrite (incomplete_name_label _ _ _ Hn).
    destruct (String.eqb _ _); [reflexivity|]. now apply IH.
Qed.

(** X3.  On a catalog that can be listed, [_get_incomplete_backup]
    returns the first snapshot, in the order of the directory, whose
    label is [incomplete], and nothing when no snapshot has that
    label: its pattern on the name singles out the same snapshots as
    the label [_parse_name] extracts. *)
Theorem get_incomplete_backup_first (s : state) (bs : list Backup.t) :
  migrated s = true ->
  construct (listing (disk s)) = Ok bs ->
  _get_incomplete_backup s
  = (Ok (List.find (fun b => String.eqb (Backup.interval b) "incomplete") bs), s).
Proof.
  intros Hm Hc. rewrite get_incomplete_backup_migrated by exact Hm.
  now rewrite (first_incomplete_find _ _ Hc).
Qed.

Lemma get_incomplete_backup_first_witness :
  _get_incomplete_backup (Examples.state_of Examples.three Examples.quiet)
  = (Ok (Some (Examples.snapshot "incomplete_2024-01-02-000000")),
     Examples.state_of Examples.three Examples.quiet).
Proof.
  apply (get_incomplete_backup_first
           (Examples.state_of Examples.three Examples.quiet)
           [Examples.snapshot "daily_2024-01-01-000000";
            Examples.snapshot "monthly_2024-01-01-000000";
            Examples.snapshot "incomplete_2024-01-02-000000"]);
    reflexivity.
Defined.

(** ** Lines of checksum files and of the sync program *)

Lemma lstrip_split l :
  exists sp, l = sp ++ Bytes.lstrip_list l /\ forallb Bytes.isspace sp = true.
Proof.
  induction l as [|c l (sp & E & H)]; simpl; [now exists []|].
  destruct (Bytes.isspace c) eqn:Ec.
  - exists (c :: sp). simpl. rewrite Ec, H. split; [now f_equal|reflexivity].
  - now exists [].
Qed.

Lemma lstrip_head l c l' : Bytes.lstrip_list l = c :: l' -> Bytes.isspace c = false.
Proof.
  induction l as [|a l IH]; simpl; [discriminate|].
  destruct (Bytes.isspace a) eqn:Ea; [exact IH|]. now intros [= <- _].
Qed.

Lemma lstrip_spaces l : forallb Bytes.isspace l = true -> Bytes.lstrip_list l = [].
Proof.
  induction l as [|a l IH]; simpl; [reflexivity|].
  intros H. apply andb_true_iff in H as [-> H]. auto.
Qed.

Lemma lstrip_nil l : Bytes.lstrip_list l = [] -> forallb Bytes.isspace l = true.
Proof.
  induction l as [|a l IH]; simpl; [reflexivity|].
  destruct (Bytes.isspace a); [exact IH|discriminate].
Qed.

Lemma rstrip_split l :
  exists sp, l = Bytes.rstrip_list l ++ sp /\ forallb Bytes.isspace sp = true.
Proof.
  unfold Bytes.rstrip_list. destruct (lstrip_split (rev l)) as (sp & E & H).
  exists (rev sp). split; [|now rewrite forallb_rev].
  apply (f_equal (@rev _)) in E. rewrite rev_involutive, rev_app_distr in E. exact E.
Qed.

Lemma span_token_facts l :
  l = fst (Bytes.span_token l) ++ snd (Bytes.span_token l)
  /\ forallb (fun c => negb (Bytes.isspace c)) (fst (Bytes.span_token l)) = true
  /\ match snd (Bytes.span_token l) with
     | c :: _ => Bytes.isspace c = true
     | [] => True
     end.
Proof.
  induction l as [|c l (E & H & R)]; simpl; [auto|].
  destruct (Bytes.isspace c) eqn:Ec; simpl; [auto|].
  destruct (Bytes.span_token l) as [t r]. simpl in *.
  rewrite Ec, H. repeat split; [now f_equal|exact R].
Qed.

Lemma rstrip_spaceless t :
  forallb (fun c => negb (Bytes.isspace c)) t = true -> Bytes.rstrip_list t = t.
Proof.
  intros H. unfold Bytes.rstrip_list.
  assert (Hr : forallb (fun c => negb (Bytes.isspace c)) (rev t) = true)
    by now rewrite forallb_rev.
  destruct (rev t) as [|c r] eqn:E.
  - apply (f_equal (@rev _)) in E. now rewrite rev_involutive in E.
  - simpl in Hr. apply andb_true_iff in Hr as [Hc _]. apply negb_true_iff in Hc.
    simpl. rewrite Hc, <- E. apply rev_involutive.
Qed.

Lemma rstrip_app_spaces t sp :
  forallb Bytes.isspace sp = true ->
  Bytes.rstrip_list (t ++ sp) = Bytes.rstrip_list t.
Proof.
  intros H. unfold Bytes.rstrip_list. rewrite rev_app_distr. f_equal.
  assert (Hr : forallb Bytes.isspace (rev sp) = true) by now rewrite forallb_rev.
  induction (rev sp) as [|c r IH]; simpl; [reflexivity|].
  simpl in Hr. apply andb_true_iff in Hr as [-> Hr]. auto.
Qed.

Lemma spaces_spaceless l :
  forallb Bytes.isspace l = true ->
  forallb (fun c => negb (Bytes.isspace c)) l = true -> l = [].
Proof.
  destruct l as [|c l]; [reflexivity|]. simpl.
  intros H1 H2. apply andb_true_iff in H1 as [H1 _].
  apply andb_true_iff in H2 as [H2 _]. rewrite H1 in H2. discriminate.
Qed.

(** The stripped line has no white space in it exactly when there is
    nothing but white space after its first field. *)
Lemma single_field t r :
  forallb (fun c => negb (Bytes.isspace c)) t = true ->
  match r with c :: _ => Bytes.isspace c = true | [] => True end ->
  forallb (fun c => negb (Bytes.isspace c)) (Bytes.rstrip_list (t ++ r))
  = match Bytes.lstrip_list r with [] => true | _ => false end.
Proof.
  intros Ht Hr. destruct (Bytes.lstrip_list r) as [|z r'] eqn:E.
  - apply lstrip_nil in E. rewrite rstrip_app_spaces by exact E.
    now rewrite rstrip_spaceless.
  - apply not_true_iff_false. intros Hall.
    destruct (rstrip_split (t ++ r)) as (sp & Esp & Hsp).
    set (R := Bytes.rstrip_list (t ++ r)) in *.
    apply app_eq_app in Esp as [l [[E1 E2] | [E1 E2]]].
    + (* the spaces after [R] reach into [t] *)
      assert (Hl : l = []).
      { apply spaces_spaceless.
        - rewrite E2, forallb_app in Hsp. now apply andb_true_iff in Hsp as [? _].
        - rewrite E1, forallb_app in Ht. now apply andb_true_iff in Ht as [_ ?]. }
      subst l. simpl in E2. subst sp.
      rewrite (lstrip_spaces r Hsp) in E. discriminate.
    + destruct l as [|c l].
      * simpl in E2. subst sp. rewrite (lstrip_spaces r Hsp) in E. discriminate.
      * rewrite E2 in Hr. simpl in Hr.
        rewrite E1, forallb_app in Hall. apply andb_true_iff in Hall as [_ Hall].
        simpl in Hall. rewrite Hr in Hall. discriminate.
Qed.

(** X4.  Reading a line of a checksum file, of either version, raises
    [ValueError] exactly when the line, less the white space around
    it, has no white space in it: an empty or blank line, or a line
    with a single field. *)
Theorem read_line_value_error (version : nat) (line : string) :
  Backup.read_line version line = Raise ValueError
  <-> spaceless (Bytes.strip line) = true.
Proof.
  unfold Backup.read_line, spaceless, Bytes.strip. rewrite to_of_list.
  destruct (Bytes.lstrip_list (Bytes.to_list line)) as [|a l] eqn:E.
  - unfold Bytes.split_ws_1. rewrite E. split; reflexivity.
  - rewrite split_ws_1_unfold by (rewrite E; discriminate). rewrite E.
    destruct (span_token_facts (a :: l)) as (Eq & Ht & Hr).
    replace (Bytes.rstrip_list (a :: l))
      with (Bytes.rstrip_list (fst (Bytes.span_token (a :: l))
                               ++ snd (Bytes.span_token (a :: l))))
      by now rewrite <- Eq.
    rewrite single_field by assumption.
    destruct (Bytes.lstrip_list (snd (Bytes.span_token (a :: l)))).
    + split; reflexivity.
    + destruct (_ && _); split; discriminate.
Qed.

Lemma lines_of_line body : forall cur rest,
  forallb (fun c => negb (Ascii.eqb c Bytes.LF)) body = true ->
  Bytes.lines_of cur (body ++ Bytes.LF :: rest)
  = Bytes.of_list (rev cur ++ body ++ [Bytes.LF]) :: Bytes.lines_of [] rest.
Proof.
  induction body as [|c body IH]; intros cur rest H.
  - reflexivity.
  - simpl in H. apply andb_true_iff in H as [Hc H]. apply negb_true_iff in Hc.
    cbn [app Bytes.lines_of]. rewrite Hc, IH by exact H.
    cbn [rev]. now rewrite <- !app_assoc.
Qed.

Lemma concat_cons x l :
  Bytes.to_list (String.concat "" (x :: l))
  = Bytes.to_list x ++ Bytes.to_list (String.concat "" l).
Proof.
  destruct l as [|y l]; cbn [String.concat].
  - now rewrite app_nil_r.
  - now rewrite !to_list_app.
Qed.

Lemma write_line_list entry :
  Bytes.to_list (Backup.write_line entry)
  = (Bytes.to_list (snd entry) ++ " "%char :: " "%char :: Bytes.to_list (fst entry))
    ++ [Bytes.LF].
Proof.
  unfold Backup.write_line. rewrite !to_list_app. cbn.
  now rewrite <- !app_assoc.
Qed.

Lemma token_one_line c :
  forallb (fun a => negb (Bytes.isspace a)) c = true ->
  forallb (fun a => negb (Ascii.eqb a Bytes.LF)) c = true.
Proof.
  induction c as [|a c IH]; simpl; [reflexivity|].
  intros H. apply andb_true_iff in H as [Ha H]. rewrite IH by exact H.
  rewrite andb_true_r. destruct (Ascii.eqb_spec a Bytes.LF) as [->|]; [|reflexivity].
  vm_compute in Ha. discriminate.
Qed.

Lemma readlines_written cs :
  Forall (fun entry => one_line (fst entry) /\ token (snd entry)) cs ->
  Bytes.readlines (written cs) = map Backup.write_line cs.
Proof.
  unfold Bytes.readlines, written.
  induction cs as [|entry cs IH]; intros H; [reflexivity|].
  apply Forall_cons_iff in H as [(Hp & _ & Hc) H].
  cbn [map]. rewrite concat_cons, write_line_list, <- app_assoc. cbn [app].
  rewrite lines_of_line.
  - rewrite IH by exact H. f_equal. cbn [rev app].
    apply to_list_inj. now rewrite to_of_list, write_line_list.
  - rewrite forallb_app. cbn [forallb]. rewrite (token_one_line _ Hc).
    unfold one_line in Hp. now rewrite Hp.
Qed.

Lemma append_nil_r s : s +:+ "" = s.
Proof. apply to_list_inj. rewrite to_list_app. apply app_nil_r. Qed.

Lemma read_written_line entry :
  recordable entry -> Backup.read_line 2 (Backup.write_line entry) = Ok entry.
Proof.
  destruct entry as [p c]. intros (Hp & _ & Hc). cbn [fst snd] in *.
  unfold Backup.read_line, Backup.write_line. cbn [fst snd].
  rewrite split_line, strip_line by assumption. reflexivity.
Qed.

(** X5.  What the setter of [checksums] writes, the getter reads back:
    for pairs whose checksum has no white space in it and whose path
    has no line feed in it and no white space at either end, the
    snapshot's [checksums] are, after the assignment, these very
    pairs in their order. *)
Theorem checksums_round_trip (b : Backup.t) (d : Disk.t) (e : Disk.entry)
    (cs : list (string * string)) :
  Disk.snapshot_at d (Backup.path b) = Some e ->
  Forall recordable cs ->
  exists d', Backup.set_checksums b cs d = Ok d'
             /\ Backup.checksums b d' = map Ok cs.
Proof.
  intros He Hcs. unfold Backup.set_checksums. rewrite He.
  eexists. split; [reflexivity|].
  assert (Hat : Disk.snapshot_at
                  (Disk.with_backups d
                     (Disk.update_path (Disk.backups_dir d) (Disk.backups d)
                        (Backup.path b)
                        (fun e0 => Disk.with_gz e0 (Some (written cs)))))
                  (Backup.path b)
                = Some (Disk.with_gz e (Some (written cs)))).
  { unfold Disk.snapshot_at in *. cbn [Disk.backups Disk.with_backups].
    change (Disk.backups_dir (Disk.with_backups d _)) with (Disk.backups_dir d).
    rewrite at_path_update by reflexivity. now rewrite He. }
  unfold Backup.checksums, Backup.checksum_file. unfold written in Hat.
  rewrite Hat. cbn [Disk.checksums_gz Disk.with_gz].
  fold (written cs).
  rewrite readlines_written
    by (eapply List.Forall_impl; [|exact Hcs]; intros ? (_ & ? & ?); now split).
  rewrite map_map. apply map_ext_Forall.
  eapply List.Forall_impl; [|exact Hcs]. intros entry. apply read_written_line.
Qed.

Lemma checksums_round_trip_witness :
  exists d',
    Backup.set_checksums (Examples.snapshot "daily_2024-01-02-000000")
      [("dir/a b.txt", "0cc175b9c0f1b6a831c399e269772661"); ("./c", "92eb")]
      Examples.tampered = Ok d'
    /\ Backup.checksums (Examples.snapshot "daily_2024-01-02-000000") d'
       = [Ok ("dir/a b.txt", "0cc175b9c0f1b6a831c399e269772661"); Ok ("./c", "92eb")].
Proof.
  eapply (checksums_round_trip (Examples.snapshot "daily_2024-01-02-000000")
            Examples.tampered).
  - reflexivity.
  - repeat constructor; cbn; try discriminate.
Defined.

Lemma split_on_field sep n a : forall l,
  forallb (fun c => negb (Ascii.eqb c sep)) a = true ->
  Bytes.split_on sep (S n) (a ++ sep :: l) = a :: Bytes.split_on sep n l.
Proof.
  induction a as [|c a IH]; intros l H.
  - cbn [app Bytes.split_on]. now rewrite Ascii.eqb_refl.
  - simpl in H. apply andb_true_iff in H as [Hc H]. apply negb_true_iff in Hc.
    cbn [app]. change (Bytes.split_on sep (S n) (c :: a ++ sep :: l))
      with (if Ascii.eqb c sep then [] :: Bytes.split_on sep n (a ++ sep :: l)
            else match Bytes.split_on sep (S n) (a ++ sep :: l) with
                 | f :: fs => (c :: f) :: fs
                 | [] => [[c]]
                 end).
    now rewrite Hc, IH.
Qed.

Lemma startswith_gt i :
  Bytes.startswith i ">" = true -> exists l, Bytes.to_list i = ">"%char :: l.
Proof.
  unfold Bytes.startswith. destruct i as [|c i]; [discriminate|]. cbn -[ascii_dec].
  destruct (ascii_dec ">" c) as [<-|]; [|discriminate].
  intros _. now exists (Bytes.to_list i).
Qed.

(** X6.  A line of the sync program made of a change summary that
    starts with [>], a checksum and a path, one space between them,
    is taken in whole: [_run_rsync] logs the line and records the path
    with the checksum, and the spaces the path has within stay in
    it. *)
Theorem rsync_line_fields (i c p : string) (lines : list string)
    (checksums : list (string * string)) (s : state) :
  Bytes.startswith i ">" = true -> free_of " " i -> free_of " " c ->
  trimmed p ->
  Bytes.decodable (i +:+ " " +:+ c +:+ " " +:+ p) = true ->
  read_output ((i +:+ " " +:+ c +:+ " " +:+ p +:+ Bytes.nl) :: lines) checksums s
  = read_output lines (checksums ++ [(p, c)])
      (snd (logger_info (i +:+ " " +:+ c +:+ " " +:+ p) [] s)).
Proof.
  intros Hi Hi' Hc Hp Hdec.
  set (X := i +:+ " " +:+ c +:+ " " +:+ p) in *.
  assert (EX : Bytes.to_list X
               = Bytes.to_list i ++ " "%char :: Bytes.to_list c
                 ++ " "%char :: Bytes.to_list p).
  { unfold X. now rewrite !to_list_app. }
  destruct (startswith_gt i Hi) as [i' Ei].
  assert (Hstrip : Bytes.strip (i +:+ " " +:+ c +:+ " " +:+ p +:+ Bytes.nl) = X).
  { replace (i +:+ " " +:+ c +:+ " " +:+ p +:+ Bytes.nl) with (X +:+ Bytes.nl)
      by (apply to_list_inj; unfold X; rewrite !to_list_app;
          now rewrite <- !app_assoc).
    apply strip_line. split; [|split].
    - intros E. apply (f_equal Bytes.to_list) in E. rewrite EX, Ei in E. discriminate.
    - unfold Bytes.lstrip. rewrite <- (of_to_list X) at 2. f_equal.
      rewrite EX, Ei. reflexivity.
    - unfold Bytes.rstrip, Bytes.rstrip_list. rewrite <- (of_to_list X) at 2. f_equal.
      rewrite EX.
      replace (Bytes.to_list i ++ " "%char :: Bytes.to_list c
               ++ " "%char :: Bytes.to_list p)
        with ((Bytes.to_list i ++ " "%char :: Bytes.to_list c ++ [" "%char])
              ++ Bytes.to_list p)
        by (now rewrite <- !app_assoc; cbn; rewrite <- !app_assoc).
      rewrite rev_app_distr, lstrip_list_fixed.
      + now rewrite <- rev_app_distr, rev_involutive.
      + now apply rstrip_trimmed.
      + destruct Hp as [Hp _]. apply to_list_nonempty in Hp. intros E.
        apply (f_equal (@rev _)) in E. now rewrite rev_involutive in E. }
  cbn [read_output]. rewrite Hstrip, Hdec. cbn [negb].
  assert (Hst : Bytes.startswith X ">" = true).
  { unfold Bytes.startswith. rewrite <- (of_to_list X), EX, Ei.
    unfold Bytes.of_list. cbn -[ascii_dec].
    destruct (ascii_dec ">" ">"); [|congruence].
    now destruct (string_of_list_ascii _). }
  rewrite Hst.
  assert (Hsplit : Bytes.split " " 2 X = [i; c; p]).
  { unfold Bytes.split. rewrite EX.
    rewrite split_on_field by exact Hi'. rewrite split_on_field by exact Hc.
    replace (Bytes.split_on " " 0 (Bytes.to_list p)) with [Bytes.to_list p]
      by now destruct (Bytes.to_list p).
    cbn [map]. now rewrite !of_to_list. }
  rewrite Hsplit. unfold bind at 1. reflexivity.
Qed.

Lemma rsync_line_fields_witness :
  read_output [">f+++++++++ 92eb5ffee6ae2fec3ad71c777531578f my file.txt" +:+ Bytes.nl]
    [] (Examples.state_of Examples.three Examples.quiet)
  = (Ok [("my file.txt", "92eb5ffee6ae2fec3ad71c777531578f")],
     snd (logger_info ">f+++++++++ 92eb5ffee6ae2fec3ad71c777531578f my file.txt" []
            (Examples.state_of Examples.three Examples.quiet))).
Proof.
  apply (rsync_line_fields ">f+++++++++" "92eb5ffee6ae2fec3ad71c777531578f"
           "my file.txt" [] [] (Examples.state_of Examples.three Examples.quiet));
    try reflexivity.
  repeat split; discriminate.
Defined.

(** ** What the pruning pass takes and what it leaves *)

Lemma custom_loop_acc pattern l td td' :
  custom_loop pattern l td = Ok td' -> td' = td.
Proof.
  induction l as [|b l IH]; simpl; [now intros [= <-]|].
  destruct (negb _); [discriminate|exact IH].
Qed.

Lemma marked_parts self listed td :
  marked self listed = Ok td ->
  td = labelled "current" (sorted_desc listed)
       ++ slice_from (labelled "daily" (sorted_desc listed)) (retention_daily self)
       ++ slice_from (labelled "monthly" (sorted_desc listed)) (retention_monthly self)
       ++ slice_from (labelled "yearly" (sorted_desc listed)) (retention_yearly self).
Proof.
  unfold marked, intervals. simpl.
  destruct (custom_loop _ _ _) as [td0|] eqn:E; [|discriminate].
  apply custom_loop_acc in E. subst td0. intros [= <-].
  unfold labelled. now rewrite <- !app_assoc.
Qed.

Lemma drop_incl {A} n (l : list A) x : In x (drop n l) -> In x l.
Proof.
  intros H. rewrite <- (take_drop n l). apply in_or_app. now right.
Qed.

Lemma slice_from_incl {A} (l : list A) i x : In x (slice_from l i) -> In x l.
Proof. unfold slice_from. destruct (0 <=? i)%Z; apply drop_incl. Qed.

Lemma labelled_In i l b :
  In b (labelled i l) <-> In b l /\ Backup.interval b = i.
Proof. unfold labelled. rewrite filter_In, String.eqb_eq. tauto. Qed.

(** X7.  Whatever the pruning pass marks for deletion is a listed
    snapshot labelled [current], [daily], [monthly] or [yearly]: a
    snapshot labelled [incomplete] or [custom], or with a label of
    the user's own, is never removed by it. *)
Theorem marked_labels (self : t) (listed to_delete : list Backup.t)
    (b : Backup.t) :
  marked self listed = Ok to_delete ->
  In b to_delete ->
  In b listed
  /\ (Backup.interval b = "current" \/ periodic (Backup.interval b)).
Proof.
  intros H Hb. apply marked_parts in H. subst to_delete.
  unfold periodic.
  rewrite !in_app_iff in Hb.
  destruct Hb as [Hb|[Hb|[Hb|Hb]]];
    try apply slice_from_incl in Hb;
    apply labelled_In in Hb as [Hb ->];
    apply (proj1 (sorted_desc_In _ _)) in Hb; (split; [exact Hb|]); tauto.
Qed.

Lemma marked_labels_witness :
  In (Examples.snapshot "monthly_2024-01-01-000000")
     [Examples.snapshot "daily_2024-01-03-010000";
      Examples.snapshot "monthly_2024-01-01-000000"]
  /\ (Backup.interval (Examples.snapshot "monthly_2024-01-01-000000") = "current"
      \/ periodic (Backup.interval (Examples.snapshot "monthly_2024-01-01-000000"))).
Proof.
  apply (marked_labels (Examples.config false 2 0 1)
           [Examples.snapshot "daily_2024-01-03-010000";
            Examples.snapshot "monthly_2024-01-01-000000"]
           [Examples.snapshot "monthly_2024-01-01-000000"]).
  - reflexivity.
  - now left.
Defined.

Lemma labelled_app i l1 l2 : labelled i (l1 ++ l2) = labelled i l1 ++ labelled i l2.
Proof. apply List.filter_app. Qed.

Lemma labelled_other i k l : i <> k -> labelled i (labelled k l) = [].
Proof.
  intros H. unfold labelled. induction l as [|b l IH]; simpl; [reflexivity|].
  destruct (String.eqb_spec (Backup.interval b) k) as [E|]; [|exact IH].
  simpl. destruct (String.eqb_spec (Backup.interval b) i); [congruence|exact IH].
Qed.

Lemma labelled_same i l : labelled i (labelled i l) = labelled i l.
Proof.
  unfold labelled. induction l as [|b l IH]; simpl; [reflexivity|].
  destruct (String.eqb (Backup.interval b) i) eqn:E; [|exact IH].
  simpl. rewrite E. now f_equal.
Qed.

Lemma labelled_drop i k n l :
  labelled i (drop n (labelled k l))
  = if String.eqb i k then drop n (labelled k l) else [].
Proof.
  destruct (String.eqb_spec i k) as [->|Hne].
  - assert (H : forall x, In x (drop n (labelled k l)) -> Backup.interval x = k).
    { intros x Hx. apply drop_incl in Hx. now apply labelled_In in Hx. }
    induction (drop n (labelled k l)) as [|b r IH]; [reflexivity|].
    unfold labelled in *. simpl. rewrite (H b) by now left.
    rewrite String.eqb_refl. f_equal. apply IH. intros x Hx. apply H. now right.
  - assert (H : forall x, In x (drop n (labelled k l)) -> Backup.interval x <> i).
    { intros x Hx. apply drop_incl in Hx.
      apply labelled_In in Hx as [_ ->]. congruence. }
    induction (drop n (labelled k l)) as [|b r IH]; [reflexivity|].
    unfold labelled in *. simpl.
    destruct (String.eqb_spec (Backup.interval b) i) as [E|_].
    + exfalso. apply (H b); [now left|exact E].
    + apply IH. intros x Hx. apply H. now right.
Qed.

Lemma labelled_slice i k n l :
  labelled i (slice_from (labelled k l) n)
  = if String.eqb i k then slice_from (labelled k l) n else [].
Proof. unfold slice_from. destruct (0 <=? n)%Z; apply labelled_drop. Qed.

Lemma labelled_sorted i l :
  StronglySorted newer_or_same l -> StronglySorted newer_or_same (labelled i l).
Proof.
  induction 1 as [|b l Hl IH Hb]; [constructor|].
  unfold labelled in *. simpl. destruct (String.eqb _ _); [|exact IH].
  constructor; [exact IH|].
  rewrite List.Forall_forall in *. intros x Hx. apply Hb.
  now apply filter_In in Hx as [Hx _].
Qed.

(** The snapshots of a periodic label among those marked. *)
Lemma marked_of_label self listed td L n :
  retention_count self L = Some n ->
  marked self listed = Ok td ->
  labelled L td = slice_from (labelled L (sorted_desc listed)) n.
Proof.
  intros Hn H. apply marked_parts in H. subst td.
  rewrite !labelled_app, !labelled_slice.
  unfold retention_count, intervals in Hn. cbn [List.find fst] in Hn.
  destruct (String.eqb_spec "custom" L) as [<-|H0]; [discriminate|].
  destruct (String.eqb_spec "daily" L) as [<-|H1].
  { injection Hn as <-. rewrite labelled_other by discriminate. cbn.
    now rewrite app_nil_r. }
  destruct (String.eqb_spec "monthly" L) as [<-|H2].
  { injection Hn as <-. rewrite labelled_other by discriminate. cbn.
    now rewrite app_nil_r. }
  destruct (String.eqb_spec "yearly" L) as [<-|H3]; [|discriminate].
  injection Hn as <-. rewrite labelled_other by discriminate. reflexivity.
Qed.

(** X8.  With a retention count [n] that is not negative, the pruning
    pass, when it gets through, spares the [n] newest snapshots of the
    label and marks all the others of that label: these are the
    snapshots of that label in descending order of timestamp, less
    the first [n]. *)
Theorem pruning_keeps_newest (self : t) (listed to_delete : list Backup.t)
    (L : string) (n : Z) :
  retention_count self L = Some n -> (0 <= n)%Z ->
  marked self listed = Ok to_delete ->
  let ordered := labelled L (sorted_desc listed) in
  StronglySorted newer_or_same ordered
  /\ (forall b, In b ordered <-> In b listed /\ Backup.interval b = L)
  /\ ordered = take (Z.to_nat n) ordered ++ labelled L to_delete.
Proof.
  intros Hn H0 H ordered. split; [|split].
  - apply labelled_sorted, sorted_desc_sorted.
  - intros b. unfold ordered. now rewrite labelled_In, sorted_desc_In.
  - rewrite (marked_of_label _ _ _ _ _ Hn H). unfold slice_from.
    apply Z.leb_le in H0. rewrite H0. symmetry. apply take_drop.
Qed.

Lemma pruning_keeps_newest_witness :
  let listed := [Examples.snapshot "daily_2024-01-01-000000";
                 Examples.snapshot "daily_2024-01-03-010000";
                 Examples.snapshot "daily_2024-01-02-000000"] in
  labelled "daily" (sorted_desc listed)
  = take 2 (labelled "daily" (sorted_desc listed))
    ++ labelled "daily" [Examples.snapshot "daily_2024-01-01-000000"].
Proof.
  intros listed.
  apply (pruning_keeps_newest (Examples.config false 2 1 1) listed
           [Examples.snapshot "daily_2024-01-01-000000"] "daily" 2).
  - reflexivity.
  - lia.
  - reflexivity.
Defined.

(** X9.  A negative retention count [-k] does not switch pruning off:
    the pass then marks the [k] oldest snapshots of the label, all of
    them when there are no more than [k]. *)
Theorem pruning_negative_count (self : t) (listed to_delete : list Backup.t)
    (L : string) (n : Z) :
  retention_count self L = Some n -> (n < 0)%Z ->
  marked self listed = Ok to_delete ->
  let ordered := labelled L (sorted_desc listed) in
  labelled L to_delete = drop (length ordered - Z.to_nat (- n)) ordered.
Proof.
  intros Hn H0 H ordered.
  rewrite (marked_of_label _ _ _ _ _ Hn H). unfold slice_from.
  apply Z.leb_gt in H0. now rewrite H0.
Qed.

Lemma pruning_negative_count_witness :
  let listed := [Examples.snapshot "daily_2024-01-01-000000";
                 Examples.snapshot "daily_2024-01-03-010000";
                 Examples.snapshot "daily_2024-01-02-000000"] in
  labelled "daily" [Examples.snapshot "daily_2024-01-01-000000"]
  = drop (length (labelled "daily" (sorted_desc listed)) - Z.to_nat (- (-1)))
         (labelled "daily" (sorted_desc listed)).
Proof.
  intros listed.
  apply (pruning_negative_count (Examples.config false (-1) 1 1) listed
           [Examples.snapshot "daily_2024-01-01-000000"] "daily" (-1)).
  - reflexivity.
  - lia.
  - reflexivity.
Defined.

Lemma remove_loop self (td : list Backup.t) : forall s,
  for_each td (fun backup =>
    if test self then
      logger_info "Removing %s (DRY RUN)" [Str (Backup.path backup)]
    else
      do* logger_info "Removing %s" [Str (Backup.path backup)] in
      let* d := get_disk in
      put_disk (Backup.remove backup d)) s
  = (Ok tt,
     {| disk := if test self then disk s
                else Disk.with_backups (disk s) (spared (disk s) td);
        clock := clock s; transfer := transfer s; migrated := migrated s;
        status := status s; error := error s;
        log := log s ++ map (removing self) td; hashed := hashed s |}).
Proof.
  unfold removing.
  induction td as [|b td IH]; intros s.
  - cbn [for_each map]. unfold ret, spared. rewrite app_nil_r.
    cbn [existsb negb].
    replace (List.filter (fun _ => true) (Disk.backups (disk s)))
      with (Disk.backups (disk s))
      by (induction (Disk.backups (disk s)) as [|e l IHl]; simpl; congruence).
    destruct (test self); destruct s as [[] ? ? ? ? ? ? ?]; reflexivity.
  - cbn [for_each map]. unfold bind at 1.
    destruct (test self) eqn:Et.
    + unfold logger_info at 1, emit at 1. rewrite IH. flat.
      now rewrite <- app_assoc.
    + unfold bind at 1, logger_info at 1, emit at 1. flat.
      unfold bind at 1, get_disk at 1. flat. unfold put_disk at 1. flat.
      rewrite IH. flat. rewrite <- app_assoc. cbn [app].
      f_equal. f_equal. unfold Backup.remove, spared, Disk.remove_path.
      cbn [Disk.backups Disk.with_backups Disk.path Disk.top
           Disk.last_verification Disk.rules].
      change (Disk.backups_dir (Disk.with_backups (disk s) _))
        with (Disk.backups_dir (disk s)).
      f_equal. induction (Disk.backups (disk s)) as [|e l IHl]; [reflexivity|].
      cbn [List.filter existsb].
      destruct (String.eqb _ (Backup.path b)); cbn [negb orb List.filter];
        [exact IHl|].
      destruct (negb _); [now f_equal|exact IHl].
Qed.

(** X10.  On a migrated catalog that can be listed, and when marking
    gets through, [_remove_old_backups] returns; outside a dry run the
    directories left below [backups] are those that lie at the path of
    no marked snapshot, in their order, and in a dry run all of them
    are left; either way it logs one record per marked snapshot. *)
Theorem remove_old_backups_effect (self : t) (s : state)
    (listed to_delete : list Backup.t) :
  migrated s = true ->
  construct (listing (disk s)) = Ok listed ->
  marked self listed = Ok to_delete ->
  let r := _remove_old_backups self s in
  fst r = Ok tt
  /\ Disk.backups (disk (snd r))
     = (if test self then Disk.backups (disk s) else spared (disk s) to_delete)
  /\ log (snd r)
     = log s ++ {| levelname := "INFO"; msg := "Removing old backups...";
                   args := [] |} :: map (removing self) to_delete.
Proof.
  intros Hm Hc Ht r.
  assert (E : exists s', r = (Ok tt, s')
              /\ disk s' = (if test self then disk s
                            else Disk.with_backups (disk s) (spared (disk s) to_delete))
              /\ log s' = (log s ++ [ {| levelname := "INFO";
                                         msg := "Removing old backups...";
                                         args := [] |} ])
                          ++ map (removing self) to_delete).
  { unfold r, _remove_old_backups.
    unfold bind at 1, logger_info at 1, emit at 1. flat.
    unfold bind at 1. rewrite get_backups_migrated by exact Hm. flat.
    rewrite Hc. unfold bind at 1, lift at 1. rewrite Ht.
    rewrite remove_loop. flat. eexists. split; [reflexivity|]. flat.
    split; reflexivity. }
  destruct E as (s' & -> & Hd & Hl). cbn [fst snd].
  split; [reflexivity|]. split.
  - rewrite Hd. destruct (test self); reflexivity.
  - rewrite Hl. now rewrite <- app_assoc.
Qed.

Lemma remove_old_backups_effect_witness :
  let self := Examples.config false 2 0 1 in
  let s := Examples.state_of Examples.two_labels Examples.quiet in
  map Disk.name (Disk.backups (disk (snd (_remove_old_backups self s))))
  = ["daily_2024-01-03-010000"].
Proof.
  intros self s.
  destruct (remove_old_backups_effect self s
              [Examples.snapshot "daily_2024-01-03-010000";
               Examples.snapshot "monthly_2024-01-01-000000"]
              [Examples.snapshot "monthly_2024-01-01-000000"]
              eq_refl eq_refl eq_refl) as (_ & H & _).
  rewrite H. reflexivity.
Defined.

(** ** Pre- and postconditions of methods *)

Lemma triple_bind {A B} (P : state -> Prop) (m : M A) (k : A -> M B)
    (Q : A -> state -> Prop) (R : B -> state -> Prop) (E : state -> Prop) :
  triple P m Q E -> (forall a, triple (Q a) (k a) R E) -> triple P (bind m k) R E.
Proof.
  intros Hm Hk s Hs. unfold bind. specialize (Hm s Hs).
  destruct (m s) as [[a|e] s1]; [|exact Hm]. exact (Hk a s1 Hm).
Qed.

Lemma triple_weaken {A} (P P' : state -> Prop) (m : M A)
    (Q Q' : A -> state -> Prop) (E E' : state -> Prop) :
  triple P m Q E ->
  (forall s, P' s -> P s) -> (forall a s, Q a s -> Q' a s) ->
  (forall s, E s -> E' s) ->
  triple P' m Q' E'.
Proof.
  intros H HP HQ HE s Hs. specialize (H s (HP s Hs)).
  destruct (m s) as [[a|e] s1]; auto.
Qed.

Lemma triple_raise {A} (P : state -> Prop) e (Q : A -> state -> Prop) :
  triple P (raise e) Q P.
Proof. intros s Hs. exact Hs. Qed.

Lemma maintains_then {A B} (P : state -> Prop) (m : M A) (k : A -> M B)
    (R : B -> state -> Prop) :
  maintains P m -> (forall a, triple P (k a) R P) -> triple P (bind m k) R P.
Proof. intros Hm Hk. eapply triple_bind; [exact Hm|exact Hk]. Qed.

Section Maintained.

Variable P : state -> Prop.

Lemma maintains_ret {A} (a : A) : maintains P (ret a).
Proof. intros s Hs. exact Hs. Qed.

Lemma maintains_raise {A} e : maintains P (@raise A e).
Proof. intros s Hs. exact Hs. Qed.

Lemma maintains_lift {A} (r : result A) : maintains P (lift r).
Proof. intros s Hs. unfold lift. now destruct r. Qed.

Lemma maintains_get_disk : maintains P get_disk.
Proof. intros s Hs. exact Hs. Qed.

Lemma maintains_get_clock : maintains P get_clock.
Proof. intros s Hs. exact Hs. Qed.

Lemma maintains_get_migrated : maintains P get_migrated.
Proof. intros s Hs. exact Hs. Qed.

Lemma maintains_get_transfer : maintains P get_transfer.
Proof. intros s Hs. exact Hs. Qed.

Lemma maintains_bind {A B} (m : M A) (k : A -> M B) :
  maintains P m -> (forall a, maintains P (k a)) -> maintains P (bind m k).
Proof. intros Hm Hk. now apply maintains_then. Qed.

Lemma maintains_for_each {A} (l : list A) (body : A -> M unit) :
  (forall x, maintains P (body x)) -> maintains P (for_each l body).
Proof.
  intros Hb. induction l as [|x l IH]; simpl; [apply maintains_ret|].
  apply maintains_bind; [apply Hb|intros _; exact IH].
Qed.

End Maintained.

Create HintDb maintains.

#[local] Hint Resolve maintains_ret maintains_raise maintains_lift
  maintains_get_disk maintains_get_clock maintains_get_migrated
  maintains_get_transfer : maintains.

Ltac maintains_step :=
  repeat first
    [ solve [auto with maintains]
    | apply maintains_for_each; intros ?; cbv beta
    | apply maintains_bind; [|intros ?; cbv beta]
    | match goal with
      | |- maintains _ (if ?c then _ else _) => destruct c
      | |- maintains _ (match ?x with _ => _ end) => destruct x
      | |- maintains _ (let '(_, _) := ?x in _) => destruct x
      end ].

(** ** The attributes [status] and [error] *)

Section Flags.

Variables (st : string) (e : bool).

Lemma flagged_put_disk d : maintains (flagged st e) (put_disk d).
Proof. intros s Hs. exact Hs. Qed.

Lemma flagged_set_migrated b : maintains (flagged st e) (set_migrated b).
Proof. intros s Hs. exact Hs. Qed.

Lemma flagged_emit r : maintains (flagged st e) (emit r).
Proof. intros s Hs. exact Hs. Qed.

Lemma flagged_logger_info m a : maintains (flagged st e) (logger_info m a).
Proof. apply flagged_emit. Qed.

Lemma flagged_logger_error m a : maintains (flagged st e) (logger_error m a).
Proof. apply flagged_emit. Qed.

Lemma flagged_note_hashed p : maintains (flagged st e) (note_hashed p).
Proof. intros s Hs. exact Hs. Qed.

Hint Resolve flagged_put_disk flagged_set_migrated flagged_emit
  flagged_logger_info flagged_logger_error flagged_note_hashed : maintains.

Lemma flagged_move src dst : maintains (flagged st e) (move src dst).
Proof. unfold move. maintains_step. Qed.

Lemma flagged_cp_al src dst : maintains (flagged st e) (cp_al src dst).
Proof. unfold cp_al. maintains_step. Qed.

Lemma flagged_create_dir directory : maintains (flagged st e) (_create_dir directory).
Proof. unfold _create_dir. maintains_step. Qed.

Hint Resolve flagged_move flagged_cp_al flagged_create_dir : maintains.

Lemma flagged_migrate : maintains (flagged st e) _migrate_backups.
Proof. unfold _migrate_backups. maintains_step. Qed.

Hint Resolve flagged_migrate : maintains.

Lemma flagged_scan : maintains (flagged st e) scan.
Proof. unfold scan. maintains_step. Qed.

Hint Resolve flagged_scan : maintains.

Lemma flagged_get_backups : maintains (flagged st e) _get_backups.
Proof. unfold _get_backups. maintains_step. Qed.

Hint Resolve flagged_get_backups : maintains.

Lemma flagged_get_latest_backup : maintains (flagged st e) _get_latest_backup.
Proof. unfold _get_latest_backup. maintains_step. Qed.

Lemma flagged_get_incomplete_backup :
  maintains (flagged st e) _get_incomplete_backup.
Proof. unfold _get_incomplete_backup. maintains_step. Qed.

Lemma flagged_get_backup_by_name n :
  maintains (flagged st e) (_get_backup_by_name n).
Proof. unfold _get_backup_by_name. maintains_step. Qed.

Lemma flagged_get_file_md5 p : maintains (flagged st e) (_get_file_md5 p).
Proof. unfold _get_file_md5. maintains_step. Qed.

Hint Resolve flagged_get_latest_backup flagged_get_incomplete_backup
  flagged_get_backup_by_name flagged_get_file_md5 : maintains.

Lemma flagged_read_output lines : forall checksums,
  maintains (flagged st e) (read_output lines checksums).
Proof.
  induction lines as [|line lines IH]; intros checksums; cbn [read_output].
  - apply maintains_ret.
  - maintains_step.
Qed.

Hint Resolve flagged_read_output : maintains.

Lemma flagged_run_rsync cmd : maintains (flagged st e) (_run_rsync cmd).
Proof. unfold _run_rsync, Popen. maintains_step. Qed.

Lemma flagged_hash_loop backup files : forall checksums,
  maintains (flagged st e) (hash_loop backup files checksums).
Proof.
  induction files as [|f files IH]; intros checksums; cbn [hash_loop].
  - apply maintains_ret.
  - maintains_step.
Qed.

Hint Resolve flagged_run_rsync flagged_hash_loop : maintains.

Lemma flagged_get_checksums backup rsync_checksums :
  maintains (flagged st e) (_get_checksums backup rsync_checksums).
Proof. unfold _get_checksums. maintains_step. Qed.

Lemma flagged_configure_rsync self backup :
  maintains (flagged st e) (_configure_rsync self backup).
Proof. unfold _configure_rsync. maintains_step. Qed.

Lemma flagged_get_final_dest self : maintains (flagged st e) (_get_final_dest self).
Proof. unfold _get_final_dest. maintains_step. Qed.

Lemma flagged_create_interval_backups self source_backup :
  maintains (flagged st e) (_create_interval_backups self source_backup).
Proof. unfold _create_interval_backups. maintains_step. Qed.

Lemma flagged_remove_old_backups self :
  maintains (flagged st e) (_remove_old_backups self).
Proof. unfold _remove_old_backups. maintains_step. Qed.

Lemma flagged_verify_loop backup g : forall c,
  maintains (flagged st e) (verify_loop backup g c).
Proof.
  induction g as [|[[f h]|x] g IH]; intros c; cbn [verify_loop].
  - apply maintains_ret.
  - maintains_step.
  - apply maintains_raise.
Qed.

Lemma flagged_display_verification_stats stats :
  maintains (flagged st e) (_display_verification_stats stats).
Proof. unfold _display_verification_stats. maintains_step. Qed.

End Flags.

#[local] Hint Resolve flagged_put_disk flagged_set_migrated flagged_emit
  flagged_logger_info flagged_logger_error flagged_note_hashed
  flagged_move flagged_get_backups flagged_get_latest_backup
  flagged_get_backup_by_name flagged_run_rsync flagged_get_checksums
  flagged_configure_rsync flagged_get_final_dest
  flagged_create_interval_backups flagged_remove_old_backups
  flagged_verify_loop flagged_display_verification_stats : maintains.

(** X11.  [backup()] leaves the object's [error] and [status] as the
    way it ends demands: when it raises, from whatever step, [error]
    is set and [status] reads [Backup failed!]; when it returns,
    [error] is cleared and [status] tells of the completed run, or of
    the completed dry run.  The step [_remove_old_logs] enters as any
    computation that leaves the two attributes alone. *)
Theorem backup_flags (self : t) (_remove_old_logs : M unit) (s : state) :
  (forall st e, maintains (flagged st e) _remove_old_logs) ->
  match RsyncBackup.backup self _remove_old_logs s with
  | (Ok _, s') =>
      flagged (if test self then "Dry run completed successfully!"
               else "Backup completed successfully!") false s'
  | (Raise _, s') => flagged "Backup failed!" true s'
  end.
Proof.
  intros Hlogs.
  enough (H : triple (fun _ => True) (RsyncBackup.backup self _remove_old_logs)
                (fun _ => flagged (if test self then "Dry run completed successfully!"
                                   else "Backup completed successfully!") false)
                (flagged "Backup failed!" true))
    by exact (H s I).
  clear s. unfold RsyncBackup.backup.
  pose proof (Hlogs "Backup failed!" true) as Hl.
  eapply triple_bind with (Q := fun _ s => status s = "Backup failed!").
  { intros s _. reflexivity. }
  intros _. eapply triple_bind with (Q := fun _ => flagged "Backup failed!" true).
  { intros s Hs. split; [exact Hs|reflexivity]. }
  intros _.
  repeat (apply maintains_then; [solve [maintains_step]|intros ?]).
  intros s _. split; reflexivity.
Qed.

Lemma backup_flags_witness :
  match RsyncBackup.backup (Examples.config false 2 1 1) (ret tt)
          (Examples.state_of Examples.resumable Examples.failing) with
  | (Ok _, s') =>
      flagged (if test (Examples.config false 2 1 1)
               then "Dry run completed successfully!"
               else "Backup completed successfully!") false s'
  | (Raise _, s') => flagged "Backup failed!" true s'
  end.
Proof.
  apply (backup_flags (Examples.config false 2 1 1) (ret tt)
           (Examples.state_of Examples.resumable Examples.failing)).
  intros st e. apply maintains_ret.
Defined.

Lemma write_timestamp_returns self file_path s :
  fst (_write_timestamp self file_path s) = Ok tt
  /\ status (snd (_write_timestamp self file_path s)) = status s
  /\ error (snd (_write_timestamp self file_path s)) = error s.
Proof.
  unfold _write_timestamp. destruct (test self); [repeat split|].
  unfold bind, logger_info, emit, get_clock, get_disk, put_disk, ret.
  cbn [fst snd disk clock].
  destruct (String.eqb file_path _); repeat split.
Qed.

(** X12.  [verify()] clears [error] only by running to its end: when
    it raises, from whatever step, [error] is set; when it returns,
    [error] is cleared and [status] reads either [Backup verification
    completed successfully!] or [Backup verification failed!]. *)
Theorem verify_flags (self : t) (backup_name : string) (s : state) :
  match verify self backup_name s with
  | (Ok _, s') =>
      error s' = false
      /\ (status s' = "Backup verification completed successfully!"
          \/ status s' = "Backup verification failed!")
  | (Raise _, s') => error s' = true
  end.
Proof.
  enough (H : triple (fun _ => True) (verify self backup_name)
                (fun _ s => error s = false
                   /\ (status s = "Backup verification completed successfully!"
                       \/ status s = "Backup verification failed!"))
                (flagged "Backup verification failed!" true)).
  { specialize (H s I). destruct (verify self backup_name s) as [[u|x] s'];
      [exact H|exact (proj2 H)]. }
  clear s. unfold verify.
  eapply triple_bind with (Q := fun _ s => status s = "Backup verification failed!").
  { intros s _. reflexivity. }
  intros _.
  eapply triple_bind with (Q := fun _ => flagged "Backup verification failed!" true).
  { intros s Hs. split; [exact Hs|reflexivity]. }
  intros _.
  apply maintains_then;
    [destruct (String.eqb backup_name "_current_"); solve [maintains_step]|].
  intros [backup|]; [|apply triple_raise].
  apply maintains_then; [solve [maintains_step]|intros _].
  apply maintains_then; [solve [maintains_step]|intros d].
  destruct (fst (Backup.checksum_file backup d)) as [checksum_file|];
    [|apply triple_raise].
  do 4 (apply maintains_then; [solve [maintains_step]|intros ?]).
  set (G := fun s : state =>
              status s = "Backup verification completed successfully!"
              \/ status s = "Backup verification failed!").
  eapply triple_bind with (Q := fun _ => G).
  { intros s [Hst _]. destruct (negb _); cbn; [now right|now left]. }
  intros _. eapply triple_bind with (Q := fun _ => G).
  { intros s Hs. destruct (String.eqb backup_name "_current_"); [|exact Hs].
    destruct (write_timestamp_returns self (last_verification_file d) s)
      as (Hr & Hst & _).
    destruct (_write_timestamp self (last_verification_file d) s) as [r s'].
    cbn [fst snd] in *. subst r. unfold G in *. now rewrite Hst. }
  intros _ s Hs. split; [reflexivity|exact Hs].
Qed.

(** ** Dry runs and refused runs *)

Lemma triple_assume {A} (P : state -> Prop) (H : Prop) (m : M A)
    (Q : A -> state -> Prop) (E : state -> Prop) :
  (H -> triple P m Q E) -> triple (fun s => P s /\ H) m Q E.
Proof. intros Hm s [Hs Hh]. exact (Hm Hh s Hs). Qed.

Section Still.

Variable d0 : Disk.t.

Lemma still_set_status t : maintains (still d0) (set_status t).
Proof. intros s Hs. exact Hs. Qed.

Lemma still_set_error b : maintains (still d0) (set_error b).
Proof. intros s Hs. exact Hs. Qed.

Lemma still_emit r : maintains (still d0) (emit r).
Proof. intros s Hs. exact Hs. Qed.

Lemma still_logger_info m a : maintains (still d0) (logger_info m a).
Proof. apply still_emit. Qed.

Lemma still_logger_error m a : maintains (still d0) (logger_error m a).
Proof. apply still_emit. Qed.

Lemma still_note_hashed p : maintains (still d0) (note_hashed p).
Proof. intros s Hs. exact Hs. Qed.

Lemma still_scan : maintains (still d0) scan.
Proof. intros s [Hd Hm]. rewrite scan_migrated by exact Hm. now split. Qed.

Hint Resolve still_set_status still_set_error still_emit still_logger_info
  still_logger_error still_note_hashed still_scan : maintains.

Lemma still_get_backups : maintains (still d0) _get_backups.
Proof. unfold _get_backups. maintains_step. Qed.

Hint Resolve still_get_backups : maintains.

Lemma still_get_latest_backup : maintains (still d0) _get_latest_backup.
Proof. unfold _get_latest_backup. maintains_step. Qed.

Lemma still_get_incomplete_backup : maintains (still d0) _get_incomplete_backup.
Proof. unfold _get_incomplete_backup. maintains_step. Qed.

Lemma still_read_output lines : forall checksums,
  maintains (still d0) (read_output lines checksums).
Proof.
  induction lines as [|line lines IH]; intros checksums; cbn [read_output].
  - apply maintains_ret.
  - maintains_step.
Qed.

Lemma still_get_final_dest self : maintains (still d0) (_get_final_dest self).
Proof. unfold _get_final_dest. maintains_step. Qed.

Hint Resolve still_get_latest_backup still_get_incomplete_backup
  still_read_output still_get_final_dest : maintains.

(** With [-n] on its command line the sync program leaves the disk
    alone. *)
Lemma still_run_rsync cmd :
  existsb (String.eqb "-n") cmd = true -> maintains (still d0) (_run_rsync cmd).
Proof.
  intros Hn. unfold _run_rsync, Popen. rewrite Hn. maintains_step.
Qed.

Lemma still_create_interval_backups self source_backup :
  test self = true ->
  maintains (still d0) (_create_interval_backups self source_backup).
Proof.
  intros Ht. unfold _create_interval_backups. rewrite Ht. maintains_step.
Qed.

Lemma still_remove_old_backups self :
  test self = true -> maintains (still d0) (_remove_old_backups self).
Proof.
  intros Ht. unfold _remove_old_backups. rewrite Ht. maintains_step.
Qed.

(** In a dry run with no incomplete snapshot to resume,
    [_configure_rsync] leaves the disk alone and puts [-n] on the
    command line. *)
Lemma still_configure_rsync self backup :
  test self = true ->
  (forall b, first_incomplete (listing d0) <> Ok (Some b)) ->
  triple (still d0) (_configure_rsync self backup)
    (fun cmd s => still d0 s /\ existsb (String.eqb "-n") cmd = true)
    (still d0).
Proof.
  intros Ht Hno. unfold _configure_rsync. rewrite Ht. cbn [negb].
  eapply triple_bind
    with (Q := fun sc s => still d0 s /\ existsb (String.eqb "-n") (snd sc) = true).
  { intros s Hs.
    destruct (String.eqb (rsync_mode self) "ssh");
      [|destruct (String.eqb (rsync_mode self) "local")];
      cbn [ret raise fst snd]; try exact Hs; (split; [exact Hs|]);
      rewrite !existsb_app; cbn; now rewrite ?orb_true_r. }
  intros sc.
  apply triple_bind with (Q := fun d s => still d0 s
                                /\ existsb (String.eqb "-n") (snd sc) = true).
  { intros s Hs. exact Hs. }
  intros d. destruct (negb (Disk.rules d)).
  { intros s [Hs _]. exact Hs. }
  apply triple_bind with (Q := fun _ s => still d0 s
                                /\ existsb (String.eqb "-n") (snd sc) = true).
  { intros s [Hs Hn]. pose proof (still_get_latest_backup s Hs) as H.
    destruct (_get_latest_backup s) as [[a|x] s']; [now split|exact H]. }
  intros previous_backup.
  apply triple_bind with (Q := fun r s => (still d0 s
                                /\ existsb (String.eqb "-n") (snd sc) = true)
                                /\ r = None).
  { intros s [[Hd Hm] Hn]. rewrite get_incomplete_backup_migrated by exact Hm.
    unfold lift. rewrite Hd.
    destruct (first_incomplete (listing d0)) as [[b|]|x] eqn:E; cbn [fst snd].
    - exfalso. now apply (Hno b).
    - repeat split; assumption.
    - now split. }
  intros incomplete_backup s [[Hs Hn] ->].
  unfold bind, ret. cbn [fst snd]. split; [exact Hs|].
  destruct previous_backup; rewrite !existsb_app, Hn; cbn;
    now rewrite ?orb_true_r.
Qed.

End Still.

#[local] Hint Resolve still_set_status still_set_error still_emit
  still_logger_info still_logger_error still_note_hashed still_scan
  still_get_backups still_get_final_dest : maintains.

(** X13.  A dry run that finds no incomplete snapshot to resume, on a
    catalog whose migration is done, leaves the disk as it was, however
    it ends: nothing is created, renamed, written or removed.  The
    step [_remove_old_logs] enters as any computation that leaves the
    disk alone. *)
Theorem backup_dry_run (self : t) (_remove_old_logs : M unit) (s : state) :
  test self = true ->
  migrated s = true ->
  (forall b, first_incomplete (listing (disk s)) <> Ok (Some b)) ->
  (forall d, maintains (still d) _remove_old_logs) ->
  disk (snd (RsyncBackup.backup self _remove_old_logs s)) = disk s.
Proof.
  intros Ht Hm Hno Hlogs.
  enough (H : maintains (still (disk s)) (RsyncBackup.backup self _remove_old_logs)).
  { specialize (H s (conj eq_refl Hm)).
    destruct (RsyncBackup.backup self _remove_old_logs s) as [[u|x] s'];
      exact (proj1 H). }
  pose proof (Hlogs (disk s)) as Hl.
  unfold RsyncBackup.backup. rewrite Ht. cbn [negb].
  do 4 (apply maintains_then; [solve [maintains_step]|intros ?]).
  eapply triple_bind; [now apply still_configure_rsync|].
  intros cmd. apply triple_assume. intros Hn.
  pose proof (still_run_rsync (disk s) cmd Hn).
  pose proof (fun src => still_create_interval_backups (disk s) self src Ht).
  pose proof (still_remove_old_backups (disk s) self Ht).
  change (triple (still (disk s)) ?m (fun _ => still (disk s)) (still (disk s)))
    with (maintains (still (disk s)) m).
  maintains_step.
Qed.

Lemma backup_dry_run_witness :
  disk (snd (RsyncBackup.backup (Examples.config true 2 1 1) (ret tt)
               (Examples.state_of Examples.two_labels Examples.quiet)))
  = Examples.two_labels.
Proof.
  apply (backup_dry_run (Examples.config true 2 1 1) (ret tt)
           (Examples.state_of Examples.two_labels Examples.quiet)).
  - reflexivity.
  - reflexivity.
  - intros b. vm_compute. discriminate.
  - intros d. apply maintains_ret.
Defined.

(** X14.  [backup()] checks the transfer mode and the rules file
    before it touches anything: with a mode other than [ssh] and
    [local], or else without the rules file, it raises
    [BackupException] with the message of the first failed check, and
    but for [status] and [error] the state is as before: no directory
    made or moved, no migration, no log record. *)
Theorem backup_refused (self : t) (_remove_old_logs : M unit) (s : state)
    (backup : Backup.t) :
  Backup.new (os_path.join (Disk.backups_dir (disk s))
                ("incomplete_" +:+ timestamp self)) = Ok backup ->
  let mode_ok := String.eqb (rsync_mode self) "ssh"
                 || String.eqb (rsync_mode self) "local" in
  mode_ok && Disk.rules (disk s) = false ->
  RsyncBackup.backup self _remove_old_logs s
  = (Raise (BackupException
              (if mode_ok then rules self +:+ " does not exist"
               else rsync_mode self +:+ " is not a valid value for MODE")),
     started s).
Proof.
  intros Hb mode_ok H. unfold RsyncBackup.backup.
  unfold bind at 1, set_status at 1. unfold bind at 1, set_error at 1.
  fold (started s). unfold started, set_status, set_error. cbn [snd].
  unfold bind at 1, get_disk at 1. flat.
  unfold bind at 1, lift at 1. rewrite Hb.
  unfold bind at 1. unfold _configure_rsync. subst mode_ok.
  destruct (String.eqb (rsync_mode self) "ssh");
    [|destruct (String.eqb (rsync_mode self) "local")];
    cbn [orb andb] in H |- *.
  - unfold bind at 1, ret at 1. unfold bind at 1, get_disk at 1. flat.
    rewrite H. reflexivity.
  - unfold bind at 1, ret at 1. unfold bind at 1, get_disk at 1. flat.
    rewrite H. reflexivity.
  - reflexivity.
Qed.

Lemma backup_refused_witness :
  fst (RsyncBackup.backup (Examples.config false 2 1 1) (ret tt)
         (Fixtures.fresh_run Fixtures.no_rules))
  = Raise (BackupException "/etc/rsync-backup/conf.d/h.rules does not exist").
Proof.
  rewrite (backup_refused (Examples.config false 2 1 1) (ret tt)
             (Fixtures.fresh_run Fixtures.no_rules)
             (Examples.snapshot "incomplete_2024-01-03-040506"));
    reflexivity.
Defined.

Lemma scan_result s paths s' :
  scan s = (Ok paths, s') -> migrated s' = true /\ paths = listing (disk s').
Proof.
  unfold scan. unfold bind at 1, get_migrated at 1. cbn [fst snd].
  destruct (migrated s) eqn:Hm.
  - unfold bind, ret, get_disk. cbn. intros [= <- <-]. now split.
  - unfold bind at 1. unfold _migrate_backups at 1.
    unfold bind at 1, get_disk at 1. cbn [fst snd].
    unfold bind at 1.
    destruct (for_each _ _ s) as [[u|x] s1]; [|discriminate].
    unfold set_migrated at 1. unfold bind, get_disk, ret. cbn.
    intros [= <- <-]. now split.
Qed.

(** X15.  Listing the catalog migrates at most once: after a listing
    that returned, the flag [migrated] is set, and listing again
    returns the same snapshots and changes nothing. *)
Theorem get_backups_again (s s' : state) (bs : list Backup.t) :
  _get_backups s = (Ok bs, s') ->
  migrated s' = true /\ _get_backups s' = (Ok bs, s').
Proof.
  unfold _get_backups at 1. intros H.
  apply bind_inv in H as [(paths & s1 & E1 & H) | (x & _ & H)]; [|discriminate].
  unfold lift in H. injection H as Hc <-.
  apply scan_result in E1 as [Hm ->]. split; [exact Hm|].
  rewrite get_backups_migrated by exact Hm. now rewrite Hc.
Qed.

Lemma get_backups_again_witness :
  let s := Fixtures.fresh_run Fixtures.old_layout in
  let s' := snd (_get_backups s) in
  migrated s = false /\ migrated s' = true
  /\ _get_backups s'
     = (Ok [Examples.snapshot "daily_2024-01-01-000000";
            Examples.snapshot "daily_2023-12-31-000000";
            Examples.snapshot "monthly_2023-12-01-000000"], s').
Proof.
  intros s s'. split; [reflexivity|].
  apply (get_backups_again s). reflexivity.
Defined.

(** ** The name of the new snapshot *)

Lemma two_length n : n < 100 -> String.length (datetime.two n) = 2.
Proof.
  intros H.
  assert (Hall : forallb (fun k => String.length (datetime.two k) =? 2) (seq 0 100) = true)
    by (vm_compute; reflexivity).
  rewrite forallb_forall in Hall. apply Nat.eqb_eq, Hall, in_seq. lia.
Qed.

Lemma dig_of_uint_acc k r acc :
  k <= 9 -> Nat.of_uint_acc (dig k r) acc = Nat.of_uint_acc r (10 * acc + k).
Proof.
  intros H.
  assert (Ht : Nat.tail_mul 10 acc = 10 * acc) by apply Nat.tail_mul_spec.
  do 10 (destruct k as [|k];
         [cbn [dig Nat.of_uint_acc]; rewrite Ht; f_equal; lia|]).
  lia.
Qed.

Lemma dig_string k r :
  k <= 9 ->
  NilEmpty.string_of_uint (dig k r)
  = String (ascii_of_nat (48 + k)) (NilEmpty.string_of_uint r).
Proof. intros H. do 10 (destruct k as [|k]; [reflexivity|]). lia. Qed.

Lemma dig_unorm k r : 1 <= k <= 9 -> Decimal.unorm (dig k r) = dig k r.
Proof. intros H. do 10 (destruct k as [|k]; [try reflexivity; lia|]). lia. Qed.

Lemma four_digits y :
  1000 <= y -> (Z.of_nat y <= 9999)%Z ->
  exists a b c d,
    1 <= a <= 9 /\ b <= 9 /\ c <= 9 /\ d <= 9
    /\ y = 10 * (10 * (10 * (10 * 0 + a) + b) + c) + d.
Proof.
  intros H1 H2.
  exists (y / 1000), ((y mod 1000) / 100), ((y mod 100) / 10), (y mod 10).
  pose proof (Nat.div_mod_eq y 1000). pose proof (Nat.mod_upper_bound y 1000).
  pose proof (Nat.div_mod_eq (y mod 1000) 100).
  pose proof (Nat.mod_upper_bound (y mod 1000) 100).
  pose proof (Nat.div_mod_eq (y mod 100) 10).
  pose proof (Nat.mod_upper_bound (y mod 100) 10).
  assert (E1 : (y mod 1000) mod 100 = y mod 100).
  { replace 1000 with (100 * 10) by reflexivity.
    rewrite Nat.Div0.mod_mul_r, Nat.mul_comm, Nat.Div0.mod_add.
    apply Nat.Div0.mod_mod. }
  assert (E2 : (y mod 100) mod 10 = y mod 10).
  { replace 100 with (10 * 10) by reflexivity.
    rewrite Nat.Div0.mod_mul_r, Nat.mul_comm, Nat.Div0.mod_add.
    apply Nat.Div0.mod_mod. }
  lia.
Qed.

Lemma decimal_four a b c d :
  1 <= a <= 9 -> b <= 9 -> c <= 9 -> d <= 9 ->
  datetime.decimal (10 * (10 * (10 * (10 * 0 + a) + b) + c) + d)
  = String (ascii_of_nat (48 + a)) (String (ascii_of_nat (48 + b))
      (String (ascii_of_nat (48 + c)) (String (ascii_of_nat (48 + d)) EmptyString))).
Proof.
  intros Ha Hb Hc Hd. unfold datetime.decimal.
  set (u := dig a (dig b (dig c (dig d Decimal.Nil)))).
  assert (Hu : Nat.of_uint u = 10 * (10 * (10 * (10 * 0 + a) + b) + c) + d).
  { unfold Nat.of_uint, u. rewrite !dig_of_uint_acc by lia. reflexivity. }
  rewrite <- Hu, Unsigned.to_of. unfold u. rewrite dig_unorm by lia.
  rewrite !dig_string by lia. reflexivity.
Qed.

Lemma year_length y :
  1000 <= y -> (Z.of_nat y <= 9999)%Z -> String.length (datetime.decimal y) = 4.
Proof.
  intros H1 H2. destruct (four_digits y H1 H2) as (a & b & c & d & Ha & Hb & Hc & Hd & ->).
  now rewrite decimal_four.
Qed.

Lemma length_append a b : String.length (a +:+ b) = String.length a + String.length b.
Proof. rewrite <- !to_list_length, to_list_app. apply length_app. Qed.

Lemma valid_bounds d :
  calendar.valid d = true ->
  1 <= datetime.year d /\ (Z.of_nat (datetime.year d) <= 9999)%Z
  /\ 1 <= datetime.month d <= 12
  /\ 1 <= datetime.day d
     <= calendar.days_in_month (datetime.year d) (datetime.month d)
  /\ datetime.hour d <= 23 /\ datetime.minute d <= 59 /\ datetime.second d <= 59.
Proof.
  unfold calendar.valid. rewrite !andb_true_iff, !Nat.leb_le, Z.leb_le. tauto.
Qed.

Lemma days_in_month_le y m : calendar.days_in_month y m <= 31.
Proof.
  unfold calendar.days_in_month.
  do 12 (destruct m as [|m]; [try destruct (calendar.is_leap y); lia|]). lia.
Qed.

Lemma stamp_length d : clock_time d -> String.length (datetime.stamp d) = 17.
Proof.
  intros [Hv Hy]. apply valid_bounds in Hv as (_ & Hy' & Hm & Hd & HH & HM & HS).
  pose proof (days_in_month_le (datetime.year d) (datetime.month d)).
  unfold datetime.stamp, datetime.Ymd, datetime.Ym, datetime.Y.
  rewrite !length_append, !two_length, year_length by lia. reflexivity.
Qed.

Lemma stamp_like_timestamp self :
  clock_time (current_datetime self) -> stamp_like (timestamp self).
Proof.
  intros H. split; [now apply stamp_length|apply stamp_chars].
Qed.

Lemma parse_stamped self L :
  clock_time (current_datetime self) -> label_like L ->
  Backup._parse_name (L +:+ "_" +:+ timestamp self) = Ok (timestamp self, L).
Proof.
  intros Hc HL. unfold Backup._parse_name, re.snapshot_name.
  destruct (anchored_form re.some_dots L (timestamp self)
              (stamp_like_timestamp self Hc)) as [-> _].
  apply some_dots_label in HL. now rewrite HL.
Qed.

(** *** Shell patterns *)

Lemma glob_star_any p a : forall s,
  fnmatch.glob p s = true ->
  fnmatch.glob ("*"%char :: p) (a ++ s) = true.
Proof.
  induction a as [|c a IH]; intros s H; cbn [app].
  - cbn [fnmatch.glob]. cbn. destruct s; now rewrite H.
  - specialize (IH s H). cbn [fnmatch.glob] in *. cbn in *.
    rewrite IH. apply orb_true_r.
Qed.

Lemma glob_literal lit : forall p s,
  forallb (fun c => negb (Ascii.eqb c "*") && negb (Ascii.eqb c "?")) lit = true ->
  fnmatch.glob (lit ++ p) (lit ++ s) = fnmatch.glob p s.
Proof.
  induction lit as [|c lit IH]; intros p s H; [reflexivity|].
  simpl in H. apply andb_true_iff in H as [Hc H].
  apply andb_true_iff in Hc as [H1 H2]. apply negb_true_iff in H1.
  cbn [app fnmatch.glob]. rewrite H1. apply negb_true_iff in H2. rewrite H2, Ascii.eqb_refl. cbn [orb andb].
  now apply IH.
Qed.

Lemma glob_star_end s : fnmatch.glob ["*"%char] s = true.
Proof.
  cbn [fnmatch.glob]. change ("*" =? "*")%char with true. cbn iota.
  induction s as [|c s IH]; [reflexivity|exact IH].
Qed.

Lemma rtail_prefix r : exists rest, r = os_path.rtail r ++ rest.
Proof.
  induction r as [|c r [rest IH]]; [now exists []|].
  simpl. destruct (Ascii.eqb c os_path.sep).
  - now exists (c :: r).
  - exists rest. simpl. now f_equal.
Qed.

Lemma basename_suffix p :
  exists q, Bytes.to_list p = q ++ Bytes.to_list (os_path.basename p).
Proof.
  unfold os_path.basename. rewrite to_of_list.
  destruct (rtail_prefix (rev (Bytes.to_list p))) as [rest E].
  exists (rev rest).
  rewrite <- rev_app_distr, <- E. symmetry. apply rev_involutive.
Qed.

Lemma startswith_split p : forall s,
  Bytes.startswith s p = true -> exists r, Bytes.to_list s = Bytes.to_list p ++ r.
Proof.
  unfold Bytes.startswith.
  induction p as [|c p IH]; intros s H.
  - now exists (Bytes.to_list s).
  - destruct s as [|x s]; [discriminate|]. cbn -[ascii_dec] in H.
    destruct (ascii_dec c x) as [->|]; [|discriminate].
    destruct (IH s H) as [r E]. exists r.
    change (Bytes.to_list (String x s)) with (x :: Bytes.to_list s).
    change (Bytes.to_list (String x p)) with (x :: Bytes.to_list p).
    cbn [app]. now f_equal.
Qed.

Lemma ts_char_plain l :
  forallb re.ts_char l = true ->
  forallb (fun c => negb (Ascii.eqb c "*") && negb (Ascii.eqb c "?")) l = true.
Proof.
  induction l as [|c l IH]; simpl; [reflexivity|].
  intros H. apply andb_true_iff in H as [Hc H]. rewrite IH by exact H.
  rewrite andb_true_r.
  destruct (Ascii.eqb_spec c "*") as [->|]; [vm_compute in Hc; discriminate|].
  destruct (Ascii.eqb_spec c "?") as [->|]; [vm_compute in Hc; discriminate|].
  reflexivity.
Qed.

Lemma Ymd_chars d : forallb re.ts_char (Bytes.to_list (datetime.Ymd d)) = true.
Proof.
  unfold datetime.Ymd, datetime.Ym, datetime.Y, datetime.decimal.
  rewrite !forallb_to_list_app, !two_digits, !string_of_uint_digits. reflexivity.
Qed.

(** A snapshot stamped with a day lies at a path the pattern of that
    day matches. *)
Lemma day_pattern_matches b p d :
  Backup.new p = Ok b ->
  Bytes.startswith (Backup.timestamp b) (datetime.Ymd d +:+ "-") = true ->
  fnmatch.fnmatch (Backup.path b) ("*_" +:+ datetime.Ymd d +:+ "-*") = true.
Proof.
  intros Hb Hs. apply new_parse in Hb as (Hp & Hn & Hsn).
  apply anchored_facts in Hsn as (_ & _ & Hname).
  destruct (basename_suffix (Backup.path b)) as [q Hq].
  rewrite Hp, <- Hn in Hq.
  apply startswith_split in Hs as [r Hr].
  assert (E : exists tail,
            Bytes.to_list (Backup.path b)
            = (q ++ Bytes.to_list (Backup.interval b))
              ++ ("_"%char :: Bytes.to_list (datetime.Ymd d) ++ ["-"%char]) ++ tail).
  { rewrite Hp, Hq.
    destruct Hname as [-> | ->]; rewrite !to_list_app, Hr, to_list_app;
      [exists r|exists (r ++ Bytes.to_list Bytes.nl)];
      cbn; rewrite <- !app_assoc; cbn; now rewrite <- ?app_assoc. }
  destruct E as [tail E]. unfold fnmatch.fnmatch. rewrite E.
  replace (Bytes.to_list ("*_" +:+ datetime.Ymd d +:+ "-*"))
    with ("*"%char :: ("_"%char :: Bytes.to_list (datetime.Ymd d) ++ ["-"%char])
                       ++ ["*"%char])
    by (rewrite !to_list_app; cbn; now rewrite <- app_assoc).
  apply glob_star_any. rewrite glob_literal; [apply glob_star_end|].
  cbn [forallb app]. rewrite forallb_app, (ts_char_plain _ (Ymd_chars d)).
  reflexivity.
Qed.

Lemma construct_In paths : forall bs b,
  construct paths = Ok bs -> In b bs -> exists p, Backup.new p = Ok b.
Proof.
  induction paths as [|p paths IH]; simpl; intros bs b H Hin.
  - injection H as <-. destruct Hin.
  - destruct (Backup.new p) as [x|] eqn:E; [|discriminate].
    destruct (construct paths) as [bs'|]; [|discriminate].
    injection H as <-. destruct Hin as [<-|Hin]; eauto.
Qed.

(** X16.  On a migrated catalog that can be listed, and at a time the
    clock can show, [_get_final_dest] gives the new snapshot a name
    that the catalog's pattern accepts, made of the label [daily] or
    [custom] and the timestamp of the run: [custom] whenever a daily
    snapshot stamped with the day of the run is listed, and [daily]
    when no daily snapshot is listed at all. *)
Theorem final_dest_name (self : t) (s : state) (bs : list Backup.t) :
  migrated s = true ->
  construct (listing (disk s)) = Ok bs ->
  clock_time (current_datetime self) ->
  exists L,
    _get_final_dest self s
    = (Ok (os_path.join (Disk.backups_dir (disk s))
             (L +:+ "_" +:+ timestamp self)), s)
    /\ Backup._parse_name (L +:+ "_" +:+ timestamp self) = Ok (timestamp self, L)
    /\ (L = "daily" \/ L = "custom")
    /\ (forall b, In b bs -> Backup.interval b = "daily" ->
          Bytes.startswith (Backup.timestamp b)
            (datetime.Ymd (current_datetime self) +:+ "-") = true ->
          L = "custom")
    /\ ((forall b, In b bs -> Backup.interval b <> "daily") -> L = "daily").
Proof.
  intros Hm Hc Hclock.
  unfold _get_final_dest. unfold bind at 1.
  rewrite get_backups_migrated by exact Hm. cbn [fst snd]. rewrite Hc.
  unfold bind at 1, lift at 1, pattern_of, intervals. cbn [List.find fst].
  cbn [String.eqb Ascii.eqb Bool.eqb]. cbn [pattern].
  unfold bind at 1, get_disk at 1. cbn [fst snd].
  set (daily := List.filter (fun b => String.eqb (Backup.interval b) "daily") bs).
  set (pat := "*_" +:+ datetime.Ymd (current_datetime self) +:+ "-*").
  destruct (fnmatch.filter (map Backup.path daily) pat) as [|x l] eqn:E.
  - exists "daily". split; [reflexivity|].
    split; [apply parse_stamped; [exact Hclock|split; [discriminate|reflexivity]]|].
    split; [now left|]. split; [|reflexivity].
    intros b Hb Hi Hs. exfalso.
    destruct (construct_In _ _ _ Hc Hb) as [p Hp].
    pose proof (day_pattern_matches b p _ Hp Hs) as Hmatch.
    assert (Hin : In (Backup.path b) (fnmatch.filter (map Backup.path daily) pat)).
    { unfold fnmatch.filter. apply filter_In. split; [|exact Hmatch].
      apply in_map. unfold daily. apply filter_In. split; [exact Hb|].
      now apply String.eqb_eq. }
    rewrite E in Hin. destruct Hin.
  - exists "custom". split; [reflexivity|].
    split; [apply parse_stamped; [exact Hclock|split; [discriminate|reflexivity]]|].
    split; [now right|]. split; [reflexivity|].
    intros Hnone. exfalso.
    assert (Hin : In x (fnmatch.filter (map Backup.path daily) pat))
      by (rewrite E; now left).
    unfold fnmatch.filter in Hin. apply filter_In in Hin as [Hin _].
    apply in_map_iff in Hin as (b & _ & Hb). unfold daily in Hb.
    apply filter_In in Hb as [Hb Hi]. apply String.eqb_eq in Hi.
    now apply (Hnone b).
Qed.

Lemma final_dest_name_witness :
  exists L,
    _get_final_dest (Examples.config false 2 1 1)
      (Examples.state_of Examples.two_labels Examples.quiet)
    = (Ok (os_path.join "/srv/h/backups" (L +:+ "_2024-01-03-040506")),
       Examples.state_of Examples.two_labels Examples.quiet)
    /\ L = "custom".
Proof.
  destruct (final_dest_name (Examples.config false 2 1 1)
              (Examples.state_of Examples.two_labels Examples.quiet)
              [Examples.snapshot "daily_2024-01-03-010000";
               Examples.snapshot "monthly_2024-01-01-000000"]
              eq_refl eq_refl)
    as (L & H1 & _ & _ & H2 & _).
  - split; [reflexivity|]. vm_compute. lia.
  - exists L. split; [exact H1|].
    apply (H2 (Examples.snapshot "daily_2024-01-03-010000"));
      [now left|reflexivity|reflexivity].
Defined.

(** ** Paths below the backup root *)

Lemma no_sep_relative x : no_sep x -> Bytes.startswith x "/" = false.
Proof.
  intros Hx. destruct (Bytes.startswith x "/") eqn:E; [|reflexivity].
  destruct (startswith_sep (Bytes.to_list x)) as [l El]; [now rewrite of_to_list|].
  unfold no_sep in Hx. rewrite El in Hx. discriminate.
Qed.

Lemma join_relative dir x : no_sep x -> os_path.join dir x = lead dir +:+ x.
Proof.
  intros Hx. unfold os_path.join, lead. rewrite (no_sep_relative x Hx).
  destruct (_ || _); [reflexivity|]. now rewrite append_assoc.
Qed.

Lemma append_inv_head a b c : a +:+ b = a +:+ c -> b = c.
Proof.
  intros H. apply to_list_inj. apply (f_equal Bytes.to_list) in H.
  rewrite !to_list_app in H. now apply app_inv_head in H.
Qed.

Lemma join_inj dir a b :
  no_sep a -> no_sep b -> os_path.join dir a = os_path.join dir b -> a = b.
Proof.
  intros Ha Hb. rewrite !join_relative by assumption. apply append_inv_head.
Qed.

Lemma lead_backups root : lead (lead root +:+ "backups") = lead root +:+ "backups/".
Proof.
  unfold lead at 1.
  replace (String.eqb (lead root +:+ "backups") "") with false.
  2:{ symmetry. apply String.eqb_neq. intros E.
      apply (f_equal Bytes.to_list) in E. rewrite to_list_app in E.
      apply app_eq_nil in E as [_ E]. discriminate. }
  rewrite to_list_app, rev_app_distr. cbn [orb].
  replace (Bytes.startswith _ "/") with false.
  - rewrite append_assoc. reflexivity.
  - symmetry. unfold Bytes.startswith, Bytes.of_list. cbn -[ascii_dec].
    destruct (ascii_dec "/" "s"); [discriminate|reflexivity].
Qed.

(** A name below [backups] and a name below the root never give the
    same path. *)
Lemma join_apart root a b :
  no_sep a -> no_sep b ->
  os_path.join (os_path.join root "backups") a <> os_path.join root b.
Proof.
  intros Ha Hb. rewrite (join_relative root "backups") by reflexivity.
  rewrite !join_relative by assumption. rewrite lead_backups, append_assoc.
  intros E. apply append_inv_head in E. subst b.
  unfold no_sep in Hb. rewrite to_list_app in Hb. discriminate.
Qed.

Lemma at_path_none dir l p :
  (forall y, In y l -> os_path.join dir (Disk.name y) <> p) ->
  Disk.at_path dir l p = None.
Proof.
  unfold Disk.at_path. induction l as [|y l IH]; intros H; [reflexivity|].
  simpl. destruct (String.eqb_spec (os_path.join dir (Disk.name y)) p) as [E|_].
  - exfalso. apply (H y); [now left|exact E].
  - apply IH. intros z Hz. apply H. now right.
Qed.

Lemma at_path_some dir l p e :
  Disk.at_path dir l p = Some e -> In e l /\ os_path.join dir (Disk.name e) = p.
Proof.
  unfold Disk.at_path. intros H. apply List.find_some in H as [Hin H].
  split; [exact Hin|now apply String.eqb_eq].
Qed.

Lemma at_path_middle dir l1 e l2 p :
  (forall y, In y l1 -> os_path.join dir (Disk.name y) <> p) ->
  os_path.join dir (Disk.name e) = p ->
  Disk.at_path dir (l1 ++ e :: l2) p = Some e.
Proof.
  unfold Disk.at_path. induction l1 as [|y l1 IH]; intros H He; simpl.
  - now rewrite He, String.eqb_refl.
  - destruct (String.eqb_spec (os_path.join dir (Disk.name y)) p) as [E|_].
    + exfalso. apply (H y); [now left|exact E].
    + apply IH; [|exact He]. intros z Hz. apply H. now right.
Qed.

Lemma remove_path_none dir l p :
  (forall y, In y l -> os_path.join dir (Disk.name y) <> p) ->
  Disk.remove_path dir l p = l.
Proof.
  unfold Disk.remove_path. induction l as [|y l IH]; intros H; [reflexivity|].
  simpl. destruct (String.eqb_spec (os_path.join dir (Disk.name y)) p) as [E|_].
  - exfalso. apply (H y); [now left|exact E].
  - simpl. f_equal. apply IH. intros z Hz. apply H. now right.
Qed.

Lemma remove_path_middle dir l1 e l2 p :
  (forall y, In y (l1 ++ l2) -> os_path.join dir (Disk.name y) <> p) ->
  os_path.join dir (Disk.name e) = p ->
  Disk.remove_path dir (l1 ++ e :: l2) p = l1 ++ l2.
Proof.
  intros H He. unfold Disk.remove_path. rewrite List.filter_app. simpl.
  rewrite He, String.eqb_refl. simpl.
  fold (Disk.remove_path dir l1 p). fold (Disk.remove_path dir l2 p).
  rewrite !remove_path_none; [reflexivity| |];
    intros y Hy; apply H; apply in_or_app; auto.
Qed.

Lemma rename_same e : Disk.rename e (Disk.name e) = e.
Proof. now destruct e. Qed.

Lemma update_path_names_eq dir l p f :
  (forall e, Disk.name (f e) = Disk.name e) ->
  map Disk.name (Disk.update_path dir l p f) = map Disk.name l.
Proof.
  intros Hf. unfold Disk.update_path. rewrite map_map. apply map_ext.
  intros e. now destruct (String.eqb _ _).
Qed.

Lemma update_path_keeps dir l p f x :
  In x l -> os_path.join dir (Disk.name x) <> p -> In x (Disk.update_path dir l p f).
Proof.
  intros Hin Hne. unfold Disk.update_path. apply in_map_iff. exists x.
  split; [|exact Hin].
  destruct (String.eqb_spec (os_path.join dir (Disk.name x)) p); [contradiction|reflexivity].
Qed.

Lemma update_path_In dir l p f y' :
  In y' (Disk.update_path dir l p f) ->
  In y' l \/ exists y, In y l /\ os_path.join dir (Disk.name y) = p /\ y' = f y.
Proof.
  unfold Disk.update_path. intros H. apply in_map_iff in H as (y & E & Hy).
  destruct (String.eqb_spec (os_path.join dir (Disk.name y)) p) as [Ep|_].
  - right. exists y. auto.
  - left. now subst y'.
Qed.

(** ** Migrating the old layout *)

Lemma nodup_middle {A} (f : A -> string) l1 e l2 y :
  List.NoDup (map f (l1 ++ e :: l2)) -> In y (l1 ++ l2) -> f y <> f e.
Proof.
  rewrite map_app. cbn [map]. intros H Hy E.
  apply List.NoDup_remove_2 in H. apply H. rewrite <- map_app, <- E.
  now apply in_map.
Qed.

Lemma filter_keep_app_one done e :
  List.filter (fun x => negb (old_style x)) (done ++ [e])
  = List.filter (fun x => negb (old_style x)) done
    ++ (if old_style e then [] else [e]).
Proof. rewrite List.filter_app. cbn. now destruct (old_style e). Qed.

Lemma migrate_step d0 done e todo s s1 :
  Forall (fun x => no_sep (Disk.name x)) (Disk.backups d0) ->
  listed_names (done ++ e :: todo) ->
  migrating d0 done (e :: todo) s ->
  (if re.is_snapshot_name (Disk.name e)
   then move (os_path.join (Disk.path d0) (Disk.name e))
             (os_path.join (Disk.backups_dir d0) (Disk.name e))
   else ret tt) s = (Ok tt, s1) ->
  migrating d0 (done ++ [e]) todo s1.
Proof.
  intros Hb0 [Hsep Hnd] (Hp & Ht & Hb & Hd & Hx) E.
  rewrite List.Forall_forall in Hsep, Hb0.
  assert (He : no_sep (Disk.name e)) by (apply Hsep, in_or_app; right; now left).
  assert (Hother : forall y, In y (done ++ todo) -> Disk.name y <> Disk.name e)
    by (intros y Hy; eapply nodup_middle; eauto).
  fold (old_style e) in E. destruct (old_style e) eqn:Eo.
  2:{ (* not a snapshot: left where it is *)
    injection E as <-. split; [exact Hp|]. split.
    { rewrite filter_keep_app_one, Eo, Ht, <- app_assoc. reflexivity. }
    split; [|split; [|exact Hx]].
    - intros y Hy. destruct (Hb y Hy) as [H|[H1 H2]]; [now left|right].
      split; [apply in_or_app; now left|exact H2].
    - intros x Hin Ho Hf. apply in_app_or in Hin as [Hin|[<-|[]]]; [now apply Hd|].
      congruence. }
  (* a snapshot of the old layout *)
  assert (Hbsep : forall y, In y (Disk.backups (disk s)) -> no_sep (Disk.name y)).
  { intros y Hy. destruct (Hb y Hy) as [H|[H _]].
    - apply in_map_iff in H as (z & <- & Hz). now apply Hb0.
    - apply Hsep, in_or_app. now left. }
  set (src := os_path.join (Disk.path d0) (Disk.name e)) in *.
  set (dst := os_path.join (Disk.backups_dir d0) (Disk.name e)) in *.
  assert (Hdir : Disk.backups_dir (disk s) = Disk.backups_dir d0)
    by (unfold Disk.backups_dir; now rewrite Hp).
  assert (Hhere : Disk.snapshot_at (disk s) src = None).
  { unfold Disk.snapshot_at. rewrite Hdir. apply at_path_none. intros y Hy.
    unfold Disk.backups_dir. apply join_apart; [now apply Hbsep|exact He]. }
  assert (Habove : Disk.at_path (Disk.path (disk s)) (Disk.top (disk s)) src = Some e).
  { rewrite Hp, Ht. apply at_path_middle; [|reflexivity].
    intros y Hy E'. apply filter_In in Hy as [Hy _].
    apply join_inj in E'; [|apply Hsep, in_or_app; now left|exact He].
    apply (Hother y); [apply in_or_app; now left|exact E']. }
  assert (Hwithout : Disk.remove_path (Disk.path (disk s)) (Disk.top (disk s)) src
                     = List.filter (fun x => negb (old_style x)) done ++ todo).
  { rewrite Hp, Ht. apply remove_path_middle; [|reflexivity].
    intros y Hy E'.
    assert (Hy' : In y (done ++ todo)).
    { apply in_app_or in Hy as [Hy|Hy]; apply in_or_app; [left|now right].
      now apply filter_In in Hy as [Hy _]. }
    apply join_inj in E'; [|apply Hsep|exact He].
    - now apply (Hother y).
    - apply in_app_or in Hy' as [?|?]; apply in_or_app; [now left|right; now right]. }
  assert (Hne : String.eqb src dst = false).
  { apply String.eqb_neq. intros E'. symmetry in E'. revert E'.
    apply join_apart; exact He. }
  assert (Htop : List.filter (fun x => negb (old_style x)) (done ++ [e]) ++ todo
                 = List.filter (fun x => negb (old_style x)) done ++ todo)
    by (rewrite filter_keep_app_one, Eo, app_nil_r; reflexivity).
  unfold move, bind, get_disk in E. cbn [fst snd] in E.
  rewrite Hhere, Habove, Hwithout, Hne in E.
  destruct (Disk.snapshot_at (disk s) dst) as [target|] eqn:Etarget.
  - (* a directory of that name is there already *)
    destruct (existsb _ (Disk.inside target)); [discriminate|].
    unfold put_disk in E. injection E as <-. unfold migrating.
    cbn [disk Disk.path Disk.top Disk.backups Disk.with_backups Disk.with_top].
    unfold Disk.snapshot_at in Etarget. rewrite Hdir in *.
    apply at_path_some in Etarget as [Htin Htp]. fold dst in Htp.
    split; [exact Hp|]. split; [now rewrite Htop|].
    split; [|split].
    + intros y' Hy'. apply update_path_In in Hy' as [Hy|(y & Hy & Ey & ->)].
      * destruct (Hb y' Hy) as [H|[H1 H2]]; [now left|right].
        split; [apply in_or_app; now left|exact H2].
      * cbn [Disk.name Disk.with_inside].
        destruct (Hb y Hy) as [H|[H1 H2]]; [now left|].
        exfalso. apply join_inj in Ey; [|now apply Hbsep|exact He].
        apply (Hother y); [apply in_or_app; now left|exact Ey].
    + intros x Hin Ho Hf. apply in_app_or in Hin as [Hin|[<-|[]]].
      * apply update_path_keeps; [now apply Hd|].
        intros Ex. apply join_inj in Ex; [|apply Hsep, in_or_app; now left|exact He].
        apply (Hother x); [apply in_or_app; now left|exact Ex].
      * exfalso. apply join_inj in Htp; [|now apply Hbsep|exact He].
        destruct (Hb target Htin) as [H|[H _]].
        -- apply Hf. now rewrite <- Htp.
        -- apply (Hother target); [apply in_or_app; now left|exact Htp].
    + destruct Hx as [extra Hx]. exists extra.
      now rewrite update_path_names_eq by reflexivity.
  - (* the name is free below [backups] *)
    unfold put_disk in E. injection E as <-. unfold migrating.
    cbn [disk Disk.path Disk.top Disk.backups Disk.with_backups Disk.with_top].
    unfold dst. rewrite basename_join by exact He. rewrite rename_same.
    split; [exact Hp|]. split; [now rewrite Htop|].
    split; [|split].
    + intros y Hy. apply in_app_or in Hy as [Hy|[<-|[]]].
      * destruct (Hb y Hy) as [H|[H1 H2]]; [now left|right].
        split; [apply in_or_app; now left|exact H2].
      * right. split; [apply in_or_app; right; now left|exact Eo].
    + intros x Hin Ho Hf. apply in_or_app.
      apply in_app_or in Hin as [Hin|[<-|[]]]; [left; now apply Hd|right; now left].
    + destruct Hx as [extra Hx]. exists (extra ++ [Disk.name e]).
      rewrite map_app, Hx, <- app_assoc. reflexivity.
Qed.

Lemma migrate_loop d0 : forall todo done s s',
  Forall (fun x => no_sep (Disk.name x)) (Disk.backups d0) ->
  listed_names (done ++ todo) ->
  migrating d0 done todo s ->
  for_each todo (fun entry =>
    if re.is_snapshot_name (Disk.name entry) then
      move (os_path.join (Disk.path d0) (Disk.name entry))
           (os_path.join (Disk.backups_dir d0) (Disk.name entry))
    else ret tt) s = (Ok tt, s') ->
  migrating d0 (done ++ todo) [] s'.
Proof.
  induction todo as [|e todo IH]; intros done s s' Hb0 Hn Hinv E.
  - cbn in E. injection E as <-. now rewrite app_nil_r.
  - cbn [for_each] in E.
    apply bind_inv in E as [(u & s1 & E1 & E) | (x & _ & H)]; [|discriminate].
    destruct u.
    pose proof (migrate_step d0 done e todo s s1 Hb0 Hn Hinv E1) as Hstep.
    replace (done ++ e :: todo) with ((done ++ [e]) ++ todo) in *
      by (now rewrite <- app_assoc).
    exact (IH (done ++ [e]) s1 s' Hb0 Hn Hstep E).
Qed.

(** X17.  [_migrate_backups], when it gets through, takes every
    directory named like a snapshot out of the backup root and leaves
    the other entries of the root as they were; a directory whose name
    was free below [backups] is then found there as it was; the
    directories that were below [backups] still are, under their names
    and in their order; and the flag [migrated] is set.  The names in
    each of the two directories are taken to be without separator and
    distinct. *)
Theorem migrate_backups_moves (s s' : state) :
  listed_names (Disk.top (disk s)) ->
  Forall (fun x => no_sep (Disk.name x)) (Disk.backups (disk s)) ->
  _migrate_backups s = (Ok tt, s') ->
  migrated s' = true
  /\ Disk.top (disk s')
     = List.filter (fun e => negb (old_style e)) (Disk.top (disk s))
  /\ (forall e, In e (Disk.top (disk s)) -> old_style e = true ->
        ~ In (Disk.name e) (map Disk.name (Disk.backups (disk s))) ->
        In e (Disk.backups (disk s')))
  /\ exists extra,
       map Disk.name (Disk.backups (disk s'))
       = map Disk.name (Disk.backups (disk s)) ++ extra.
Proof.
  intros Hn Hb0 E. unfold _migrate_backups in E.
  unfold bind at 1, get_disk at 1 in E. cbn [fst snd] in E.
  apply bind_inv in E as [(u & s1 & E1 & E) | (x & _ & H)]; [|discriminate].
  destruct u. unfold set_migrated in E. injection E as <-.
  cbn [migrated disk].
  assert (H0 : migrating (disk s) [] (Disk.top (disk s)) s).
  { repeat split; try reflexivity.
    - intros y Hy. left. now apply in_map.
    - intros x [].
    - exists []. now rewrite app_nil_r. }
  destruct (migrate_loop (disk s) (Disk.top (disk s)) [] s s1 Hb0 Hn H0 E1)
    as (_ & Ht & _ & Hd & Hx).
  cbn [app] in *. rewrite app_nil_r in Ht.
  split; [reflexivity|]. split; [exact Ht|]. split; [exact Hd|exact Hx].
Qed.

Lemma migrate_backups_moves_witness :
  map Disk.name
    (Disk.top (disk (snd (_migrate_backups (Fixtures.fresh_run Fixtures.old_layout)))))
  = ["logs"]
  /\ map Disk.name
       (Disk.backups
          (disk (snd (_migrate_backups (Fixtures.fresh_run Fixtures.old_layout)))))
     = ["daily_2024-01-01-000000"; "daily_2023-12-31-000000";
        "monthly_2023-12-01-000000"].
Proof.
  assert (Hn : listed_names (Disk.top (disk (Fixtures.fresh_run Fixtures.old_layout)))).
  { split; [repeat constructor|].
    repeat constructor; cbn; intuition discriminate. }
  assert (Hb : Forall (fun x => no_sep (Disk.name x))
                 (Disk.backups (disk (Fixtures.fresh_run Fixtures.old_layout))))
    by repeat constructor.
  destruct (migrate_backups_moves (Fixtures.fresh_run Fixtures.old_layout)
              (snd (_migrate_backups (Fixtures.fresh_run Fixtures.old_layout)))
              Hn Hb eq_refl) as (_ & Ht & _ & _).
  split; [rewrite Ht; reflexivity|reflexivity].
Defined.

(** ** Snapshots of the running periods *)

Lemma glob_period x pre rest :
  forallb re.ts_char x = true ->
  fnmatch.glob ("*"%char :: "_"%char :: x ++ ["-"%char; "*"%char])
    (pre ++ "_"%char :: x ++ "-"%char :: rest) = true.
Proof.
  intros Hx. apply glob_star_any.
  change ("_"%char :: x ++ ["-"%char; "*"%char])
    with (("_"%char :: x) ++ ["-"%char; "*"%char]).
  replace (("_"%char :: x) ++ ["-"%char; "*"%char])
    with (("_"%char :: x ++ ["-"%char]) ++ ["*"%char])
    by (cbn; now rewrite <- app_assoc).
  replace ("_"%char :: x ++ "-"%char :: rest)
    with (("_"%char :: x ++ ["-"%char]) ++ rest)
    by (cbn; now rewrite <- app_assoc).
  rewrite glob_literal; [apply glob_star_end|].
  cbn [forallb]. rewrite forallb_app, (ts_char_plain _ Hx). reflexivity.
Qed.

Lemma Ym_chars d : forallb re.ts_char (Bytes.to_list (datetime.Ym d)) = true.
Proof.
  unfold datetime.Ym, datetime.Y, datetime.decimal.
  rewrite !forallb_to_list_app, !two_digits, !string_of_uint_digits. reflexivity.
Qed.

Lemma Y_chars d : forallb re.ts_char (Bytes.to_list (datetime.Y d)) = true.
Proof. apply string_of_uint_digits. Qed.

(** The name a copy gets lies in the running period of its label. *)
Lemma copy_in_period self dir K v :
  In (K, v) (intervals self) -> K <> "custom" ->
  fnmatch.fnmatch (os_path.join dir (K +:+ "_" +:+ timestamp self))
    ("*_" +:+ pattern v) = true.
Proof.
  intros Hin Hc.
  assert (HK : periodic K).
  { unfold intervals in Hin. simpl in Hin. unfold periodic.
    destruct Hin as [H|[H|[H|[H|[]]]]]; injection H as <- _; auto. congruence. }
  rewrite join_relative by now apply copy_name_no_sep.
  unfold fnmatch.fnmatch.
  assert (E : forall x rest,
            Bytes.to_list (timestamp self) = x ++ "-"%char :: rest ->
            forallb re.ts_char x = true ->
            fnmatch.glob (Bytes.to_list ("*_" +:+ Bytes.of_list x +:+ "-*"))
              (Bytes.to_list (lead dir +:+ K +:+ "_" +:+ timestamp self)) = true).
  { intros x rest E Hx. rewrite !to_list_app, E, to_of_list. cbn [Bytes.to_list
      list_ascii_of_string app]. rewrite app_assoc. now apply glob_period. }
  clear HK Hc. unfold intervals in Hin. simpl in Hin.
  destruct Hin as [H|[H|[H|[H|[]]]]]; injection H as <- <-; cbn [pattern];
    rewrite <- (of_to_list (datetime.Ymd _)) || rewrite <- (of_to_list (datetime.Ym _))
    || rewrite <- (of_to_list (datetime.Y _)).
  - eapply E; [|apply Ymd_chars].
    unfold timestamp, datetime.stamp. rewrite !to_list_app. reflexivity.
  - eapply E; [|apply Ymd_chars].
    unfold timestamp, datetime.stamp. rewrite !to_list_app. reflexivity.
  - eapply E; [|apply Ym_chars].
    unfold timestamp, datetime.stamp, datetime.Ymd. rewrite !to_list_app.
    rewrite <- !app_assoc. reflexivity.
  - eapply E; [|apply Y_chars].
    unfold timestamp, datetime.stamp, datetime.Ymd, datetime.Ym. rewrite !to_list_app.
    rewrite <- !app_assoc. reflexivity.
Qed.

Lemma covered_persists L v d d' :
  Disk.path d' = Disk.path d ->
  (forall e, In e (Disk.backups d) ->
     exists e', In e' (Disk.backups d') /\ Disk.name e' = Disk.name e) ->
  covered L v d -> covered L v d'.
Proof.
  intros Hp Hn (e & He & Hl & Hm). destruct (Hn e He) as (e' & He' & En).
  exists e'. split; [exact He'|]. split.
  - unfold labelled_dir in *. now rewrite En.
  - unfold Disk.backups_dir. now rewrite Hp, En.
Qed.

Lemma construct_In_path paths : forall bs b,
  construct paths = Ok bs -> In b bs -> exists p, In p paths /\ Backup.new p = Ok b.
Proof.
  induction paths as [|p paths IH]; simpl; intros bs b H Hin.
  - injection H as <-. destruct Hin.
  - destruct (Backup.new p) as [x|] eqn:E; [|discriminate].
    destruct (construct paths) as [bs'|] eqn:E'; [|discriminate].
    injection H as <-. destruct Hin as [<-|Hin]; [eauto|].
    destruct (IH bs' b eq_refl Hin) as (q & Hq & Hb). eauto.
Qed.

(** A listed snapshot of label [K] at a path the pattern matches
    covers [K]. *)
Lemma listed_covers d bs b K v :
  Forall (fun e => no_sep (Disk.name e)) (Disk.backups d) ->
  construct (listing d) = Ok bs -> In b bs ->
  Backup.interval b = K ->
  fnmatch.fnmatch (Backup.path b) ("*_" +:+ pattern v) = true ->
  covered K v d.
Proof.
  intros Hsep Hc Hb Hi Hm. rewrite List.Forall_forall in Hsep.
  destruct (construct_In_path _ _ _ Hc Hb) as (p & Hp & Hnew).
  unfold listing in Hp. apply in_map_iff in Hp as (e & <- & He).
  apply filter_In in He as [He _].
  apply new_parse in Hnew as (Hpath & Hname & Hparse).
  rewrite basename_join in Hname by now apply Hsep.
  exists e. split; [exact He|]. split.
  - exists (Backup.timestamp b). unfold Backup._parse_name.
    now rewrite <- Hname, Hparse, Hi.
  - now rewrite <- Hpath.
Qed.

Lemma filter_nonempty {A} (f : A -> bool) l x r :
  List.filter f l = x :: r -> In x l /\ f x = true.
Proof.
  intros E. apply filter_In. rewrite E. now left.
Qed.

Lemma for_each_ok {A} (P : list A -> state -> Prop) (body : A -> M unit) :
  forall todo done s s',
    (forall x done s s1, In x todo -> P done s -> body x s = (Ok tt, s1) ->
       P (done ++ [x]) s1) ->
    P done s -> for_each todo body s = (Ok tt, s') -> P (done ++ todo) s'.
Proof.
  induction todo as [|x todo IH]; intros done s s' Hstep H E.
  - cbn in E. injection E as <-. now rewrite app_nil_r.
  - cbn [for_each] in E.
    apply bind_inv in E as [(u & s1 & E1 & E) | (e & _ & H')]; [|discriminate].
    destruct u.
    replace (done ++ x :: todo) with ((done ++ [x]) ++ todo)
      by (now rewrite <- app_assoc).
    apply (IH (done ++ [x]) s1 s'); [|now apply (Hstep x done s s1); [left| |]|exact E].
    intros y dn sa sb Hy. apply Hstep. now right.
Qed.

Lemma duplicating_more d0 done kv s s1 :
  duplicating d0 done s ->
  migrated s1 = true ->
  Disk.path (disk s1) = Disk.path d0 ->
  Forall (fun e => no_sep (Disk.name e)) (Disk.backups (disk s1)) ->
  (forall e, In e (Disk.backups (disk s)) ->
     exists e', In e' (Disk.backups (disk s1)) /\ Disk.name e' = Disk.name e) ->
  (forall n, retention (snd kv) = Some n -> (1 <= n)%Z ->
     covered (fst kv) (snd kv) (disk s1)) ->
  duplicating d0 (done ++ [kv]) s1.
Proof.
  intros (Hm & Hp & Hsep & Hcov) Hm1 Hp1 Hsep1 Hn Hnew.
  split; [exact Hm1|]. split; [exact Hp1|]. split; [exact Hsep1|].
  intros L v n Hin Hr Hn1. apply in_app_or in Hin as [Hin|[E|[]]].
  - eapply covered_persists; [| exact Hn |now apply (Hcov L v n)]. congruence.
  - subst kv. now apply (Hnew n).
Qed.

Lemma duplicating_same d0 done kv s :
  duplicating d0 done s ->
  (forall n, retention (snd kv) = Some n -> (1 <= n)%Z ->
     covered (fst kv) (snd kv) (disk s)) ->
  duplicating d0 (done ++ [kv]) s.
Proof.
  intros H Hnew. pose proof H as (Hm & Hp & Hsep & _).
  apply (duplicating_more d0 done kv s s); auto. intros e He. eauto.
Qed.

Lemma interval_label self K v :
  In (K, v) (intervals self) ->
  (K = "custom" /\ retention v = None) \/ (periodic K /\ K <> "custom").
Proof.
  unfold intervals. simpl. unfold periodic.
  intros [H|[H|[H|[H|[]]]]]; injection H as <- <-;
    [left; now split|right..]; (split; [tauto|discriminate]).
Qed.

Lemma periodic_label_like K : periodic K -> label_like K.
Proof. intros [-> | [-> | ->]]; (split; [discriminate|reflexivity]). Qed.

Lemma duplicate_step self source_backup d0 K v done s s1 :
  test self = false ->
  clock_time (current_datetime self) ->
  In (K, v) (intervals self) ->
  duplicating d0 done s ->
  (if String.eqb K "custom" then ret tt
   else
     let* retention := lift (retention_of K v) in
     if (retention <? 1)%Z then ret tt
     else
       let* backups := _get_backups in
       let already_existing :=
         fnmatch.filter
           (map Backup.path
              (List.filter (fun b => String.eqb (Backup.interval b) K) backups))
           ("*_" +:+ pattern v) in
       match already_existing with
       | _ :: _ => ret tt
       | [] =>
           let* d := get_disk in
           let interval_backup :=
             os_path.join (Disk.backups_dir d) (K +:+ "_" +:+ timestamp self) in
           if test self then
             logger_info "Creating %s (DRY RUN)" [Str interval_backup]
           else
             do* logger_info "Creating %s" [Str interval_backup] in
             cp_al source_backup interval_backup
       end) s = (Ok tt, s1) ->
  duplicating d0 (done ++ [(K, v)]) s1.
Proof.
  intros Ht Hclock Hin Hinv E.
  pose proof Hinv as (Hm & Hp & Hsep & _).
  destruct (interval_label self K v Hin) as [[-> Hr]|[HK Hc]].
  { cbn in E. injection E as <-. apply duplicating_same; [exact Hinv|].
    cbn [fst snd]. intros n Hn. congruence. }
  pose proof Hc as Hcustom.
  apply String.eqb_neq in Hc. rewrite Hc in E. clear Hc.
  unfold bind at 1, lift at 1, retention_of in E.
  destruct (retention v) as [r|] eqn:Er; [|discriminate]. 
  destruct (r <? 1)%Z eqn:Elt.
  { unfold ret in E. injection E as <-. apply duplicating_same; [exact Hinv|].
    cbn [fst snd]. intros n Hn Hn1. apply Z.ltb_lt in Elt. rewrite Er in Hn.
    injection Hn as <-. lia. }
  unfold bind at 1 in E. rewrite get_backups_migrated in E by exact Hm.
  destruct (construct (listing (disk s))) as [bs|] eqn:Ec; [|discriminate].
  destruct (fnmatch.filter _ _) as [|x l] eqn:Ef.
  2:{ (* a snapshot of the running period is listed *)
    unfold ret in E. injection E as <-. apply duplicating_same; [exact Hinv|].
    cbn [fst snd]. intros _ _ _.
    unfold fnmatch.filter in Ef. apply filter_nonempty in Ef as [Hx Hmatch].
    apply in_map_iff in Hx as (b & <- & Hb). apply filter_In in Hb as [Hb Hi].
    apply String.eqb_eq in Hi.
    now apply (listed_covers (disk s) bs b K v). }
  (* none is listed: the source is copied *)
  unfold bind at 1, get_disk at 1 in E. cbn [fst snd] in E. rewrite Ht in E.
  unfold bind at 1, logger_info at 1, emit at 1 in E. cbn [fst snd] in E.
  unfold cp_al, bind, get_disk in E. cbn [fst snd disk] in E.
  destruct (Disk.snapshot_at (disk s) source_backup) as [src|]; [|discriminate].
  set (name := K +:+ "_" +:+ timestamp self) in *.
  assert (Hname : no_sep name) by now apply copy_name_no_sep.
  assert (Hparse : Backup._parse_name name = Ok (timestamp self, K))
    by (apply parse_stamped; [exact Hclock|now apply periodic_label_like]).
  assert (Hdir : Disk.backups_dir (disk s) = Disk.backups_dir d0)
    by (unfold Disk.backups_dir; now rewrite Hp).
  destruct (Disk.snapshot_at (disk s) _) as [target|] eqn:Etarget;
    unfold put_disk in E; injection E as <-.
  - (* the path is taken: it is a directory of the running period *)
    unfold Disk.snapshot_at in Etarget. apply at_path_some in Etarget as [Htin Htp].
    rewrite List.Forall_forall in Hsep.
    apply join_inj in Htp; [|now apply Hsep|exact Hname].
    apply (duplicating_more d0 done (K, v) s); cbn [disk migrated Disk.path
      Disk.backups Disk.with_backups fst snd]; auto.
    + apply List.Forall_forall. intros y Hy.
      apply update_path_names in Hy as (y0 & Hy0 & <-); [|reflexivity].
      now apply Hsep.
    + intros e He.
      exists (if String.eqb (os_path.join (Disk.backups_dir (disk s)) (Disk.name e))
                   (os_path.join (Disk.backups_dir (disk s)) name)
              then Disk.with_inside e (Disk.inside e ++ [src]) else e).
      split; [|destruct (String.eqb _ _); reflexivity].
      unfold Disk.update_path. apply in_map_iff. exists e. now split.
    + intros _ _ _.
      exists (Disk.with_inside target (Disk.inside target ++ [src])).
      split; [|split].
      * unfold Disk.update_path. apply in_map_iff. exists target.
        split; [|exact Htin]. now rewrite Htp, String.eqb_refl.
      * exists (timestamp self). cbn [Disk.name Disk.with_inside]. now rewrite Htp.
      * cbn [Disk.name Disk.with_inside]. rewrite Htp.
        change (Disk.backups_dir (Disk.with_backups (disk s) _))
          with (Disk.backups_dir (disk s)).
        now apply copy_in_period.
  - (* the copy lies below [backups] under its new name *)
    rewrite basename_join by exact Hname.
    apply (duplicating_more d0 done (K, v) s); cbn [disk migrated Disk.path
      Disk.backups Disk.with_backups fst snd]; auto.
    + apply Forall_app. split; [exact Hsep|]. now repeat constructor.
    + intros e He. exists e. split; [apply in_or_app; now left|reflexivity].
    + intros _ _ _. exists (Disk.rename src name).
      split; [apply in_or_app; right; now left|]. split.
      * now exists (timestamp self).
      * cbn [Disk.name Disk.rename].
        change (Disk.backups_dir (Disk.with_backups (disk s) _))
          with (Disk.backups_dir (disk s)).
        now apply copy_in_period.
Qed.

(** X18.  Outside a dry run, on a migrated catalog whose names below
    [backups] have no separator in them, and at a time the clock can
    show: when [_create_interval_backups] gets through, every interval
    that is kept at least once has a directory of its label below
    [backups] at a path the pattern of its running period matches, be
    it one that was there or the copy just made. *)
Theorem interval_backups_cover (self : t) (source_backup : string)
    (s s' : state) (L : string) (v : interval_settings) (n : Z) :
  test self = false ->
  clock_time (current_datetime self) ->
  migrated s = true ->
  Forall (fun e => no_sep (Disk.name e)) (Disk.backups (disk s)) ->
  _create_interval_backups self source_backup s = (Ok tt, s') ->
  In (L, v) (intervals self) -> retention v = Some n -> (1 <= n)%Z ->
  covered L v (disk s').
Proof.
  intros Ht Hclock Hm Hsep E Hin Hr Hn.
  unfold _create_interval_backups in E.
  assert (H0 : duplicating (disk s) [] s).
  { split; [exact Hm|]. split; [reflexivity|]. split; [exact Hsep|].
    intros ? ? ? []. }
  pose proof (fun Hstep => for_each_ok (duplicating (disk s)) _ _ [] s s' Hstep H0 E)
    as H.
  cbn [app] in H.
  destruct H as (_ & _ & _ & Hcov); [|now apply (Hcov L v n)].
  intros [K w] done sa sb Hk Hinv Ek. cbn [fst snd] in Ek.
  now apply (duplicate_step self source_backup (disk s) K w done sa sb).
Qed.

Lemma interval_backups_cover_witness :
  let self := Examples.config false 2 1 1 in
  let s := Examples.state_of Examples.two_labels Examples.quiet in
  covered "yearly"
    {| retention := Some 1%Z; pattern := "2024-*" |}
    (disk (snd (_create_interval_backups self
                  "/srv/h/backups/daily_2024-01-03-010000" s))).
Proof.
  intros self s.
  apply (interval_backups_cover self "/srv/h/backups/daily_2024-01-03-010000" s
           (snd (_create_interval_backups self
                   "/srv/h/backups/daily_2024-01-03-010000" s))
           "yearly" {| retention := Some 1%Z; pattern := "2024-*" |} 1).
  - reflexivity.
  - split; [reflexivity|]. vm_compute. lia.
  - reflexivity.
  - repeat constructor.
  - reflexivity.
  - right; right; right; now left.
  - reflexivity.
  - lia.
Defined.

(** ** Characters *)

Lemma plain_high lo hi x : plain x = true -> 128 <= lo -> Bytes.in_range lo hi x = false.
Proof.
  unfold plain, Bytes.in_range. intros H Hlo.
  apply andb_true_iff in H as [_ H]. apply Nat.leb_le in H.
  apply andb_false_iff. left. apply Nat.leb_gt. lia.
Qed.

Lemma first_char_shorter l c r :
  Text.first_char l = Some (c, r) -> length r < length l.
Proof.
  unfold Text.first_char. destruct l as [|a l]; [discriminate|].
  repeat match goal with
         | |- context [if ?b then _ else _] => destruct b
         | |- context [match ?x with _ => _ end] =>
             match type of x with list _ => destruct x end
         end;
    intros [= <- <-]; cbn [length]; lia.
Qed.

(** Before a byte of ASCII a character ends where it ends at the end
    of the input. *)
Lemma first_char_app a r c x b :
  plain x = true ->
  Text.first_char a = Some (c, r) ->
  Text.first_char (a ++ x :: b) = Some (c, r ++ x :: b).
Proof.
  intros Hx.
  pose proof (plain_high 128 191 x Hx ltac:(lia)) as H1.
  pose proof (plain_high 160 191 x Hx ltac:(lia)) as H2.
  pose proof (plain_high 128 159 x Hx ltac:(lia)) as H3.
  pose proof (plain_high 144 191 x Hx ltac:(lia)) as H4.
  pose proof (plain_high 128 143 x Hx ltac:(lia)) as H5.
  unfold Text.first_char, Bytes.cont.
  destruct a as [|a1 a]; [discriminate|]. cbn [app].
  destruct (Bytes.in_range 0 127 a1); [now intros [= <- <-]|].
  destruct (Bytes.in_range 194 223 a1).
  { destruct a as [|b1 a]; cbn [app].
    - rewrite H1. now intros [= <- <-].
    - destruct (Bytes.in_range 128 191 b1); now intros [= <- <-]. }
  destruct (Bytes.in_range 224 239 a1).
  { destruct a as [|b1 [|c1 a]]; cbn [app].
    - destruct b as [|y b]; [now intros [= <- <-]|].
      rewrite H1, H2, H3.
      repeat match goal with
             | |- context [nat_of_ascii ?a =? ?n] => destruct (nat_of_ascii a =? n)
             end; now intros [= <- <-].
    - rewrite H1, andb_false_r. now intros [= <- <-].
    - destruct (_ && _); now intros [= <- <-]. }
  destruct (Bytes.in_range 240 244 a1).
  { destruct a as [|b1 [|c1 [|d1 a]]]; cbn [app].
    - destruct b as [|y [|z b]]; try now intros [= <- <-].
      rewrite H1, H4, H5.
      repeat match goal with
             | |- context [nat_of_ascii ?a =? ?n] => destruct (nat_of_ascii a =? n)
             end; now intros [= <- <-].
    - destruct b as [|y b]; [now intros [= <- <-]|].
      rewrite H1, andb_false_r. now intros [= <- <-].
    - rewrite H1, andb_false_r. now intros [= <- <-].
    - destruct (_ && _); now intros [= <- <-]. }
  now intros [= <- <-].
Qed.

Lemma first_char_none l : Text.first_char l = None -> l = [].
Proof.
  destruct l as [|a l]; [reflexivity|]. unfold Text.first_char.
  repeat match goal with
         | |- context [if ?b then _ else _] => destruct b
         | |- context [match ?x with _ => _ end] =>
             match type of x with list _ => destruct x end
         end; discriminate.
Qed.

Lemma chars_of_fuel fuel : forall l fuel',
  length l <= fuel -> length l <= fuel' ->
  Text.chars_of fuel l = Text.chars_of fuel' l.
Proof.
  induction fuel as [|fuel IH]; intros l fuel' H1 H2.
  - destruct l; [|cbn in H1; lia]. now destruct fuel'.
  - destruct fuel' as [|fuel'].
    + destruct l; [reflexivity|cbn in H2; lia].
    + cbn [Text.chars_of].
      destruct (Text.first_char l) as [[c r]|] eqn:E; [|reflexivity].
      apply first_char_shorter in E. f_equal. apply IH; lia.
Qed.

Lemma chars_of_app fuel' : forall a x b fuel,
  plain x = true ->
  length (a ++ x :: b) <= fuel -> length a <= fuel' ->
  Text.chars_of fuel (a ++ x :: b)
  = Text.chars_of fuel' a ++ Text.chars_of (length (x :: b)) (x :: b).
Proof.
  induction fuel' as [|fuel' IH]; intros a x b fuel Hx H1 H2.
  - destruct a; [|cbn in H2; lia]. cbn [app Text.chars_of].
    now apply chars_of_fuel.
  - destruct a as [|a1 a].
    + cbn [app Text.chars_of Text.first_char]. now apply chars_of_fuel.
    + destruct fuel as [|fuel]; [cbn in H1; lia|].
      cbn [Text.chars_of].
      destruct (Text.first_char (a1 :: a)) as [[c r]|] eqn:E;
        [|apply first_char_none in E; discriminate].
      rewrite (first_char_app _ _ _ x b Hx E).
      apply first_char_shorter in E. cbn [app]. f_equal.
      rewrite length_app in H1. cbn [length] in *.
      apply IH; [exact Hx|rewrite length_app; cbn [length]; lia|lia].
Qed.

Lemma chars_app a b :
  match Bytes.to_list b with x :: _ => plain x = true | [] => True end ->
  Text.chars (a +:+ b) = Text.chars a ++ Text.chars b.
Proof.
  unfold Text.chars. rewrite <- !to_list_length, to_list_app.
  destruct (Bytes.to_list b) as [|x l].
  - intros _. rewrite ?app_nil_r. cbn [length Text.chars_of].
    now rewrite ?app_nil_r.
  - intros Hx. now apply chars_of_app.
Qed.

Lemma chars_plain s :
  forallb plain (Bytes.to_list s) = true ->
  Text.chars s = map Text.code (Bytes.to_list s).
Proof.
  unfold Text.chars. rewrite <- to_list_length.
  induction (Bytes.to_list s) as [|a l IH]; [reflexivity|].
  cbn [forallb]. intros H. apply andb_true_iff in H as [Ha H].
  cbn [length Text.chars_of map]. unfold Text.first_char. unfold plain in Ha.
  rewrite Ha. f_equal. now apply IH.
Qed.

Lemma in_range_bounds lo hi a :
  Bytes.in_range lo hi a = true -> lo <= nat_of_ascii a <= hi.
Proof.
  unfold Bytes.in_range. intros H. apply andb_true_iff in H as [H1 H2].
  apply Nat.leb_le in H1, H2. lia.
Qed.

(** A character below 128 is a byte of ASCII. *)
Lemma first_char_low l c r :
  Text.first_char l = Some (c, r) -> (c < 128)%N ->
  exists a, l = a :: r /\ c = Text.code a /\ plain a = true.
Proof.
  unfold Text.first_char, Text.code, plain. destruct l as [|a l]; [discriminate|].
  destruct (Bytes.in_range 0 127 a) eqn:E0.
  { intros [= <- <-] _. now exists a. }
  intros H Hc. exfalso.
  assert (Hs : forall x, ~ (56320 + N.of_nat x < 128)%N) by (intros x; lia).
  destruct (Bytes.in_range 194 223 a) eqn:E1.
  { apply in_range_bounds in E1.
    destruct l as [|b l]; [injection H as <- _; now apply (Hs (nat_of_ascii a))|].
    destruct (Bytes.cont b); injection H as <- _; [lia|now apply (Hs (nat_of_ascii a))]. }
  destruct (Bytes.in_range 224 239 a) eqn:E2.
  { apply in_range_bounds in E2.
    destruct l as [|b [|c1 l]];
      try (injection H as <- _; now apply (Hs (nat_of_ascii a))).
    destruct (nat_of_ascii a =? 224) eqn:E224.
    - destruct (Bytes.in_range 160 191 b) eqn:Eb; cbn [andb] in H.
      + apply in_range_bounds in Eb.
        destruct (Bytes.cont c1); injection H as <- _;
          [lia|now apply (Hs (nat_of_ascii a))].
      + injection H as <- _. now apply (Hs (nat_of_ascii a)).
    - apply Nat.eqb_neq in E224.
      destruct (_ && _); injection H as <- _; [lia|now apply (Hs (nat_of_ascii a))]. }
  destruct (Bytes.in_range 240 244 a) eqn:E3.
  { apply in_range_bounds in E3.
    destruct l as [|b [|c1 [|d1 l]]];
      try (injection H as <- _; now apply (Hs (nat_of_ascii a))).
    destruct (nat_of_ascii a =? 240) eqn:E240.
    - destruct (Bytes.in_range 144 191 b) eqn:Eb; cbn [andb] in H.
      + apply in_range_bounds in Eb.
        destruct (_ && _); injection H as <- _;
          [lia|now apply (Hs (nat_of_ascii a))].
      + injection H as <- _. now apply (Hs (nat_of_ascii a)).
    - apply Nat.eqb_neq in E240.
      destruct (_ && _); injection H as <- _; [lia|now apply (Hs (nat_of_ascii a))]. }
  injection H as <- _. now apply (Hs (nat_of_ascii a)).
Qed.

Lemma ts_code_low c : Logs.ts_code c = true -> (c < 128)%N /\ c <> 47%N.
Proof.
  unfold Logs.ts_code. rewrite orb_true_iff, andb_true_iff, !N.leb_le, N.eqb_eq. lia.
Qed.

Lemma code_back a : ascii_of_nat (N.to_nat (Text.code a)) = a.
Proof. unfold Text.code. rewrite Nnat.Nat2N.id. apply ascii_nat_embedding. Qed.

Lemma ts_code_char a : Logs.ts_code (Text.code a) = re.ts_char a.
Proof. destruct a as [[] [] [] [] [] [] [] []]; reflexivity. Qed.

(** Characters that are bytes of ASCII at the start of a text are the
    bytes at its start. *)
Lemma chars_low_prefix cs : forall fuel l rest,
  Text.chars_of fuel l = cs ++ rest ->
  Forall (fun c => (c < 128)%N) cs ->
  exists t l', l = t ++ l' /\ cs = map Text.code t /\ forallb plain t = true
               /\ rest = Text.chars_of (fuel - length t) l'.
Proof.
  induction cs as [|c cs IH]; intros fuel l rest E Hall.
  - exists [], l. cbn. rewrite Nat.sub_0_r. auto.
  - apply Forall_cons_iff in Hall as [Hc Hall].
    destruct fuel as [|fuel]; [discriminate|]. cbn [Text.chars_of app] in E.
    destruct (Text.first_char l) as [[c' r]|] eqn:E1; [|discriminate].
    injection E as -> E.
    destruct (first_char_low _ _ _ E1 Hc) as (a & -> & -> & Ha).
    destruct (IH fuel r rest E Hall) as (t & l' & -> & -> & Ht & ->).
    exists (a :: t), l'. cbn [app map forallb length]. rewrite Ha, Ht.
    repeat split.
Qed.

(** ** The names of log files *)

Lemma log_suffix_shape r t rest :
  Logs.log_suffix r = Some (t, rest) ->
  exists c, r = 103%N :: 111%N :: 108%N :: c :: rev t ++ rest
            /\ c <> 10%N /\ length t = 17 /\ forallb Logs.ts_code t = true.
Proof.
  unfold Logs.log_suffix. destruct r as [|g [|o [|l [|c r1]]]]; try discriminate.
  destruct (_ && negb _) eqn:E; [|discriminate].
  destruct (_ && forallb _ _) eqn:E'; [|discriminate].
  intros [= <- <-]. apply andb_true_iff in E as [E Hc].
  apply andb_true_iff in E as [E Hl]. apply andb_true_iff in E as [Hg Ho].
  apply N.eqb_eq in Hg, Ho, Hl. apply negb_true_iff, N.eqb_neq in Hc.
  apply andb_true_iff in E' as [Hlen Hts]. apply Nat.eqb_eq in Hlen.
  exists c. subst g o l. rewrite rev_involutive, take_drop.
  rewrite length_rev, forallb_rev. auto.
Qed.

Lemma log_suffix_make c t rest :
  c <> 10%N -> length t = 17 -> forallb Logs.ts_code t = true ->
  Logs.log_suffix (103%N :: 111%N :: 108%N :: c :: rev t ++ rest) = Some (t, rest).
Proof.
  intros Hc Hlen Hts. unfold Logs.log_suffix.
  apply N.eqb_neq in Hc. rewrite Hc. cbn [N.eqb Pos.eqb andb negb].
  assert (Hl : length (rev t) = 17) by now rewrite length_rev.
  rewrite take_app_length' by (symmetry; exact Hl).
  rewrite drop_app_length' by (symmetry; exact Hl).
  rewrite Hl, forallb_rev, Hts, rev_involutive. reflexivity.
Qed.

Lemma log_suffix_LF r : Logs.log_suffix (10%N :: r) = None.
Proof. unfold Logs.log_suffix. now destruct r as [|o [|l [|c r1]]]. Qed.

Lemma stamp_of_chars p pre t c tail :
  Text.chars p = pre ++ t ++ c :: 108%N :: 111%N :: 103%N :: tail ->
  tail = [] \/ tail = [10%N] ->
  c <> 10%N -> length t = 17 -> forallb Logs.ts_code t = true ->
  Logs.log_stamp p = Some (text_of t)
  /\ (pre = [] -> Logs.is_log_name p = true).
Proof.
  intros E Htail Hc Hlen Hts. unfold Logs.log_stamp, Logs.is_log_name, Logs.at_dollar.
  rewrite E.
  assert (Er : rev (pre ++ t ++ c :: 108%N :: 111%N :: 103%N :: tail)
               = rev tail ++ 103%N :: 111%N :: 108%N :: c :: rev t ++ rev pre).
  { rewrite !rev_app_distr. cbn [rev]. rewrite <- !app_assoc. reflexivity. }
  rewrite Er. destruct Htail as [-> | ->]; cbn [rev app].
  - rewrite log_suffix_make by assumption. split; [reflexivity|].
    intros ->. reflexivity.
  - rewrite log_suffix_LF. cbn [N.eqb Pos.eqb].
    rewrite log_suffix_make by assumption. split; [reflexivity|].
    intros ->. reflexivity.
Qed.

Lemma rev_eq {A} (l r : list A) : rev l = r -> l = rev r.
Proof. intros <-. now rewrite rev_involutive. Qed.

Lemma log_name_shape name :
  Logs.is_log_name name = true ->
  exists t c tail,
    Text.chars name = t ++ c :: 108%N :: 111%N :: 103%N :: tail
    /\ (tail = [] \/ tail = [10%N])
    /\ c <> 10%N /\ length t = 17 /\ forallb Logs.ts_code t = true.
Proof.
  unfold Logs.is_log_name, Logs.at_dollar.
  destruct (Logs.log_suffix (rev (Text.chars name))) as [[t rest]|] eqn:E.
  - destruct rest as [|x rest].
    + intros _. apply log_suffix_shape in E as (c & Er & Hc & Hl & Hts).
      apply rev_eq in Er. exists t, c, []. split; [|auto].
      rewrite Er. cbn [rev]. rewrite rev_app_distr, rev_involutive. cbn [rev app].
      rewrite <- !app_assoc. reflexivity.
    + destruct (rev (Text.chars name)) as [|c0 r'] eqn:Er; [discriminate|].
      destruct (c0 =? 10)%N eqn:E0; [|discriminate].
      apply N.eqb_eq in E0. subst c0. now rewrite log_suffix_LF in E.
  - destruct (rev (Text.chars name)) as [|c0 r'] eqn:Er; [discriminate|].
    destruct (c0 =? 10)%N eqn:E0; [|discriminate].
    apply N.eqb_eq in E0. subst c0.
    destruct (Logs.log_suffix r') as [[t [|x rest]]|] eqn:E'; try discriminate.
    intros _. apply log_suffix_shape in E' as (c & Er' & Hc & Hl & Hts).
    apply rev_eq in Er. exists t, c, [10%N]. split; [|auto].
    rewrite Er, Er'. cbn [rev]. rewrite rev_app_distr, rev_involutive. cbn [rev app].
    rewrite <- !app_assoc. reflexivity.
Qed.

Lemma startswith_app a b : Bytes.startswith (a +:+ b) a = true.
Proof.
  unfold Bytes.startswith. induction a as [|c a IH].
  - now destruct b.
  - change (String c a +:+ b) with (String c (a +:+ b)). cbn -[ascii_dec].
    destruct (ascii_dec c c); [exact IH|congruence].
Qed.

Lemma join_relative' dir x :
  Bytes.startswith x "/" = false -> os_path.join dir x = lead dir +:+ x.
Proof.
  intros Hx. unfold os_path.join, lead. rewrite Hx.
  destruct (_ || _); [reflexivity|]. now rewrite append_assoc.
Qed.

Lemma relative_by_head x a l :
  Bytes.to_list x = a :: l -> a <> "/"%char -> Bytes.startswith x "/" = false.
Proof.
  destruct x as [|c x]; [discriminate|].
  change (Bytes.to_list (String c x)) with (c :: Bytes.to_list x).
  intros [= -> _] Ha. unfold Bytes.startswith. cbn -[ascii_dec].
  destruct (ascii_dec "/" a) as [<-|]; [congruence|reflexivity].
Qed.

(** The stamp of a listed name, found again in its path. *)
Lemma log_stamp_listed (dir name : string) :
  Logs.is_log_name name = true ->
  exists ts,
    Logs.log_stamp (os_path.join dir name) = Some ts
    /\ stamp_like ts /\ Bytes.startswith name ts = true.
Proof.
  intros H. destruct (log_name_shape name H) as (t & c & tail & E & Htail & Hc & Hl & Hts).
  assert (Hlow : Forall (fun x => (x < 128)%N) t).
  { apply List.Forall_forall. intros x Hx.
    rewrite forallb_forall in Hts. now apply ts_code_low, Hts. }
  unfold Text.chars in E.
  destruct (chars_low_prefix t _ _ _ E Hlow) as (tb & l' & El & Et & Hp & _).
  assert (Hlen : length tb = 17) by (rewrite <- Hl, Et; now rewrite length_map).
  assert (Htext : text_of t = Bytes.of_list tb).
  { unfold text_of. rewrite Et, map_map. f_equal.
    rewrite <- (map_id tb) at 2. apply map_ext. intros a. apply code_back. }
  assert (Hname : name = Bytes.of_list tb +:+ Bytes.of_list l').
  { apply to_list_inj. now rewrite to_list_app, !to_of_list. }
  assert (Htb : forallb re.ts_char tb = true).
  { rewrite Et in Hts. rewrite forallb_forall in *. intros a Ha.
    rewrite <- ts_code_char. apply Hts. now apply in_map. }
  destruct tb as [|a0 tb0] eqn:Etb; [discriminate|]. rewrite <- Etb in *.
  assert (Ha0 : plain a0 = true /\ a0 <> "/"%char).
  { rewrite Etb in Hp, Htb. cbn in Hp, Htb.
    apply andb_true_iff in Hp as [Hp _]. apply andb_true_iff in Htb as [Htb _].
    split; [exact Hp|]. intros ->. discriminate. }
  assert (Hrel : Bytes.startswith name "/" = false).
  { apply (relative_by_head name a0 (tb0 ++ l')); [|now destruct Ha0].
    now rewrite El, Etb. }
  exists (Bytes.of_list tb). split; [|split].
  - rewrite join_relative' by exact Hrel.
    assert (Hc2 : Text.chars (lead dir +:+ name)
                  = Text.chars (lead dir) ++ Text.chars name).
    { apply chars_app. rewrite El, Etb. cbn. now destruct Ha0. }
    fold (Text.chars name) in E. rewrite E in Hc2.
    destruct (stamp_of_chars _ _ _ _ _ Hc2 Htail Hc Hl Hts) as [Hs _].
    now rewrite Hs, Htext.
  - split; [|now rewrite to_of_list].
    now rewrite <- to_list_length, to_of_list.
  - rewrite Hname at 1. apply startswith_app.
Qed.

(** X19.  Every name [_get_logs] lets through begins with seventeen
    bytes among [0-9] and [-], and [_get_log_file_datetime] finds these
    seventeen as the stamp in the path made of any directory and that
    name: the search in the path never comes back empty for a listed
    log file. *)
Theorem listed_log_stamp (dir name : string) :
  Logs.is_log_name name = true ->
  exists ts,
    Logs.log_stamp (os_path.join dir name) = Some ts
    /\ stamp_like ts /\ Bytes.startswith name ts = true.
Proof. apply log_stamp_listed. Qed.

Lemma listed_log_stamp_witness :
  exists ts,
    Logs.log_stamp (os_path.join "/srv/h/logs" "2024-01-03-040506.log") = Some ts
    /\ stamp_like ts /\ Bytes.startswith "2024-01-03-040506.log" ts = true.
Proof.
  apply (listed_log_stamp "/srv/h/logs" "2024-01-03-040506.log"). reflexivity.
Defined.

(** ** Reading a stamp back *)

Lemma two_chars n :
  n < 100 ->
  Bytes.to_list (datetime.two n)
  = [ascii_of_nat (48 + n / 10); ascii_of_nat (48 + n mod 10)].
Proof.
  intros H.
  assert (Hall : forallb (fun k =>
                    if List.list_eq_dec ascii_dec (Bytes.to_list (datetime.two k))
                         [ascii_of_nat (48 + k / 10); ascii_of_nat (48 + k mod 10)]
                    then true else false) (seq 0 100) = true)
    by (vm_compute; reflexivity).
  rewrite forallb_forall in Hall. specialize (Hall n).
  destruct (List.list_eq_dec _ _ _) as [E|]; [exact E|].
  assert (false = true); [apply Hall, in_seq; lia|discriminate].
Qed.

Lemma digit_char k :
  k <= 9 ->
  strptime.digit (ascii_of_nat (48 + k)) = true
  /\ nat_of_ascii (ascii_of_nat (48 + k)) - 48 = k.
Proof. intros H. do 10 (destruct k as [|k]; [split; reflexivity|]). lia. Qed.

Lemma year_chars y :
  1000 <= y -> (Z.of_nat y <= 9999)%Z ->
  exists a b c d,
    Bytes.to_list (datetime.decimal y) = [a; b; c; d]
    /\ strptime.digit a && strptime.digit b && strptime.digit c
       && strptime.digit d = true
    /\ strptime.number [a; b; c; d] = y.
Proof.
  intros H1 H2. destruct (four_digits y H1 H2) as (a & b & c & d & Ha & Hb & Hc & Hd & ->).
  rewrite decimal_four by assumption.
  destruct (digit_char a) as [Da Na]; [lia|]. destruct (digit_char b Hb) as [Db Nb].
  destruct (digit_char c Hc) as [Dc Nc]. destruct (digit_char d Hd) as [Dd Nd].
  do 4 eexists. split; [reflexivity|].
  rewrite Da, Db, Dc, Dd. split; [reflexivity|].
  unfold strptime.number. cbn [fold_left]. rewrite Da, Db, Dc, Dd, Na, Nb, Nc, Nd.
  reflexivity.
Qed.

Lemma number_two n :
  n < 100 ->
  strptime.number [ascii_of_nat (48 + n / 10); ascii_of_nat (48 + n mod 10)] = n.
Proof.
  intros H.
  assert (Hall : forallb (fun k =>
                    strptime.number [ascii_of_nat (48 + k / 10);
                                     ascii_of_nat (48 + k mod 10)] =? k)
                   (seq 0 100) = true)
    by (vm_compute; reflexivity).
  rewrite forallb_forall in Hall. apply Nat.eqb_eq, Hall, in_seq. lia.
Qed.

(** A directive takes the two digits of a number of its range, when
    the rest of the format matches what follows. *)
Lemma month_step k format rest gs r :
  1 <= k <= 12 ->
  strptime.run format rest = Some (gs, r) ->
  strptime.run (strptime.Group strptime.m :: format)
    (ascii_of_nat (48 + k / 10) :: ascii_of_nat (48 + k mod 10) :: rest)
  = Some ([ascii_of_nat (48 + k / 10); ascii_of_nat (48 + k mod 10)] :: gs, r).
Proof. intros Hk H. do 13 (destruct k as [|k]; [try lia; cbn [strptime.run]; cbv -[strptime.run]; rewrite H; reflexivity|]). lia. Qed.

Lemma day_step k format rest gs r :
  1 <= k <= 31 ->
  strptime.run format rest = Some (gs, r) ->
  strptime.run (strptime.Group strptime.d :: format)
    (ascii_of_nat (48 + k / 10) :: ascii_of_nat (48 + k mod 10) :: rest)
  = Some ([ascii_of_nat (48 + k / 10); ascii_of_nat (48 + k mod 10)] :: gs, r).
Proof. intros Hk H. do 32 (destruct k as [|k]; [try lia; cbn [strptime.run]; cbv -[strptime.run]; rewrite H; reflexivity|]). lia. Qed.

Lemma hour_step k format rest gs r :
  k <= 23 ->
  strptime.run format rest = Some (gs, r) ->
  strptime.run (strptime.Group strptime.H :: format)
    (ascii_of_nat (48 + k / 10) :: ascii_of_nat (48 + k mod 10) :: rest)
  = Some ([ascii_of_nat (48 + k / 10); ascii_of_nat (48 + k mod 10)] :: gs, r).
Proof. intros Hk H. do 24 (destruct k as [|k]; [try lia; cbn [strptime.run]; cbv -[strptime.run]; rewrite H; reflexivity|]). lia. Qed.

Lemma minute_step k format rest gs r :
  k <= 59 ->
  strptime.run format rest = Some (gs, r) ->
  strptime.run (strptime.Group strptime.M :: format)
    (ascii_of_nat (48 + k / 10) :: ascii_of_nat (48 + k mod 10) :: rest)
  = Some ([ascii_of_nat (48 + k / 10); ascii_of_nat (48 + k mod 10)] :: gs, r).
Proof. intros Hk H. do 60 (destruct k as [|k]; [try lia; cbn [strptime.run]; cbv -[strptime.run]; rewrite H; reflexivity|]). lia. Qed.

Lemma second_step k format rest gs r :
  k <= 59 ->
  strptime.run format rest = Some (gs, r) ->
  strptime.run (strptime.Group strptime.S :: format)
    (ascii_of_nat (48 + k / 10) :: ascii_of_nat (48 + k mod 10) :: rest)
  = Some ([ascii_of_nat (48 + k / 10); ascii_of_nat (48 + k mod 10)] :: gs, r).
Proof. intros Hk H. do 60 (destruct k as [|k]; [try lia; cbn [strptime.run]; cbv -[strptime.run]; rewrite H; reflexivity|]). lia. Qed.

Lemma year_step a b c e format rest gs r :
  strptime.digit a && strptime.digit b && strptime.digit c && strptime.digit e = true ->
  strptime.run format rest = Some (gs, r) ->
  strptime.run (strptime.Group strptime.Y :: format) (a :: b :: c :: e :: rest)
  = Some ([a; b; c; e] :: gs, r).
Proof.
  intros Hd H. apply andb_true_iff in Hd as [Hd He].
  apply andb_true_iff in Hd as [Hd Hc]. apply andb_true_iff in Hd as [Ha Hb].
  cbn [strptime.run strptime.Y strptime.take_alt]. now rewrite Ha, Hb, Hc, He, H.
Qed.

Lemma dash_step format rest :
  strptime.run (strptime.Lit "-" :: format) ("-"%char :: rest)
  = strptime.run format rest.
Proof. reflexivity. Qed.

(** [strptime] reads back what [strftime] wrote. *)
Lemma stamp_read_back d :
  clock_time d -> strptime.stamp (datetime.stamp d) = Ok d.
Proof.
  intros [Hv Hy]. pose proof Hv as Hb.
  apply valid_bounds in Hb as (_ & Hy' & Hm & Hd & HH & HM & HS).
  pose proof (days_in_month_le (datetime.year d) (datetime.month d)) as Hdm.
  destruct (year_chars (datetime.year d) Hy Hy') as (a & b & c & e & Ey & Hdig & Hnum).
  unfold strptime.stamp, datetime.stamp, datetime.Ymd, datetime.Ym, datetime.Y.
  rewrite !to_list_app, Ey, !two_chars by lia.
  change (Bytes.to_list "-") with ["-"%char]. cbn [app].
  unfold strptime.stamp_format.
  erewrite year_step; [|exact Hdig|].
  2:{ rewrite dash_step. apply month_step; [lia|].
      rewrite dash_step. apply day_step; [lia|].
      rewrite dash_step. apply hour_step; [lia|].
      apply minute_step; [lia|]. apply second_step; [lia|]. reflexivity. }
  rewrite Hnum, !number_two by lia.
  destruct d as [y mo dd h mi s]. cbn [datetime.year datetime.month datetime.day
    datetime.hour datetime.minute datetime.second] in *. now rewrite Hv.
Qed.

(** ** The log file of a run *)

Lemma ts_char_plain' a : re.ts_char a = true -> plain a = true /\ a <> "/"%char.
Proof. destruct a as [[] [] [] [] [] [] [] []]; cbn; intros H; try discriminate; split; try reflexivity; discriminate. Qed.

Lemma stamped_log_name ts dir :
  stamp_like ts ->
  Logs.is_log_name (ts +:+ ".log") = true
  /\ Logs.log_stamp (os_path.join dir (ts +:+ ".log")) = Some ts.
Proof.
  intros [Hlen Hts]. rewrite <- to_list_length in Hlen.
  set (x := ts +:+ ".log").
  assert (Hx : Bytes.to_list x = Bytes.to_list ts ++ Bytes.to_list ".log")
    by apply to_list_app.
  assert (Hplain : forallb plain (Bytes.to_list x) = true).
  { rewrite Hx, forallb_app. apply andb_true_iff. split; [|reflexivity].
    rewrite forallb_forall in *. intros a Ha. now apply ts_char_plain', Hts. }
  assert (Hchars : Text.chars x
                   = [] ++ map Text.code (Bytes.to_list ts)
                     ++ 46%N :: 108%N :: 111%N :: 103%N :: []).
  { rewrite chars_plain by exact Hplain. now rewrite Hx, map_app. }
  assert (Hl : length (map Text.code (Bytes.to_list ts)) = 17)
    by now rewrite length_map.
  assert (Hcodes : forallb Logs.ts_code (map Text.code (Bytes.to_list ts)) = true).
  { rewrite forallb_forall in *. intros c Hc. apply in_map_iff in Hc as (a & <- & Ha).
    rewrite ts_code_char. now apply Hts. }
  assert (Hback : text_of (map Text.code (Bytes.to_list ts)) = ts).
  { unfold text_of. rewrite map_map.
    rewrite (map_ext _ (fun a => a)) by apply code_back.
    now rewrite map_id, of_to_list. }
  split.
  - destruct (stamp_of_chars x [] _ 46%N [] Hchars) as [_ H]; auto; discriminate.
  - destruct (Bytes.to_list ts) as [|a0 l0] eqn:Ets; [discriminate|].
    assert (Ha0 : plain a0 = true /\ a0 <> "/"%char).
    { apply ts_char_plain'. cbn in Hts. now apply andb_true_iff in Hts as [Hts _]. }
    rewrite join_relative'
      by (apply (relative_by_head x a0 (l0 ++ Bytes.to_list ".log")); [|tauto];
          now rewrite Hx).
    assert (Hc2 : Text.chars (lead dir +:+ x) = Text.chars (lead dir) ++ Text.chars x).
    { apply chars_app. rewrite Hx. cbn. tauto. }
    rewrite Hchars in Hc2. cbn [app] in Hc2.
    destruct (stamp_of_chars _ _ _ 46%N [] Hc2) as [H _]; auto; try discriminate.
    now rewrite H, Hback.
Qed.

(** X20. The log file of a run is one [_get_logs] lists by its name,
    and [_get_log_file_datetime] reads the time of the run back from
    its path. *)
Theorem own_log_file_datetime (self : t) (d : Disk.t) :
  clock_time (current_datetime self) ->
  Logs.is_log_name (timestamp self +:+ ".log") = true
  /\ Logs._get_log_file_datetime (Logs.log_file self d)
     = Ok (Some (current_datetime self)).
Proof.
  intros Hc.
  destruct (stamped_log_name (timestamp self) (Logs.log_dir d)
              (stamp_like_timestamp self Hc)) as [Hn Hs].
  split; [exact Hn|].
  unfold Logs._get_log_file_datetime, Logs.log_file. rewrite Hs.
  unfold timestamp. now rewrite stamp_read_back.
Qed.

Lemma own_log_file_datetime_witness :
  Logs.is_log_name (timestamp (Examples.config false 7 12 2) +:+ ".log") = true
  /\ Logs._get_log_file_datetime
       (Logs.log_file (Examples.config false 7 12 2) Examples.two_labels)
     = Ok (Some Examples.now).
Proof.
  apply (own_log_file_datetime (Examples.config false 7 12 2) Examples.two_labels).
  split; [reflexivity|]. cbn. lia.
Defined.

(** ** Removing old logs *)

Lemma stamp_raises x e : strptime.stamp x = Raise e -> e = ValueError.
Proof.
  unfold strptime.stamp.
  repeat match goal with
         | |- context [match ?x with _ => _ end] => destruct x
         end; congruence.
Qed.

Lemma log_file_datetime_raises p e :
  Logs._get_log_file_datetime p = Raise e -> e = ValueError.
Proof.
  unfold Logs._get_log_file_datetime. destruct (Logs.log_stamp p); [|discriminate].
  destruct (strptime.stamp s) eqn:E; [discriminate|].
  intros [= <-]. now apply stamp_raises in E.
Qed.

Lemma log_file_datetime_none p :
  Logs._get_log_file_datetime p = Ok None -> Logs.log_stamp p = None.
Proof.
  unfold Logs._get_log_file_datetime. destruct (Logs.log_stamp p); [|reflexivity].
  destruct (strptime.stamp s); discriminate.
Qed.

Lemma filter_twice {A} (f g h : A -> bool) l :
  (forall x, In x l -> g x && f x = h x) ->
  List.filter f (List.filter g l) = List.filter h l.
Proof.
  induction l as [|a l IH]; [reflexivity|]. intros H.
  cbn [List.filter]. pose proof (H a (or_introl eq_refl)) as Ha.
  assert (IH' := IH (fun x Hx => H x (or_intror Hx))).
  destruct (g a); cbn [andb] in Ha.
  - cbn [List.filter]. rewrite Ha. destruct (h a); now rewrite IH'.
  - rewrite <- Ha. exact IH'.
Qed.

Lemma filter_all {A} (f : A -> bool) l :
  (forall x, In x l -> f x = true) -> List.filter f l = l.
Proof.
  intros H. apply forallb_filter_id, forallb_forall. exact H.
Qed.

Lemma insert_log_In x y l : In x (Logs.insert_log y l) <-> x = y \/ In x l.
Proof.
  induction l as [|z l IH]; cbn [Logs.insert_log].
  - cbn. intuition.
  - destruct (Text.ltb y z); cbn [In]; [rewrite IH|]; intuition.
Qed.

Lemma sorted_logs_In x l : In x (Logs.sorted_logs l) <-> In x l.
Proof.
  unfold Logs.sorted_logs. induction l as [|y l IH]; [reflexivity|].
  cbn [foldr]. rewrite insert_log_In, IH. cbn. intuition.
Qed.

Section RemoveLogs.
Variables (self : t) (retention : Z) (d : Disk.t) (now : datetime.t).

#[local] Set Warnings "-notation-for-abbreviation,-inconsistent-scopes".
Local Notation own := (Logs.log_file self d).
Local Notation path n := (os_path.join (Logs.log_dir d) n).
Local Notation removes p :=
  (negb (test self) && negb (String.eqb p own) && out_of_date retention now p).
Local Notation at_home w :=
  (disk (Logs.base w) = d /\ clock (Logs.base w) = now).
Local Notation readable p :=
  (p = own \/ exists t, Logs._get_log_file_datetime p = Ok (Some t)).

(** One round: what it leaves of the directory, and how it fails. *)
Lemma remove_old_log_round p w1 :
  at_home w1 ->
  match Logs.remove_old_log self retention p w1 with
  | (o, w2) =>
      at_home w2
      /\ match o with
         | Logs.Done _ =>
             Logs.names w2
             = (if removes p
                then List.filter (fun n => negb (String.eqb (path n) p)) (Logs.names w1)
                else Logs.names w1)
             /\ readable p
         | Logs.Failed e =>
             Logs.names w2 = Logs.names w1
             /\ p <> own
             /\ (e = Logs.Std ValueError
                   /\ Logs._get_log_file_datetime p = Raise ValueError
                 \/ e = Logs.TypeError /\ Logs._get_log_file_datetime p = Ok None)
         end
  end.
Proof.
  intros [Hd Hn]. unfold Logs.remove_old_log, Logs.and_then, Logs.on_base, get_disk.
  cbn [Logs.base Logs.names]. rewrite Hd.
  destruct (String.eqb p own) eqn:Ep.
  - cbn. rewrite andb_false_r. apply String.eqb_eq in Ep. auto.
  - apply String.eqb_neq in Ep. unfold out_of_date.
    destruct (Logs._get_log_file_datetime p) as [[t|]|e] eqn:Et.
    + unfold get_clock. cbn [Logs.base Logs.names]. rewrite Hn.
      destruct (retention <? calendar.days_between now t)%Z.
      * destruct (test self); cbn; rewrite ?Hd; eauto 7.
      * cbn. rewrite andb_false_r. eauto 7.
    + cbn. auto 7.
    + cbn. pose proof (log_file_datetime_raises _ _ Et) as ->. auto 7.
Qed.

(** The rounds over the paths [l]: the directory loses the entries
    whose path is one gone through that a round removes. *)
Lemma remove_old_log_rounds l : forall w1,
  at_home w1 ->
  Forall (fun p => exists ts, Logs.log_stamp p = Some ts) l ->
  match Logs.each l (Logs.remove_old_log self retention) w1 with
  | (o, w2) =>
      at_home w2
      /\ exists done,
           incl done l
           /\ Logs.names w2
              = List.filter (fun n => negb (existsb (String.eqb (path n)) done
                                          && removes (path n)))
                  (Logs.names w1)
           /\ match o with
              | Logs.Done _ => done = l /\ Forall (fun p => readable p) l
              | Logs.Failed e =>
                  e = Logs.Std ValueError
                  /\ exists p, In p l /\ p <> own
                               /\ Logs._get_log_file_datetime p = Raise ValueError
              end
  end.
Proof.
  induction l as [|p l IH]; intros w1 Hw Hl.
  - cbn. split; [exact Hw|]. exists []. split; [apply incl_refl|]. split; [|auto].
    symmetry. apply filter_all. reflexivity.
  - cbn [Logs.each]. unfold Logs.and_then at 1.
    pose proof (remove_old_log_round p w1 Hw) as Hr.
    destruct (Logs.remove_old_log self retention p w1) as [[[]|e] w1'].
    + destruct Hr as (Hw' & Hnames & Hread).
      apply Forall_cons_iff in Hl as [Hp Hl].
      specialize (IH w1' Hw' Hl).
      destruct (Logs.each l (Logs.remove_old_log self retention) w1') as [o w2].
      destruct IH as (Hw2 & done & Hincl & Hn2 & Ho).
      split; [exact Hw2|]. exists (p :: done).
      split; [intros x [<-|Hx]; [now left|right; now apply Hincl]|]. split.
      * rewrite Hn2, Hnames. destruct (removes p) eqn:Erem.
        -- apply filter_twice. intros n _. cbn [existsb].
           destruct (String.eqb (path n) p) eqn:En; cbn [negb andb orb]; [|reflexivity].
           apply String.eqb_eq in En. now rewrite En, Erem.
        -- apply filter_ext. intros n. cbn [existsb].
           destruct (String.eqb (path n) p) eqn:En; cbn [negb andb orb]; [|reflexivity].
           apply String.eqb_eq in En. rewrite En, Erem. now rewrite andb_false_r.
      * destruct o as [[]|e].
        -- destruct Ho as [-> Hall]. split; [reflexivity|]. now constructor.
        -- destruct Ho as (-> & q & Hq & Hq'). split; [reflexivity|].
           exists q. split; [now right|exact Hq'].
    + destruct Hr as (Hw' & Hnames & Hp & [[-> Ht]|[-> Ht]]).
      * split; [exact Hw'|]. exists []. split; [intros x []|]. split.
        -- rewrite Hnames. symmetry. apply filter_all. reflexivity.
        -- split; [reflexivity|]. exists p. split; [now left|]. split; assumption.
      * apply Forall_cons_iff in Hl as [[ts Hts] _].
        apply log_file_datetime_none in Ht. congruence.
Qed.

End RemoveLogs.

(** The paths [_remove_old_logs] goes through. *)
Lemma listed_path_In dir names p :
  In p (Logs.sorted_logs (map (os_path.join dir) (List.filter Logs.is_log_name names)))
  <-> exists n, p = os_path.join dir n /\ In n names /\ Logs.is_log_name n = true.
Proof.
  rewrite sorted_logs_In, in_map_iff. split.
  - intros (n & <- & Hn). apply filter_In in Hn. eauto.
  - intros (n & -> & Hn & Hl). exists n. split; [reflexivity|].
    apply filter_In. auto.
Qed.

Lemma remove_old_logs_rounds self retention w :
  (1 <= retention)%Z ->
  match Logs._remove_old_logs self retention w with
  | (o, w2) =>
      let d := disk (Logs.base w) in
      let l := Logs.sorted_logs (map (os_path.join (Logs.log_dir d))
                                   (List.filter Logs.is_log_name (Logs.names w))) in
      disk (Logs.base w2) = d
      /\ exists done,
           incl done l
           /\ Logs.names w2
              = List.filter
                  (fun n => negb (existsb (String.eqb (os_path.join (Logs.log_dir d) n)) done
                                  && (negb (test self)
                                      && negb (String.eqb (os_path.join (Logs.log_dir d) n)
                                                 (Logs.log_file self d))
                                      && out_of_date retention (clock (Logs.base w))
                                           (os_path.join (Logs.log_dir d) n))))
                  (Logs.names w)
           /\ match o with
              | Logs.Done _ =>
                  done = l
                  /\ Forall (fun p => p = Logs.log_file self d
                                      \/ exists t, Logs._get_log_file_datetime p = Ok (Some t)) l
              | Logs.Failed e =>
                  e = Logs.Std ValueError
                  /\ exists p, In p l /\ p <> Logs.log_file self d
                               /\ Logs._get_log_file_datetime p = Raise ValueError
              end
  end.
Proof.
  intros Hr. unfold Logs._remove_old_logs.
  destruct (retention <? 1)%Z eqn:E; [apply Z.ltb_lt in E; lia|].
  unfold Logs.and_then at 1. unfold Logs.on_base at 1. unfold logger_info, emit.
  cbn [Logs.base Logs.names].
  unfold Logs.and_then at 1. unfold Logs._get_logs, Logs.and_then, Logs.on_base,
    Logs.get_names, Logs.unit_, get_disk. cbn [Logs.base Logs.names disk].
  match goal with
  | |- context [Logs.each ?l ?b ?w0] =>
      pose proof (remove_old_log_rounds self retention (disk (Logs.base w))
                    (clock (Logs.base w)) l w0) as H
  end.
  cbn [Logs.base Logs.names disk clock] in H.
  specialize (H (conj eq_refl eq_refl)).
  match type of H with
  | ?P -> _ => assert (Hs : P)
  end.
  { apply List.Forall_forall. intros p Hp. apply listed_path_In in Hp as (n & -> & _ & Hn).
    destruct (log_stamp_listed (Logs.log_dir (disk (Logs.base w))) n Hn) as (ts & Hts & _).
    eauto. }
  specialize (H Hs).
  destruct (Logs.each _ _ _) as [o w2]. cbn zeta.
  destruct H as ((Hd & _) & done & Hincl & Hn & Ho). eauto 6.
Qed.

(** X21.  Whatever comes of it, [_remove_old_logs] leaves the backups
    alone and takes nothing out of the log directory but entries that
    are logs by their name, are not the log of the run and are dated
    more than [retention] days back; in a dry run it takes nothing
    out. *)
Theorem remove_old_logs_spares (self : t) (retention : Z) (w w' : Logs.world)
    (o : Logs.outcome unit) :
  Forall no_sep (Logs.names w) ->
  Logs._remove_old_logs self retention w = (o, w') ->
  disk (Logs.base w') = disk (Logs.base w)
  /\ incl (Logs.names w') (Logs.names w)
  /\ (forall n, In n (Logs.names w) -> expired self retention w n = false ->
        In n (Logs.names w'))
  /\ (test self = true -> Logs.names w' = Logs.names w).
Proof.
  intros Hsep E. destruct (Z.lt_ge_cases retention 1) as [Hlt|Hge].
  - unfold Logs._remove_old_logs in E. apply Z.ltb_lt in Hlt. rewrite Hlt in E.
    injection E as <- <-. split; [reflexivity|]. split; [apply incl_refl|]. auto.
  - pose proof (remove_old_logs_rounds self retention w Hge) as H.
    rewrite E in H. cbn zeta in H. destruct H as (Hd & done & Hincl & Hn & _).
    split; [exact Hd|]. rewrite Hn. split; [|split].
    + intros n Hin. now apply filter_In in Hin as [Hin _].
    + intros n Hin Hexp. apply filter_In. split; [exact Hin|].
      apply negb_true_iff, andb_false_iff.
      destruct (existsb _ done) eqn:Edone; [right|now left].
      apply existsb_exists in Edone as (p & Hp & Epn). apply String.eqb_eq in Epn.
      apply Hincl, listed_path_In in Hp as (n0 & Hp & Hin0 & Hlog).
      rewrite List.Forall_forall in Hsep.
      assert (n = n0) as <-.
      { apply (join_inj (Logs.log_dir (disk (Logs.base w)))); auto. congruence. }
      unfold expired in Hexp. cbn zeta in Hexp. rewrite Hlog in Hexp.
      cbn [andb] in Hexp. rewrite <- andb_assoc, Hexp. apply andb_false_r.
    + intros Ht. apply filter_all. intros n _. rewrite Ht. cbn [negb andb].
      now rewrite andb_false_r.
Qed.

Lemma remove_old_logs_spares_witness :
  let w := Fixtures.log_world ["2023-11-01-000000.log"; "notes.txt";
                               "2024-01-03-040506.log"; "2023-12-30-000000.log"] in
  let r := Logs._remove_old_logs (Examples.config false 7 12 2) 7 w in
  disk (Logs.base (snd r)) = disk (Logs.base w)
  /\ incl (Logs.names (snd r)) (Logs.names w)
  /\ (forall n, In n (Logs.names w) ->
        expired (Examples.config false 7 12 2) 7 w n = false ->
        In n (Logs.names (snd r)))
  /\ (test (Examples.config false 7 12 2) = true -> Logs.names (snd r) = Logs.names w).
Proof.
  intros w r.
  apply (remove_old_logs_spares (Examples.config false 7 12 2) 7 w (snd r) (fst r)).
  - repeat constructor.
  - apply surjective_pairing.
Defined.

(** X22.  When [_remove_old_logs] comes to its end in a run that is no
    dry run, the log directory has lost exactly the entries that are
    logs by their name, are not the log of the run and are dated more
    than [retention] days back; the others are there in their order. *)
Theorem remove_old_logs_effect (self : t) (retention : Z) (w w' : Logs.world) :
  Forall no_sep (Logs.names w) ->
  (1 <= retention)%Z ->
  test self = false ->
  Logs._remove_old_logs self retention w = (Logs.Done tt, w') ->
  Logs.names w'
  = List.filter (fun n => negb (expired self retention w n)) (Logs.names w).
Proof.
  intros Hsep Hge Ht E.
  pose proof (remove_old_logs_rounds self retention w Hge) as H.
  rewrite E in H. cbn zeta in H. destruct H as (Hd & done & Hincl & Hn & -> & _).
  rewrite Hn. apply filter_ext_in. intros n Hin. f_equal.
  unfold expired. cbn zeta. rewrite Ht. cbn [negb andb].
  destruct (Logs.is_log_name n) eqn:Hlog.
  - cbn [andb]. replace (existsb _ _) with true; [reflexivity|].
    symmetry. apply existsb_exists. eexists. split; [|apply String.eqb_refl].
    apply listed_path_In. eauto.
  - cbn [andb]. replace (existsb _ _) with false; [reflexivity|].
    symmetry. apply not_true_is_false. intros Hex.
    apply existsb_exists in Hex as (p & Hp & Epn). apply String.eqb_eq in Epn.
    apply listed_path_In in Hp as (n0 & Hp & Hin0 & Hlog0).
    rewrite List.Forall_forall in Hsep.
    assert (n = n0) as <-.
    { apply (join_inj (Logs.log_dir (disk (Logs.base w)))); auto. congruence. }
    congruence.
Qed.

Lemma remove_old_logs_effect_witness :
  let w := Fixtures.log_world ["2023-11-01-000000.log"; "notes.txt";
                               "2024-01-03-040506.log"; "2023-12-30-000000.log"] in
  Logs.names (snd (Logs._remove_old_logs (Examples.config false 7 12 2) 7 w))
  = List.filter (fun n => negb (expired (Examples.config false 7 12 2) 7 w n))
      (Logs.names w).
Proof.
  intros w.
  apply (remove_old_logs_effect (Examples.config false 7 12 2) 7 w).
  - repeat constructor.
  - lia.
  - reflexivity.
  - reflexivity.
Defined.

(** X23.  With a retention of a day or more, [_remove_old_logs] fails
    exactly when the log directory lists a log, other than the log of
    the run, whose stamp is no date: it comes to its end when every
    such stamp reads as a date, and fails with [ValueError], never with
    another exception, when one does not. *)
Theorem remove_old_logs_outcome (self : t) (retention : Z) (w : Logs.world) :
  (1 <= retention)%Z ->
  let d := disk (Logs.base w) in
  match fst (Logs._remove_old_logs self retention w) with
  | Logs.Done _ =>
      forall n, In n (Logs.names w) -> Logs.is_log_name n = true ->
        os_path.join (Logs.log_dir d) n <> Logs.log_file self d ->
        exists t, Logs._get_log_file_datetime (os_path.join (Logs.log_dir d) n)
                  = Ok (Some t)
  | Logs.Failed e =>
      e = Logs.Std ValueError
      /\ exists n, In n (Logs.names w) /\ Logs.is_log_name n = true
                   /\ os_path.join (Logs.log_dir d) n <> Logs.log_file self d
                   /\ Logs._get_log_file_datetime (os_path.join (Logs.log_dir d) n)
                      = Raise ValueError
  end.
Proof.
  intros Hge d.
  pose proof (remove_old_logs_rounds self retention w Hge) as H.
  destruct (Logs._remove_old_logs self retention w) as [o w2]. cbn zeta in H.
  destruct H as (_ & done & _ & _ & Ho). cbn [fst]. fold d in Ho.
  destruct o as [[]|e].
  - destruct Ho as [_ Hall]. intros n Hin Hlog Hown.
    rewrite List.Forall_forall in Hall.
    destruct (Hall (os_path.join (Logs.log_dir d) n)) as [Hp|Hp]; [|contradiction|exact Hp].
    apply listed_path_In. eauto.
  - destruct Ho as (-> & p & Hp & Hown & Hdate). split; [reflexivity|].
    apply listed_path_In in Hp as (n & -> & Hin & Hlog). eauto.
Qed.

Lemma remove_old_logs_outcome_witness :
  let w := Fixtures.log_world ["2023-11-01-000000.log"; "2023-02-30-000000.log"] in
  let self := Examples.config false 7 12 2 in
  let d := disk (Logs.base w) in
  match fst (Logs._remove_old_logs self 7 w) with
  | Logs.Done _ =>
      forall n, In n (Logs.names w) -> Logs.is_log_name n = true ->
        os_path.join (Logs.log_dir d) n <> Logs.log_file self d ->
        exists t, Logs._get_log_file_datetime (os_path.join (Logs.log_dir d) n)
                  = Ok (Some t)
  | Logs.Failed e =>
      e = Logs.Std ValueError
      /\ exists n, In n (Logs.names w) /\ Logs.is_log_name n = true
                   /\ os_path.join (Logs.log_dir d) n <> Logs.log_file self d
                   /\ Logs._get_log_file_datetime (os_path.join (Logs.log_dir d) n)
                      = Raise ValueError
  end.
Proof.
  intros w self.
  apply (remove_old_logs_outcome self 7 w). lia.
Defined.

(** ** The two formats of the checksum file *)

Lemma lstrip_app_keep l x :
  Bytes.lstrip_list l <> [] -> Bytes.lstrip_list (l ++ x) = Bytes.lstrip_list l ++ x.
Proof.
  induction l as [|a l IH]; simpl; [congruence|].
  destruct (Bytes.isspace a); [exact IH|reflexivity].
Qed.

Lemma lstrip_idem l : Bytes.lstrip_list (Bytes.lstrip_list l) = Bytes.lstrip_list l.
Proof.
  destruct (Bytes.lstrip_list l) as [|c l'] eqn:E; [reflexivity|].
  apply lstrip_head in E. simpl. now rewrite E.
Qed.

Lemma strip_nonblank p :
  Bytes.strip p <> "" -> Bytes.lstrip_list (Bytes.to_list p) <> [].
Proof.
  intros H E. apply H. unfold Bytes.strip. now rewrite E.
Qed.

Lemma strip_rest p :
  Bytes.strip (Bytes.of_list (Bytes.lstrip_list (Bytes.to_list p) ++ [Bytes.LF]))
  = Bytes.strip p.
Proof.
  unfold Bytes.strip. rewrite to_of_list. f_equal.
  destruct (Bytes.lstrip_list (Bytes.to_list p)) as [|c q] eqn:E; [reflexivity|].
  rewrite <- E.
  rewrite lstrip_app_keep by (rewrite lstrip_idem, E; discriminate).
  rewrite lstrip_idem. now apply rstrip_app_spaces.
Qed.

Lemma split_line_any c p :
  token c -> Bytes.strip p <> "" ->
  Bytes.split_ws_1 (Backup.write_line (p, c))
  = [c; Bytes.of_list (Bytes.lstrip_list (Bytes.to_list p) ++ [Bytes.LF])].
Proof.
  intros [Hc0 Hc] Hp. apply strip_nonblank in Hp.
  assert (Hne : Bytes.to_list c <> []) by now apply to_list_nonempty.
  assert (Hfix : Bytes.lstrip_list (Bytes.to_list c) = Bytes.to_list c).
  { destruct (Bytes.to_list c) as [|a l]; [reflexivity|]. simpl in *.
    apply andb_true_iff in Hc as [Ha _]. apply negb_true_iff in Ha. now rewrite Ha. }
  assert (Hl : Bytes.lstrip_list (Bytes.to_list (Backup.write_line (p, c)))
               = Bytes.to_list c
                 ++ " "%char :: " "%char :: Bytes.to_list p ++ [Bytes.LF]).
  { rewrite write_line_list. cbn [fst snd]. rewrite <- !app_assoc. cbn [app].
    rewrite lstrip_app_keep by (rewrite Hfix; exact Hne). now rewrite Hfix. }
  rewrite split_ws_1_unfold; rewrite Hl.
  2:{ destruct (Bytes.to_list c); [congruence|discriminate]. }
  rewrite span_token_app; [|exact Hc|reflexivity]. cbn [fst snd].
  change (Bytes.lstrip_list (" "%char :: " "%char :: Bytes.to_list p ++ [Bytes.LF]))
    with (Bytes.lstrip_list (Bytes.to_list p ++ [Bytes.LF])).
  rewrite lstrip_app_keep by exact Hp.
  destruct (Bytes.lstrip_list (Bytes.to_list p)) as [|a' l'] eqn:E'; [congruence|].
  cbn [app]. now rewrite of_to_list.
Qed.

Lemma read_line_any version c p :
  token c -> Bytes.strip p <> "" ->
  Backup.read_line version (Backup.write_line (p, c))
  = Ok (if (version =? 1) && Bytes.startswith (Bytes.strip p) "./"
        then Bytes.from 2 (Bytes.strip p) else Bytes.strip p, c).
Proof.
  intros Hc Hp. unfold Backup.read_line.
  rewrite split_line_any, strip_rest by assumption.
  destruct (_ && _); reflexivity.
Qed.

Lemma readlines_lines cs :
  Forall legible cs -> Bytes.readlines (written cs) = map Backup.write_line cs.
Proof.
  intros H. apply readlines_written.
  eapply List.Forall_impl; [|exact H]. intros entry (Hc & Hp & _). now split.
Qed.

Lemma read_lines version cs :
  Forall legible cs ->
  map (Backup.read_line version) (Bytes.readlines (written cs))
  = map (fun entry =>
           Ok (if (version =? 1) && Bytes.startswith (Bytes.strip (fst entry)) "./"
               then Bytes.from 2 (Bytes.strip (fst entry))
               else Bytes.strip (fst entry), snd entry)) cs.
Proof.
  intros H. rewrite readlines_lines by exact H. rewrite map_map.
  apply map_ext_Forall. eapply List.Forall_impl; [|exact H].
  intros [p c] (Hc & _ & Hp). now apply read_line_any.
Qed.

Lemma written_at b d e ws :
  Disk.snapshot_at d (Backup.path b) = Some e ->
  exists d',
    Backup.set_checksums b ws d = Ok d'
    /\ Disk.snapshot_at d' (Backup.path b) = Some (Disk.with_gz e (Some (written ws))).
Proof.
  intros He. unfold Backup.set_checksums. rewrite He. eexists. split; [reflexivity|].
  unfold Disk.snapshot_at in *. cbn [Disk.backups Disk.with_backups].
  change (Disk.backups_dir (Disk.with_backups d _)) with (Disk.backups_dir d).
  rewrite at_path_update by reflexivity. now rewrite He.
Qed.

Lemma checksums_of_gz b d e text :
  Disk.snapshot_at d (Backup.path b) = Some e ->
  Disk.checksums_gz e = Some text ->
  Backup.checksum_file b d = (Some (Backup._checksum_file b), Some 2)
  /\ Backup.checksums b d = map (Backup.read_line 2) (Bytes.readlines text).
Proof.
  intros He Hgz. unfold Backup.checksums, Backup.checksum_file.
  rewrite He, Hgz. split; reflexivity.
Qed.

(** C9, as amended.  For a snapshot directory that exists and a file of
    lines made of a checksum, two spaces, a path and LF: when that file
    is [checksums.gz], it is the one read (version 2), whatever lies
    beside it, and each line gives its checksum with its path less the
    white space at either end; only when [checksums.gz] is missing is
    [checksums.md5] read (version 1), and each of its lines gives its
    checksum with its path less the white space at either end and then
    less one leading [./].  The setter always writes [checksums.gz],
    leaves [checksums.md5] alone, and what is read afterwards is the
    file written, as version 2. *)
Theorem checksum_record_formats (b : Backup.t) (d : Disk.t) (e : Disk.entry)
    (cs : list (string * string)) :
  Disk.snapshot_at d (Backup.path b) = Some e ->
  Forall legible cs ->
  (Disk.checksums_gz e = Some (written cs) ->
     Backup.checksum_file b d = (Some (Backup._checksum_file b), Some 2)
     /\ Backup.checksums b d
        = map (fun entry => Ok (Bytes.strip (fst entry), snd entry)) cs)
  /\ (Disk.checksums_gz e = None -> Disk.checksums_md5 e = Some (written cs) ->
        Backup.checksum_file b d = (Some (Backup.checksum_file_legacy b), Some 1)
        /\ Backup.checksums b d
           = map (fun entry => Ok (undotted (Bytes.strip (fst entry)), snd entry)) cs)
  /\ (forall ws, exists d' e',
        Backup.set_checksums b ws d = Ok d'
        /\ Disk.snapshot_at d' (Backup.path b) = Some e'
        /\ Disk.checksums_gz e' = Some (written ws)
        /\ Disk.checksums_md5 e' = Disk.checksums_md5 e
        /\ Backup.checksum_file b d' = (Some (Backup._checksum_file b), Some 2)
        /\ (Forall legible ws ->
            Backup.checksums b d'
            = map (fun entry => Ok (Bytes.strip (fst entry), snd entry)) ws)).
Proof.
  intros He Hcs. split; [|split].
  - intros Hgz. destruct (checksums_of_gz b d e _ He Hgz) as [Hf Hc].
    split; [exact Hf|]. rewrite Hc. now rewrite read_lines.
  - intros Hgz Hmd. unfold Backup.checksums, Backup.checksum_file.
    rewrite He, Hgz, Hmd. split; [reflexivity|]. now rewrite read_lines.
  - intros ws. destruct (written_at b d e ws He) as (d' & Hset & Hat).
    exists d', (Disk.with_gz e (Some (written ws))).
    destruct (checksums_of_gz b d' _ (written ws) Hat eq_refl) as [Hf Hc].
    repeat split; try assumption.
    intros Hws. rewrite Hc. now rewrite read_lines.
Qed.

Lemma checksum_record_formats_witness :
  let b := Examples.snapshot "daily_2024-01-01-000000" in
  let text := "d41d8cd98f00b204e9800998ecf8427e  ./x/y.txt" +:+ Bytes.nl in
  let d := Examples.root
             [Examples.dir "daily_2024-01-01-000000" (Some []) None (Some text)] in
  Backup.checksum_file b d = (Some (Backup.checksum_file_legacy b), Some 1)
  /\ Backup.checksums b d = [Ok ("x/y.txt", "d41d8cd98f00b204e9800998ecf8427e")].
Proof.
  intros b text d.
  destruct (checksum_record_formats b d
              (Examples.dir "daily_2024-01-01-000000" (Some []) None (Some text))
              [("./x/y.txt", "d41d8cd98f00b204e9800998ecf8427e")]
              eq_refl) as (_ & H & _).
  - repeat constructor; cbn; discriminate.
  - apply H; reflexivity.
Defined.

(** C9 as stated fails: the file [y.txt ], whose name ends with a
    space, is listed in a legacy file under its path [./x/y.txt ]; the
    path read back is not that path less its leading [./], it has lost
    the space as well and names no file of the snapshot. *)
Lemma legacy_path_loses_space :
  let b := Examples.snapshot "daily_2024-01-01-000000" in
  let text := "d41d8cd98f00b204e9800998ecf8427e  ./x/y.txt " +:+ Bytes.nl in
  let d := Examples.root
             [Examples.dir "daily_2024-01-01-000000"
                (Some [("x/y.txt ", "d41d8cd98f00b204e9800998ecf8427e")])
                None (Some text)] in
  Bytes.readlines text = [text]
  /\ Backup.checksums b d = [Ok ("x/y.txt", "d41d8cd98f00b204e9800998ecf8427e")]
  /\ Backup.checksums b d
     <> [Ok (undotted "./x/y.txt ", "d41d8cd98f00b204e9800998ecf8427e")]
  /\ Backup.get_files b d
     = Ok ["/srv/h/backups/daily_2024-01-01-000000/backup/x/y.txt "].
Proof. vm_compute. repeat split. discriminate. Qed.
